(** * 2D convolution kernels of [examples/cuda/convolution.cu]

    A shallow embedding of the two CUDA kernels of the file, the tiled
    [convolution_kernel] and the reference [convolution_naive], together
    with the properties their specification states about them.

    Modelling conventions.
    - The preprocessor constants of the file are the fields of [config];
      [block_size_*] and [tile_size_*] are not defined in the file (the tuner
      supplies them on the compiler's command line) and are fields as well.
    - [int] values are integers of [Z]; [/] and [%] are C's truncating
      [Z.quot] and [Z.rem].  The kernels are modelled with exact integer
      arithmetic.  Lines 19-20 and 95-96 compute the coordinates of a
      thread in 32-bit unsigned arithmetic and convert them to [int]:
      [by_int], [bx_int], [naive_y_int] and [naive_x_int] are those values,
      and they are the exact ones on the launches of [tiled_in_int] and
      [naive_in_int], whose grids end below [2^31] and whose buffers have
      fewer than [2^31] cells ([tiled_coordinates_exact],
      [naive_coordinates_exact]).  A statement that depends on where the
      threads of a grid are is made for those launches, or for threads
      that its hypotheses keep inside the image; beyond them the
      coordinates wrap, and a thread whose coordinate became negative
      passes the tests of lines 33, 78 and 100.
    - [float] is an abstract type [T] with a zero, an addition and a
      multiplication about which nothing is assumed: every result below
      holds for IEEE single precision as well as for exact arithmetic.
    - Buffers are total maps from indices to values.  Every access to a
      buffer is recorded in a log, most recent access first, so that the
      claims about which cells are read or written are claims about the log.
    - [__shared__] and register arrays are not initialised by CUDA: their
      content on entry of a block or thread is an arbitrary [garbage].
    - Blocks run one after the other, in the order a [schedule] gives; the
      threads of a block run the code before [__syncthreads()] one after the
      other, then the code after it one after the other, in the orders the
      schedule gives.  The results hold for every schedule of the launch:
      every order of its blocks and, in each of the two phases of a block,
      every order of its threads. *)

From Stdlib Require Import ZArith List Bool Lia Permutation.
Import ListNotations.
Local Open Scope Z_scope.

(** ** Compile-time configuration (lines 1-12) *)

Record config : Type := mkConfig {
  image_height : Z;
  image_width : Z;
  filter_height : Z;
  filter_width : Z;
  block_size_y : Z;
  block_size_x : Z;
  tile_size_y : Z;
  tile_size_x : Z
}.

Definition border_height (c : config) : Z := (filter_height c ÷ 2) * 2.
Definition border_width (c : config) : Z := (filter_width c ÷ 2) * 2.
Definition input_height (c : config) : Z := image_height c + border_height c.
Definition input_width (c : config) : Z := image_width c + border_width c.

Definition i_end (c : config) : Z :=
  Z.min (block_size_y c * tile_size_y c + border_height c) (input_height c).
Definition j_end (c : config) : Z :=
  Z.min (block_size_x c * tile_size_x c + border_width c) (input_width c).

(** The condition of the two [#if] directives (lines 30 and 75): true when
    the image is not an exact multiple of the area a block covers.  (With a
    tile or block size of zero the preprocessor rejects the division; the
    results below that depend on the mode assume positive block sizes and
    concern threads that have an output element.) *)
Definition bounds_checked (c : config) : bool :=
  negb (Z.rem (image_height c) (block_size_y c * tile_size_y c) =? 0)
  || negb (Z.rem (image_width c) (block_size_x c * tile_size_x c) =? 0).

(** The constants the file defines, for a given block and tile geometry. *)
Definition file_config (bsy bsx tsy tsx : Z) : config :=
  mkConfig 4096 4096 17 17 bsy bsx tsy tsx.

(** ** Launch geometry and thread coordinates ([unsigned int] in CUDA) *)

Record launch : Type := mkLaunch {
  gridDim_y : nat;
  gridDim_x : nat;
  blockDim_y : nat;
  blockDim_x : nat
}.

Record thread : Type := mkThread {
  blockIdx_y : nat;
  blockIdx_x : nat;
  threadIdx_y : nat;
  threadIdx_x : nat
}.

(** Blocks of a grid and threads of a block, in row-major order. *)
Definition grid_blocks (l : launch) : list (nat * nat) :=
  list_prod (seq 0 (gridDim_y l)) (seq 0 (gridDim_x l)).

Definition block_threads (l : launch) (b : nat * nat) : list thread :=
  map (fun t => mkThread (fst b) (snd b) (fst t) (snd t))
      (list_prod (seq 0 (blockDim_y l)) (seq 0 (blockDim_x l))).

Definition grid_threads (l : launch) : list thread :=
  flat_map (block_threads l) (grid_blocks l).

(** The order in which the blocks run and, for each block, the order in
    which its threads run the code before the barrier and the code after
    it. *)
Record schedule : Type := mkSchedule {
  block_order : list (nat * nat);
  staging_order : nat * nat -> list thread;
  compute_order : nat * nat -> list thread
}.

Definition row_major (l : launch) : schedule :=
  mkSchedule (grid_blocks l) (block_threads l) (block_threads l).

(** [sc] runs the blocks and threads of the launch [l], each once. *)
Definition schedules (l : launch) (sc : schedule) : Prop :=
  Permutation (block_order sc) (grid_blocks l)
  /\ (forall b, Permutation (staging_order sc b) (block_threads l b))
  /\ (forall b, Permutation (compute_order sc b) (block_threads l b)).

(** Another schedule: blocks last to first, staging last thread first. *)
Definition reversed (l : launch) : schedule :=
  mkSchedule (rev (grid_blocks l)) (fun b => rev (block_threads l b))
             (block_threads l).

(** The threads that run the code after the barrier, in order. *)
Definition scheduled_threads (sc : schedule) : list thread :=
  flat_map (compute_order sc) (block_order sc).

(** ** Loops *)

(** [for (int i = init; i < bound; i += step) body], with a bound [fuel] on
    the number of iterations: [None] when the bound is reached. *)
Fixpoint for_loop {S : Type} (fuel : nat) (i bound step : Z)
    (body : Z -> S -> option S) (s : S) : option S :=
  if i <? bound then
    match fuel with
    | O => None
    | Datatypes.S fuel' =>
        match body i s with
        | Some s' => for_loop fuel' (i + step) bound step body s'
        | None => None
        end
    end
  else Some s.

(** Running a total action for each element of a list, in order. *)
Definition each {A S : Type} (f : A -> S -> S) (l : list A) (s : S) : S :=
  fold_left (fun s a => f a s) l s.

(** Running a fallible action for each element of a list, in order. *)
Fixpoint foldM {A S : Type} (body : A -> S -> option S) (l : list A) (s : S)
    : option S :=
  match l with
  | [] => Some s
  | a :: l' =>
      match body a s with
      | Some s' => foldM body l' s'
      | None => None
      end
  end.

(** The values the loop variable takes, for a given fuel. *)
Fixpoint loop_indices (fuel : nat) (i bound step : Z) : list Z :=
  if i <? bound then
    match fuel with
    | O => []
    | Datatypes.S fuel' => i :: loop_indices fuel' (i + step) bound step
    end
  else [].

(** The values of [i] in [for (i = lo; i < hi; i += step)] when [0 < step]. *)
Definition strided (lo hi step : Z) : list Z :=
  loop_indices (Z.to_nat (hi - lo)) lo hi step.

Definition range (n : Z) : list Z := strided 0 n 1.

Section Kernels.

Variable T : Type.
Variable f_zero : T.
Variables f_add f_mul : T -> T -> T.

(** ** Memory and the access log *)

Inductive event : Type :=
| RdInput (k : Z)            (* input[k] read *)
| RdConst (k : Z)            (* d_filter[k] read *)
| RdFilter (k : Z)           (* filter[k] read *)
| RdShared (r c : Z)         (* sh_input[r][c] read *)
| WrShared (r c : Z)         (* sh_input[r][c] written *)
| WrOutput (k : Z) (v : T).  (* output[k] = v *)

Record state : Type := mkState {
  output : Z -> T;          (* the output buffer, global memory *)
  sh_input : Z -> Z -> T;   (* the scratch tile of the running block *)
  sum : Z -> Z -> T;        (* the accumulators of the running tiled thread *)
  acc : T;                  (* the scalar [sum] of the running naive thread *)
  trace : list event        (* the access log, most recent first *)
}.

Definition upd1 (m : Z -> T) (k : Z) (v : T) : Z -> T :=
  fun k' => if k' =? k then v else m k'.

Definition upd2 (m : Z -> Z -> T) (r c : Z) (v : T) : Z -> Z -> T :=
  fun r' c' => if (r' =? r) && (c' =? c) then v else m r' c'.

(** [sh_input[i][j] = input[k]] *)
Definition stage (input : Z -> T) (i j k : Z) (s : state) : state :=
  mkState (output s) (upd2 (sh_input s) i j (input k)) (sum s) (acc s)
          (WrShared i j :: RdInput k :: trace s).

(** [sum[yi][xi] = 0.0f] *)
Definition clear_sum (yi xi : Z) (s : state) : state :=
  mkState (output s) (sh_input s) (upd2 (sum s) yi xi f_zero) (acc s) (trace s).

(** [sum[yi][xi] += sh_input[r][c] * d_filter[k]] *)
Definition accumulate (d_filter : Z -> T) (yi xi r c k : Z) (s : state) : state :=
  mkState (output s) (sh_input s)
          (upd2 (sum s) yi xi
                (f_add (sum s yi xi) (f_mul (sh_input s r c) (d_filter k))))
          (acc s)
          (RdConst k :: RdShared r c :: trace s).

(** [output[k] = v] *)
Definition store (k : Z) (v : T) (s : state) : state :=
  mkState (upd1 (output s) k v) (sh_input s) (sum s) (acc s)
          (WrOutput k v :: trace s).

(** [sum += input[k] * filter[f]] of the naive kernel *)
Definition accumulate_naive (input filter : Z -> T) (k f : Z) (s : state) : state :=
  mkState (output s) (sh_input s) (sum s)
          (f_add (acc s) (f_mul (input k) (filter f)))
          (RdFilter f :: RdInput k :: trace s).

(** Entering a block or a thread: scratch and registers hold garbage. *)
Record garbage : Type := mkGarbage {
  g_shared : nat -> nat -> Z -> Z -> T;
  g_sum : thread -> Z -> Z -> T;
  g_acc : thread -> T
}.

Definition enter_block (g : garbage) (b : nat * nat) (s : state) : state :=
  mkState (output s) (g_shared g (fst b) (snd b)) (sum s) (acc s) (trace s).

Definition enter_thread (g : garbage) (t : thread) (s : state) : state :=
  mkState (output s) (sh_input s) (g_sum g t) (g_acc g t) (trace s).

(** The state a kernel launch starts from: the output buffer as the caller
    allocated it, and an empty log. *)
Definition initial (out0 : Z -> T) : state :=
  mkState out0 (fun _ _ => f_zero) (fun _ _ => f_zero) f_zero [].

(** ** The tiled kernel (lines 16-87) *)

Section Tiled.

Variable checked : bool.     (* which branch of the two [#if] is compiled *)
Variable c : config.
Variable input d_filter : Z -> T.

(** Lines 17-20.  [by_] and [bx] are the exact products; the values the
    code computes, in 32-bit unsigned arithmetic converted to [int], are
    [by_int] and [bx_int] below, which equal them in the launches of
    [tiled_in_int]. *)
Definition ty (t : thread) : Z := Z.of_nat (threadIdx_y t).
Definition tx (t : thread) : Z := Z.of_nat (threadIdx_x t).
Definition by_ (t : thread) : Z :=
  Z.of_nat (blockIdx_y t) * block_size_y c * tile_size_y c.
Definition bx (t : thread) : Z :=
  Z.of_nat (blockIdx_x t) * block_size_x c * tile_size_x c.

(** Lines 30-38: the body of the staging loops. *)
Definition load_cell (t : thread) (i j : Z) (s : state) : state :=
  if checked then
    let y := by_ t + i in
    let x := bx t + j in
    if (y <? input_height c) && (x <? input_width c)
    then stage input i j (y * input_width c + x) s
    else s
  else stage input i j ((by_ t + i) * input_width c + (bx t + j)) s.

(** Lines 26-40. *)
Definition load_phase (fuel : nat) (t : thread) : state -> option state :=
  for_loop fuel (ty t) (i_end c) (block_size_y c) (fun i =>
    for_loop fuel (tx t) (j_end c) (block_size_x c) (fun j s =>
      Some (load_cell t i j s))).

(** Lines 44-51. *)
Definition init_phase (fuel : nat) : state -> option state :=
  for_loop fuel 0 (tile_size_y c) 1 (fun yi =>
    for_loop fuel 0 (tile_size_x c) 1 (fun xi s =>
      Some (clear_sum yi xi s))).

(** Line 63: the scratch cell and the coefficient that filter weight
    [(i,j)] contributes to accumulator [(yi,xi)]. *)
Definition sh_row (t : thread) (yi i : Z) : Z := ty t + yi * block_size_y c + i.
Definition sh_col (t : thread) (xi j : Z) : Z := tx t + xi * block_size_x c + j.
Definition coef (i j : Z) : Z := i * filter_width c + j.

Definition accumulate_cell (t : thread) (i j yi xi : Z) (s : state) : state :=
  accumulate d_filter yi xi (sh_row t yi i) (sh_col t xi j) (coef i j) s.

(** Lines 54-68. *)
Definition accumulate_phase (fuel : nat) (t : thread) : state -> option state :=
  for_loop fuel 0 (filter_height c) 1 (fun i =>
    for_loop fuel 0 (filter_width c) 1 (fun j =>
      for_loop fuel 0 (tile_size_y c) 1 (fun yi =>
        for_loop fuel 0 (tile_size_x c) 1 (fun xi s =>
          Some (accumulate_cell t i j yi xi s))))).

(** Lines 76-77: the output element of accumulator [(yi,xi)]. *)
Definition out_y (t : thread) (yi : Z) : Z := by_ t + ty t + yi * block_size_y c.
Definition out_x (t : thread) (xi : Z) : Z := bx t + tx t + xi * block_size_x c.

(** Lines 75-83: the body of the store loops. *)
Definition store_cell (t : thread) (yi xi : Z) (s : state) : state :=
  if checked then
    let y := out_y t yi in
    let x := out_x t xi in
    if (y <? image_height c) && (x <? image_width c)
    then store (y * image_width c + x) (sum s yi xi) s
    else s
  else
    store ((by_ t + ty t + yi * block_size_y c) * image_width c
           + bx t + tx t + xi * block_size_x c) (sum s yi xi) s.

(** Lines 71-85. *)
Definition store_phase (fuel : nat) (t : thread) : state -> option state :=
  for_loop fuel 0 (tile_size_y c) 1 (fun yi =>
    for_loop fuel 0 (tile_size_x c) 1 (fun xi s =>
      Some (store_cell t yi xi s))).

(** The code of one thread after the barrier. *)
Definition compute_phase (fuel : nat) (t : thread) (s : state) : option state :=
  match init_phase fuel s with
  | Some s1 =>
      match accumulate_phase fuel t s1 with
      | Some s2 => store_phase fuel t s2
      | None => None
      end
  | None => None
  end.

(** One block: every thread stages, the barrier, every thread computes and
    stores.  The [filter] argument of the kernel is passed along and, as in
    the source, never used. *)
Definition convolution_block (filter : Z -> T) (g : garbage) (sc : schedule)
    (fuel : nat) (b : nat * nat) (s : state) : option state :=
  match foldM (load_phase fuel) (staging_order sc b) (enter_block g b s) with
  | Some s1 =>
      foldM (fun t s => compute_phase fuel t (enter_thread g t s))
            (compute_order sc b) s1
  | None => None
  end.

Definition convolution_kernel_of (filter : Z -> T) (g : garbage) (sc : schedule)
    (fuel : nat) : state -> option state :=
  foldM (convolution_block filter g sc fuel) (block_order sc).

(** *** The same code with its loops unrolled

    What the phases compute once the loops have been given enough fuel
    ([load_phase_unrolled] and the lemmas after it prove it). *)

Definition load_all (t : thread) : state -> state :=
  each (fun i =>
    each (fun j => load_cell t i j)
         (strided (tx t) (j_end c) (block_size_x c)))
    (strided (ty t) (i_end c) (block_size_y c)).

Definition init_all : state -> state :=
  each (fun yi => each (fun xi => clear_sum yi xi) (range (tile_size_x c)))
       (range (tile_size_y c)).

Definition accumulate_tile (t : thread) (i j : Z) : state -> state :=
  each (fun yi =>
    each (fun xi => accumulate_cell t i j yi xi) (range (tile_size_x c)))
    (range (tile_size_y c)).

Definition accumulate_all (t : thread) : state -> state :=
  each (fun i => each (fun j => accumulate_tile t i j) (range (filter_width c)))
       (range (filter_height c)).

Definition store_all (t : thread) : state -> state :=
  each (fun yi => each (fun xi => store_cell t yi xi) (range (tile_size_x c)))
       (range (tile_size_y c)).

Definition compute_all (t : thread) (s : state) : state :=
  store_all t (accumulate_all t (init_all s)).

Definition block_all (g : garbage) (sc : schedule) (b : nat * nat) (s : state)
    : state :=
  each (fun t s => compute_all t (enter_thread g t s)) (compute_order sc b)
       (each load_all (staging_order sc b) (enter_block g b s)).

Definition kernel_all (g : garbage) (sc : schedule) : state -> state :=
  each (block_all g sc) (block_order sc).

End Tiled.

(** [convolution_kernel] as the preprocessor compiles it: the branch of the
    [#if] is chosen by the configuration. *)
Definition convolution_kernel (c : config) (input d_filter filter : Z -> T)
    (g : garbage) (sc : schedule) (fuel : nat) : state -> option state :=
  convolution_kernel_of (bounds_checked c) c input d_filter filter g sc fuel.

(** ** The naive kernel (lines 93-110) *)

Section Naive.

Variable c : config.
Variable input filter : Z -> T.
Variable l : launch.

(** Lines 95-96.  [naive_x] and [naive_y] are the exact sums; the values
    the code computes, in 32-bit unsigned arithmetic converted to [int],
    are [naive_x_int] and [naive_y_int] below, which equal them in the
    launches of [naive_in_int]. *)
Definition naive_x (t : thread) : Z :=
  Z.of_nat (blockIdx_x t * blockDim_x l + threadIdx_x t).
Definition naive_y (t : thread) : Z :=
  Z.of_nat (blockIdx_y t * blockDim_y l + threadIdx_y t).

Definition set_acc (v : T) (s : state) : state :=
  mkState (output s) (sh_input s) (sum s) v (trace s).

(** Line 104. *)
Definition naive_cell (t : thread) (j i : Z) (s : state) : state :=
  accumulate_naive input filter
    ((naive_y t + j) * input_width c + (naive_x t + i))
    (j * filter_width c + i) s.

Definition naive_thread (fuel : nat) (t : thread) (s : state) : option state :=
  let x := naive_x t in
  let y := naive_y t in
  let s0 := set_acc f_zero s in
  if (y <? image_height c) && (x <? image_width c) then
    match
      for_loop fuel 0 (filter_height c) 1 (fun j =>
        for_loop fuel 0 (filter_width c) 1 (fun i s =>
          Some (naive_cell t j i s))) s0
    with
    | Some s1 => Some (store (y * image_width c + x) (acc s1) s1)
    | None => None
    end
  else Some s0.

(** The threads of the grid run one after the other, in the given
    [order]. *)
Definition convolution_naive (g : garbage) (order : list thread) (fuel : nat)
    : state -> option state :=
  foldM (fun t s => naive_thread fuel t (enter_thread g t s)) order.

(** *** The same code with its loops unrolled *)

Definition naive_sum (t : thread) : state -> state :=
  each (fun j => each (fun i => naive_cell t j i) (range (filter_width c)))
       (range (filter_height c)).

Definition naive_thread_all (t : thread) (s : state) : state :=
  let s0 := set_acc f_zero s in
  if (naive_y t <? image_height c) && (naive_x t <? image_width c) then
    let s1 := naive_sum t s0 in
    store (naive_y t * image_width c + naive_x t) (acc s1) s1
  else s0.

Definition naive_all (g : garbage) (order : list thread) : state -> state :=
  each (fun t s => naive_thread_all t (enter_thread g t s)) order.

End Naive.

End Kernels.

Arguments RdInput {T} k.
Arguments RdConst {T} k.
Arguments RdFilter {T} k.
Arguments RdShared {T} r c.
Arguments WrShared {T} r c.
Arguments WrOutput {T} k v.
Arguments mkState {T}.
Arguments output {T}.
Arguments sh_input {T}.
Arguments sum {T}.
Arguments acc {T}.
Arguments trace {T}.
Arguments mkGarbage {T}.
Arguments g_shared {T}.
Arguments g_sum {T}.
Arguments g_acc {T}.
Arguments upd1 {T}.
Arguments upd2 {T}.
Arguments stage {T}.
Arguments clear_sum {T}.
Arguments accumulate {T}.
Arguments store {T}.
Arguments accumulate_naive {T}.
Arguments set_acc {T}.
Arguments enter_block {T}.
Arguments enter_thread {T}.
Arguments initial {T}.
Arguments load_cell {T}.
Arguments load_phase {T}.
Arguments init_phase {T}.
Arguments accumulate_cell {T}.
Arguments accumulate_phase {T}.
Arguments store_cell {T}.
Arguments store_phase {T}.
Arguments compute_phase {T}.
Arguments convolution_block {T}.
Arguments convolution_kernel_of {T}.
Arguments convolution_kernel {T}.
Arguments load_all {T}.
Arguments init_all {T}.
Arguments accumulate_tile {T}.
Arguments accumulate_all {T}.
Arguments store_all {T}.
Arguments compute_all {T}.
Arguments block_all {T}.
Arguments kernel_all {T}.
Arguments naive_cell {T}.
Arguments naive_thread {T}.
Arguments convolution_naive {T}.
Arguments naive_sum {T}.
Arguments naive_thread_all {T}.
Arguments naive_all {T}.

(** Fuel that suffices for every loop of both kernels. *)
Definition fuel_needed (c : config) : nat :=
  Z.to_nat (Z.max (Z.max (i_end c) (j_end c))
                  (Z.max (Z.max (tile_size_y c) (tile_size_x c))
                         (Z.max (filter_height c) (filter_width c)))).

(** * Vocabulary of the specification *)

Section Vocabulary.

Variable T : Type.
Variable f_zero : T.
Variables f_add f_mul : T -> T -> T.

(** The weighted sum of the specification for output element [(y,x)],
    [Σ_{j,i} input[y+j][x+i] * filter[j][i]] over the flat row-major
    buffers, the terms added in row-major order starting from zero. *)
Definition weighted_sum (c : config) (input filter : Z -> T) (y x : Z) : T :=
  fold_left (fun a j =>
    fold_left (fun a i =>
      f_add a (f_mul (input ((y + j) * input_width c + (x + i)))
                     (filter (j * filter_width c + i))))
      (range (filter_width c)) a)
    (range (filter_height c)) f_zero.

(** A sequence of writes [output[k] = v], first write first, applied to a
    buffer. *)
Definition apply_writes (w : list (Z * T)) (out : Z -> T) : Z -> T :=
  fold_left (fun o kv => upd1 o (fst kv) (snd kv)) w out.

(** The writes to the output buffer recorded in a log. *)
Definition writes_of (tr : list (event T)) : list (Z * T) :=
  flat_map (fun e => match e with WrOutput k v => [(k, v)] | _ => [] end) tr.

(** [s'] is [s] after more accesses, all of them satisfying [P]. *)
Definition grows (P : event T -> Prop) (s s' : state T) : Prop :=
  exists new, trace s' = new ++ trace s /\ Forall P new.

(** Kinds of accesses. *)
Definition staging_access (e : event T) : Prop :=
  match e with RdInput _ | WrShared _ _ => True | _ => False end.

Definition accumulation_access (e : event T) : Prop :=
  match e with RdShared _ _ | RdConst _ => True | _ => False end.

Definition store_access (e : event T) : Prop :=
  match e with WrOutput _ _ => True | _ => False end.

Definition not_filter_access (e : event T) : Prop :=
  match e with RdFilter _ => False | _ => True end.

(** A write to the output buffer lands inside the image. *)
Definition in_image (c : config) (k : Z) : Prop :=
  exists y x, 0 <= y < image_height c /\ 0 <= x < image_width c
              /\ k = y * image_width c + x.

Definition writes_in_image (c : config) (e : event T) : Prop :=
  match e with WrOutput k _ => in_image c k | _ => True end.

Definition no_write (e : event T) : Prop :=
  match e with WrOutput _ _ => False | _ => True end.

(** A read of the input buffer stays inside the buffer. *)
Definition reads_in_input (c : config) (e : event T) : Prop :=
  match e with
  | RdInput k => 0 <= k < input_height c * input_width c
  | _ => True
  end.

(** A write of the scratch tile is to a cell of thread [t]: the cells whose
    row and column are those of [t] modulo the block size. *)
Definition own_cell (c : config) (t : thread) (e : event T) : Prop :=
  match e with
  | WrShared r col =>
      r mod block_size_y c = ty t /\ col mod block_size_x c = tx t
  | _ => True
  end.

(** The accesses of an active naive thread before its store. *)
Definition naive_access (c : config) (e : event T) : Prop :=
  match e with
  | RdFilter _ => True
  | RdInput k => 0 <= k < input_height c * input_width c
  | _ => False
  end.

(** From [s] to [s'] the output buffer was written inside the image only. *)
Definition image_only (c : config) (s s' : state T) : Prop :=
  grows (writes_in_image c) s s'
  /\ forall k, ~ in_image c k -> output s' k = output s k.

(** The cell [(r,col)] of the scratch tile holds the input element the
    block of [t] needs there. *)
Definition filled (c : config) (input : Z -> T) (t : thread) (r col : Z)
    (s : state T) : Prop :=
  sh_input s r col = input ((by_ c t + r) * input_width c + (bx c t + col)).

(** The scratch tile of the block of [t] holds the input elements of the
    block: every cell the staging loops reach and, with bounds checks, do
    not skip. *)
Definition staged (checked : bool) (c : config) (input : Z -> T) (t : thread)
    (s : state T) : Prop :=
  forall r col,
    0 <= r < i_end c -> 0 <= col < j_end c ->
    (checked = true ->
     by_ c t + r < input_height c /\ bx c t + col < input_width c) ->
    filled c input t r col s.

(** What lines 54-68 leave in accumulator [(yi,xi)] of thread [t], given
    the content [sh] of the scratch tile. *)
Definition tile_sum (c : config) (d_filter : Z -> T) (sh : Z -> Z -> T)
    (t : thread) (yi xi : Z) : T :=
  fold_left (fun a i =>
    fold_left (fun a j =>
      f_add a (f_mul (sh (sh_row c t yi i) (sh_col c t xi j))
                     (d_filter (coef c i j))))
      (range (filter_width c)) a)
    (range (filter_height c)) f_zero.

(** The writes of one tiled thread when every accumulator holds the
    weighted sum of its output element: the specification of lines 71-85. *)
Definition thread_writes (checked : bool) (c : config) (input d_filter : Z -> T)
    (t : thread) : list (Z * T) :=
  flat_map (fun yi =>
    flat_map (fun xi =>
      if negb checked
         || ((out_y c t yi <? image_height c) && (out_x c t xi <? image_width c))
      then [(out_y c t yi * image_width c + out_x c t xi,
             weighted_sum c input d_filter (out_y c t yi) (out_x c t xi))]
      else [])
      (range (tile_size_x c)))
    (range (tile_size_y c)).

(** The write of one naive thread. *)
Definition naive_writes (c : config) (input filter : Z -> T) (l : launch)
    (t : thread) : list (Z * T) :=
  if (naive_y l t <? image_height c) && (naive_x l t <? image_width c)
  then [(naive_y l t * image_width c + naive_x l t,
         weighted_sum c input filter (naive_y l t) (naive_x l t))]
  else [].

End Vocabulary.

Arguments weighted_sum {T}.
Arguments apply_writes {T}.
Arguments writes_of {T}.
Arguments grows {T}.
Arguments staging_access {T}.
Arguments accumulation_access {T}.
Arguments store_access {T}.
Arguments not_filter_access {T}.
Arguments writes_in_image {T}.
Arguments reads_in_input {T}.
Arguments naive_access {T}.
Arguments own_cell {T}.
Arguments filled {T}.
Arguments staged {T}.
Arguments tile_sum {T}.
Arguments image_only {T}.
Arguments no_write {T}.
Arguments thread_writes {T}.
Arguments naive_writes {T}.

(** The launch of the tiled kernel matches its configuration: a block has
    [block_size_y * block_size_x] threads and, where the bounds checks are
    compiled out, the grid does not reach beyond the image. *)
Definition tiled_launch (checked : bool) (c : config) (l : launch) : Prop :=
  Z.of_nat (blockDim_y l) = block_size_y c
  /\ Z.of_nat (blockDim_x l) = block_size_x c
  /\ (checked = false ->
      Z.of_nat (gridDim_y l) * (block_size_y c * tile_size_y c) <= image_height c
      /\ Z.of_nat (gridDim_x l) * (block_size_x c * tile_size_x c) <= image_width c).

(** Where the bounds checks are compiled out, every output element of
    thread [t] lies inside the image. *)
Definition all_inside (checked : bool) (c : config) (t : thread) : Prop :=
  checked = false ->
  forall yi xi, 0 <= yi < tile_size_y c -> 0 <= xi < tile_size_x c ->
    out_y c t yi < image_height c /\ out_x c t xi < image_width c.

(** The grid of the tiled kernel reaches every element of the image. *)
Definition tiled_covers (c : config) (l : launch) : Prop :=
  image_height c <= Z.of_nat (gridDim_y l) * (block_size_y c * tile_size_y c)
  /\ image_width c <= Z.of_nat (gridDim_x l) * (block_size_x c * tile_size_x c).

(** The grid of the naive kernel reaches every element of the image. *)
Definition naive_covers (c : config) (l : launch) : Prop :=
  image_height c <= Z.of_nat (gridDim_y l * blockDim_y l)
  /\ image_width c <= Z.of_nat (gridDim_x l * blockDim_x l).

(** The staging loops of the block of [t] reach the scratch cell [(r,col)]
    and, the bounds checks compiled in, skip it. *)
Definition skipped (c : config) (t : thread) (r col : Z) : Prop :=
  0 <= r < i_end c /\ 0 <= col < j_end c
  /\ ~ (by_ c t + r < input_height c /\ bx c t + col < input_width c).

(** No scratch cell that the staging loops of the block of [t] skipped is
    read in the log [tr]. *)
Definition reads_no_skipped_cell {T : Type} (c : config) (t : thread)
    (tr : list (event T)) : Prop :=
  forall r col, skipped c t r col -> ~ In (RdShared r col) tr.

(** Recognising accesses to one scratch cell in a log. *)
Definition reads_cell {T : Type} (r col : Z) (e : event T) : bool :=
  match e with RdShared r' c' => (r' =? r) && (c' =? col) | _ => false end.

Definition stages_cell {T : Type} (r col : Z) (e : event T) : bool :=
  match e with WrShared r' c' => (r' =? r) && (c' =? col) | _ => false end.

(** ** Concrete instances, over integer arithmetic *)

(** A 3 x 3 image, a 3 x 3 filter, blocks of 2 x 2 threads with one output
    element each: the blocks do not tile the image, the checks are compiled
    in. *)
Definition checked_config : config := mkConfig 3 3 3 3 2 2 1 1.

(** A 4 x 4 image with the same filter and geometry: exact tiling. *)
Definition exact_config : config := mkConfig 4 4 3 3 2 2 1 1.

Definition grid_2x2 : launch := mkLaunch 2 2 2 2.

Definition ramp : Z -> Z := fun k => k + 1.
Definition ones : Z -> Z := fun _ => 1.
Definition twos : Z -> Z := fun _ => 2.

Definition junk : garbage Z :=
  mkGarbage (fun _ _ _ _ => 7) (fun _ _ _ => 9) (fun _ => 5).
Definition junk' : garbage Z :=
  mkGarbage (fun _ _ r col => r - col) (fun _ yi xi => yi * xi) (fun _ => 0).

Definition start : state Z := initial 0 (fun _ => -1).

(** The constants of the file with blocks of 3 x 1 threads and one output
    element per thread: 4096 is not a multiple of 3.  The last block row,
    1365, begins at image row 4095. *)
Definition edge_config : config := file_config 3 1 1 1.
Definition edge_launch : launch := mkLaunch 1366 4096 3 1.
Definition edge_block : nat * nat := (1365%nat, 0%nat).
Definition edge_thread : thread := mkThread 1365 0 1 0.

(** ** Further vocabulary: bounds of the other arrays *)

(** An access to the scratch tile stays inside the extents of its
    declaration (line 23). *)
Definition scratch_in_bounds {T : Type} (c : config) (e : event T) : Prop :=
  match e with
  | RdShared r col | WrShared r col =>
      0 <= r < block_size_y c * tile_size_y c + border_height c
      /\ 0 <= col < block_size_x c * tile_size_x c + border_width c
  | _ => True
  end.

(** A read of the coefficients, from [d_filter] or from [filter], stays
    inside the [filter_height * filter_width] cells of line 14. *)
Definition coefficient_in_bounds {T : Type} (c : config) (e : event T) : Prop :=
  match e with
  | RdConst k | RdFilter k => 0 <= k < filter_height c * filter_width c
  | _ => True
  end.

(** A read of the input buffer is above its last row. *)
Definition reads_above_last_row {T : Type} (c : config) (e : event T) : Prop :=
  match e with
  | RdInput k => 0 <= k < (input_height c - 1) * input_width c
  | _ => True
  end.

(** How many accesses of a log satisfy [q]. *)
Definition count_accesses {T : Type} (q : event T -> bool)
    (tr : list (event T)) : nat :=
  length (filter q tr).

Definition is_input_read {T : Type} (e : event T) : bool :=
  match e with RdInput _ => true | _ => false end.

Definition is_filter_read {T : Type} (e : event T) : bool :=
  match e with RdFilter _ => true | _ => false end.

(** A 2 x 2 filter on a 3 x 3 image. *)
Definition even_config : config := mkConfig 3 3 2 2 2 2 1 1.


(** An input that differs from [ramp] outside the first three columns. *)
Definition ramp' : Z -> Z := fun k => if k mod 5 <? 3 then k + 1 else 0.

(** ** Thread coordinates as 32-bit values *)

(** The value of an [unsigned int] converted to [int] (two's complement). *)
Definition int_of_unsigned (z : Z) : Z :=
  let u := z mod 2 ^ 32 in
  if u <? 2 ^ 31 then u else u - 2 ^ 32.

(** Lines 19-20 as the hardware evaluates them: [blockIdx.y] is unsigned, so
    are the two products (each modulo [2^32], hence their product modulo
    [2^32]), and the result is converted to [int]. *)
Definition by_int (c : config) (t : thread) : Z :=
  int_of_unsigned (Z.of_nat (blockIdx_y t) * block_size_y c * tile_size_y c).
Definition bx_int (c : config) (t : thread) : Z :=
  int_of_unsigned (Z.of_nat (blockIdx_x t) * block_size_x c * tile_size_x c).

(** Lines 95-96 as the hardware evaluates them. *)
Definition naive_x_int (l : launch) (t : thread) : Z :=
  int_of_unsigned (Z.of_nat (blockIdx_x t) * Z.of_nat (blockDim_x l)
                   + Z.of_nat (threadIdx_x t)).
Definition naive_y_int (l : launch) (t : thread) : Z :=
  int_of_unsigned (Z.of_nat (blockIdx_y t) * Z.of_nat (blockDim_y l)
                   + Z.of_nat (threadIdx_y t)).

(** A launch of the tiled kernel whose coordinates are values of [int]: the
    tiles are not empty and the filter has no negative size, the rows and
    columns the grid spans, with the halo, one more stride of the staging
    loops and the threads of a block, end below [2^31], and the input,
    the output and the filter have fewer than [2^31] cells each. *)
Definition tiled_in_int (c : config) (l : launch) : Prop :=
  0 < tile_size_y c /\ 0 < tile_size_x c
  /\ 0 <= filter_height c /\ 0 <= filter_width c
  /\ Z.of_nat (gridDim_y l) * (block_size_y c * tile_size_y c)
     + border_height c + block_size_y c + Z.of_nat (blockDim_y l) < 2 ^ 31
  /\ Z.of_nat (gridDim_x l) * (block_size_x c * tile_size_x c)
     + border_width c + block_size_x c + Z.of_nat (blockDim_x l) < 2 ^ 31
  /\ input_height c * input_width c < 2 ^ 31
  /\ image_height c * image_width c < 2 ^ 31
  /\ filter_height c * filter_width c < 2 ^ 31.

(** A launch of the naive kernel whose coordinates are values of [int]:
    [gridDim * blockDim] is at most [2^31] in both directions, and the
    input, the output and the filter have fewer than [2^31] cells each. *)
Definition naive_in_int (c : config) (l : launch) : Prop :=
  Z.of_nat (gridDim_y l) * Z.of_nat (blockDim_y l) <= 2 ^ 31
  /\ Z.of_nat (gridDim_x l) * Z.of_nat (blockDim_x l) <= 2 ^ 31
  /\ input_height c * input_width c < 2 ^ 31
  /\ image_height c * image_width c < 2 ^ 31
  /\ filter_height c * filter_width c < 2 ^ 31.

(** The exact coordinates of the model are those the code computes. *)
Definition tiled_exact (c : config) (l : launch) : Prop :=
  forall t, In t (grid_threads l) ->
    by_int c t = by_ c t /\ bx_int c t = bx c t.

Definition naive_exact (l : launch) : Prop :=
  forall t, In t (grid_threads l) ->
    naive_y_int l t = naive_y l t /\ naive_x_int l t = naive_x l t.

(** An access of the store phase of thread [t]: a write of the output
    buffer at the element [(y,x)] of one of its accumulators, with
    [y < image_height] and [x < image_width]. *)
Definition own_store {T : Type} (c : config) (t : thread) (e : event T) : Prop :=
  match e with
  | WrOutput k _ =>
      exists yi xi,
        0 <= yi < tile_size_y c /\ 0 <= xi < tile_size_x c
        /\ 0 <= out_y c t yi < image_height c
        /\ 0 <= out_x c t xi < image_width c
        /\ k = out_y c t yi * image_width c + out_x c t xi
  | _ => False
  end.

(** Lines 75-83 for a thread whose block begins at [(by,bx)] and whose
    coordinates in the block are [(ty,tx)]: [store_cell] with the origin
    as a value. *)
Definition store_cell_at {T : Type} (checked : bool) (c : config)
    (by0 bx0 ty0 tx0 yi xi : Z) (s : state T) : state T :=
  if checked then
    let y := by0 + ty0 + yi * block_size_y c in
    let x := bx0 + tx0 + xi * block_size_x c in
    if (y <? image_height c) && (x <? image_width c)
    then store (y * image_width c + x) (sum s yi xi) s
    else s
  else
    store ((by0 + ty0 + yi * block_size_y c) * image_width c
           + bx0 + tx0 + xi * block_size_x c) (sum s yi xi) s.

(** The constants of the file with blocks of 3 x 16 threads and 1 x 4
    output elements per thread (4096 is not a multiple of 3: the checks are
    compiled in), and the first thread of block column [2^25], whose
    [blockIdx.x * block_size_x * tile_size_x] is [2^31]. *)
Definition wrap_config : config := file_config 3 16 1 4.
Definition wrap_thread : thread := mkThread 0 (Z.to_nat (2 ^ 25)) 0 0.

(** * Loops: eliminating the fuel *)

Section Loops.

Context {S : Type}.
Variable body : Z -> S -> option S.
Variables bound step : Z.
Hypothesis step_pos : 0 < step.

Lemma for_loop_indices : forall fuel i s,
  (Z.to_nat (bound - i) <= fuel)%nat ->
  for_loop fuel i bound step body s
  = foldM body (loop_indices fuel i bound step) s.
Proof.
  induction fuel as [|fuel IH]; intros i s Hf; simpl.
  - destruct (Z.ltb_spec i bound); [lia | reflexivity].
  - destruct (Z.ltb_spec i bound); [|reflexivity].
    simpl. destruct (body i s) as [s'|]; [|reflexivity].
    apply IH. lia.
Qed.

Lemma loop_indices_fuel : forall fuel1 fuel2 i,
  (Z.to_nat (bound - i) <= fuel1)%nat ->
  (Z.to_nat (bound - i) <= fuel2)%nat ->
  loop_indices fuel1 i bound step = loop_indices fuel2 i bound step.
Proof.
  induction fuel1 as [|fuel1 IH]; intros [|fuel2] i H1 H2; simpl;
    destruct (Z.ltb_spec i bound); try reflexivity; try lia.
  f_equal. apply IH; lia.
Qed.

Lemma for_loop_strided : forall fuel i s,
  (Z.to_nat (bound - i) <= fuel)%nat ->
  for_loop fuel i bound step body s = foldM body (strided i bound step) s.
Proof.
  intros fuel i s Hf. rewrite for_loop_indices by exact Hf.
  unfold strided. f_equal. apply loop_indices_fuel; lia.
Qed.

Lemma loop_indices_In : forall fuel i k,
  In k (loop_indices fuel i bound step) ->
  i <= k < bound /\ exists m, 0 <= m /\ k = i + m * step.
Proof.
  induction fuel as [|fuel IH]; intros i k; simpl.
  - destruct (i <? bound); intros [].
  - destruct (Z.ltb_spec i bound); [|intros []].
    intros [<-|Hin].
    + split; [lia|]. exists 0. lia.
    + apply IH in Hin. destruct Hin as [Hr [m [Hm ->]]].
      split; [nia|]. exists (m + 1). lia.
Qed.

Lemma loop_indices_complete : forall fuel i m,
  (Z.to_nat (bound - i) <= fuel)%nat -> 0 <= m -> i + m * step < bound ->
  In (i + m * step) (loop_indices fuel i bound step).
Proof.
  induction fuel as [|fuel IH]; intros i m Hf Hm Hlt; simpl.
  - nia.
  - destruct (Z.ltb_spec i bound); [|nia].
    destruct (Z.eq_dec m 0) as [->|Hne].
    + left. lia.
    + right. replace (i + m * step) with ((i + step) + (m - 1) * step) by lia.
      apply IH; lia.
Qed.

Lemma loop_indices_NoDup : forall fuel i,
  NoDup (loop_indices fuel i bound step).
Proof.
  induction fuel as [|fuel IH]; intros i; simpl.
  - destruct (i <? bound); constructor.
  - destruct (i <? bound); constructor; [|apply IH].
    intros Hin. apply loop_indices_In in Hin. lia.
Qed.

End Loops.

Lemma strided_In lo hi step k : 0 < step ->
  In k (strided lo hi step) ->
  lo <= k < hi /\ exists m, 0 <= m /\ k = lo + m * step.
Proof. intros Hs. apply loop_indices_In; exact Hs. Qed.

Lemma strided_complete lo hi step m : 0 < step ->
  0 <= m -> lo + m * step < hi -> In (lo + m * step) (strided lo hi step).
Proof. intros Hs Hm Hlt. apply loop_indices_complete; auto; lia. Qed.

Lemma strided_NoDup lo hi step : 0 < step -> NoDup (strided lo hi step).
Proof. intros Hs. apply loop_indices_NoDup; exact Hs. Qed.

Lemma range_In n k : In k (range n) <-> 0 <= k < n.
Proof.
  unfold range. split.
  - intros H. apply strided_In in H; lia.
  - intros H. replace k with (0 + k * 1) by lia.
    apply strided_complete; lia.
Qed.

Lemma range_NoDup n : NoDup (range n).
Proof. apply strided_NoDup. lia. Qed.

Lemma foldM_each {A S : Type} (body : A -> S -> option S) (f : A -> S -> S) :
  forall l s, (forall a s, In a l -> body a s = Some (f a s)) ->
  foldM body l s = Some (each f l s).
Proof.
  induction l as [|a l IH]; intros s H; simpl; [reflexivity|].
  rewrite H by (left; reflexivity). apply IH.
  intros; apply H; right; assumption.
Qed.

(** A loop whose body always succeeds runs its body on each index. *)
Lemma for_loop_each {S : Type} (body : Z -> S -> option S) (f : Z -> S -> S)
    (fuel : nat) (i bound step : Z) (s : S) :
  0 < step -> (Z.to_nat (bound - i) <= fuel)%nat ->
  (forall k s, In k (strided i bound step) -> body k s = Some (f k s)) ->
  for_loop fuel i bound step body s = Some (each f (strided i bound step) s).
Proof.
  intros Hs Hf Hb. rewrite for_loop_strided by assumption.
  apply foldM_each; assumption.
Qed.

Lemma for_range_each {S : Type} (body : Z -> S -> option S) (f : Z -> S -> S)
    (fuel : nat) (n : Z) (s : S) :
  (Z.to_nat n <= fuel)%nat ->
  (forall k s, In k (range n) -> body k s = Some (f k s)) ->
  for_loop fuel 0 n 1 body s = Some (each f (range n) s).
Proof.
  intros Hf Hb. apply for_loop_each; [lia | lia | exact Hb].
Qed.

(** * The threads of a launch and their coordinates *)

Lemma block_threads_In l b t :
  In t (block_threads l b) <->
  blockIdx_y t = fst b /\ blockIdx_x t = snd b
  /\ (threadIdx_y t < blockDim_y l)%nat /\ (threadIdx_x t < blockDim_x l)%nat.
Proof.
  unfold block_threads. rewrite in_map_iff. split.
  - intros [[y x] [<- Hin]]. apply in_prod_iff in Hin.
    rewrite !in_seq in Hin. simpl. lia.
  - intros (Hy & Hx & Hty & Htx). exists (threadIdx_y t, threadIdx_x t).
    split.
    + destruct t; simpl in *; subst; reflexivity.
    + apply in_prod_iff. rewrite !in_seq. lia.
Qed.

Lemma grid_blocks_In l b :
  In b (grid_blocks l) <->
  (fst b < gridDim_y l)%nat /\ (snd b < gridDim_x l)%nat.
Proof.
  unfold grid_blocks. destruct b as [y x]. rewrite in_prod_iff, !in_seq.
  simpl. lia.
Qed.

Lemma grid_threads_In l t :
  In t (grid_threads l) <->
  (blockIdx_y t < gridDim_y l)%nat /\ (blockIdx_x t < gridDim_x l)%nat
  /\ (threadIdx_y t < blockDim_y l)%nat /\ (threadIdx_x t < blockDim_x l)%nat.
Proof.
  unfold grid_threads. rewrite in_flat_map. split.
  - intros [b [Hb Ht]]. apply grid_blocks_In in Hb.
    apply block_threads_In in Ht. lia.
  - intros (Hy & Hx & Hty & Htx). exists (blockIdx_y t, blockIdx_x t). split.
    + apply grid_blocks_In. simpl. lia.
    + apply block_threads_In. simpl. lia.
Qed.

Lemma border_enough f : 0 < f -> f - 1 <= (f ÷ 2) * 2 <= f.
Proof.
  intros Hf. rewrite Z.quot_div_nonneg by lia.
  pose proof (Z.div_mod f 2 ltac:(lia)).
  pose proof (Z.mod_pos_bound f 2 ltac:(lia)). lia.
Qed.

Lemma border_nonneg f : 0 <= f -> 0 <= (f ÷ 2) * 2.
Proof.
  intros Hf. rewrite Z.quot_div_nonneg by lia.
  pose proof (Z.div_pos f 2 Hf ltac:(lia)). lia.
Qed.

Lemma int_of_unsigned_exact z : 0 <= z < 2 ^ 31 -> int_of_unsigned z = z.
Proof.
  intros Hz. unfold int_of_unsigned.
  assert (E : z mod 2 ^ 32 = z) by (apply Z.mod_small; lia).
  rewrite E. destruct (Z.ltb_spec z (2 ^ 31)); [reflexivity | lia].
Qed.

(** On a launch of [tiled_in_int] lines 19-20 do not wrap. *)
Lemma tiled_coordinates_exact c l :
  0 < block_size_y c -> 0 < block_size_x c ->
  tiled_in_int c l -> tiled_exact c l.
Proof.
  intros HBy HBx (HTy & HTx & Hfh & Hfw & Hgy & Hgx & _) t Ht.
  apply grid_threads_In in Ht.
  pose proof (border_nonneg (filter_height c) Hfh) as Hbh.
  pose proof (border_nonneg (filter_width c) Hfw) as Hbw.
  unfold border_height, border_width in *.
  assert (0 < block_size_y c * tile_size_y c) by (apply Z.mul_pos_pos; lia).
  assert (0 < block_size_x c * tile_size_x c) by (apply Z.mul_pos_pos; lia).
  assert ((Z.of_nat (blockIdx_y t) + 1) * (block_size_y c * tile_size_y c)
          <= Z.of_nat (gridDim_y l) * (block_size_y c * tile_size_y c))
    by (apply Z.mul_le_mono_nonneg_r; lia).
  assert ((Z.of_nat (blockIdx_x t) + 1) * (block_size_x c * tile_size_x c)
          <= Z.of_nat (gridDim_x l) * (block_size_x c * tile_size_x c))
    by (apply Z.mul_le_mono_nonneg_r; lia).
  assert (0 <= Z.of_nat (blockIdx_y t) * (block_size_y c * tile_size_y c))
    by (apply Z.mul_nonneg_nonneg; lia).
  assert (0 <= Z.of_nat (blockIdx_x t) * (block_size_x c * tile_size_x c))
    by (apply Z.mul_nonneg_nonneg; lia).
  unfold by_int, bx_int, by_, bx.
  split; apply int_of_unsigned_exact; rewrite <- Z.mul_assoc; lia.
Qed.

(** On a launch of [tiled_in_int] the coordinates of the store loops
    (lines 76-77) are values of [int], whether the element is stored or
    not. *)
Lemma tiled_store_in_int c l t yi xi :
  0 < block_size_y c -> 0 < block_size_x c ->
  tiled_in_int c l -> In t (grid_threads l) ->
  0 <= yi < tile_size_y c -> 0 <= xi < tile_size_x c ->
  0 <= out_y c t yi < 2 ^ 31 /\ 0 <= out_x c t xi < 2 ^ 31.
Proof.
  intros HBy HBx (HTy & HTx & Hfh & Hfw & Hgy & Hgx & _) Ht Hyi Hxi.
  apply grid_threads_In in Ht.
  pose proof (border_nonneg (filter_height c) Hfh) as Hbh.
  pose proof (border_nonneg (filter_width c) Hfw) as Hbw.
  unfold border_height, border_width in *.
  assert ((Z.of_nat (blockIdx_y t) + 1) * (block_size_y c * tile_size_y c)
          <= Z.of_nat (gridDim_y l) * (block_size_y c * tile_size_y c))
    by (apply Z.mul_le_mono_nonneg_r; [apply Z.mul_nonneg_nonneg|]; lia).
  assert ((Z.of_nat (blockIdx_x t) + 1) * (block_size_x c * tile_size_x c)
          <= Z.of_nat (gridDim_x l) * (block_size_x c * tile_size_x c))
    by (apply Z.mul_le_mono_nonneg_r; [apply Z.mul_nonneg_nonneg|]; lia).
  assert (0 <= Z.of_nat (blockIdx_y t) * (block_size_y c * tile_size_y c))
    by (apply Z.mul_nonneg_nonneg; [|apply Z.mul_nonneg_nonneg]; lia).
  assert (0 <= Z.of_nat (blockIdx_x t) * (block_size_x c * tile_size_x c))
    by (apply Z.mul_nonneg_nonneg; [|apply Z.mul_nonneg_nonneg]; lia).
  assert (0 <= yi * block_size_y c) by (apply Z.mul_nonneg_nonneg; lia).
  assert (0 <= xi * block_size_x c) by (apply Z.mul_nonneg_nonneg; lia).
  assert ((yi + 1) * block_size_y c <= tile_size_y c * block_size_y c)
    by (apply Z.mul_le_mono_nonneg_r; lia).
  assert ((xi + 1) * block_size_x c <= tile_size_x c * block_size_x c)
    by (apply Z.mul_le_mono_nonneg_r; lia).
  unfold out_y, out_x, by_, bx, ty, tx.
  rewrite <- !Z.mul_assoc. lia.
Qed.

(** On a launch of [naive_in_int] lines 95-96 do not wrap. *)
Lemma naive_coordinates_exact c l : naive_in_int c l -> naive_exact l.
Proof.
  intros (Hgy & Hgx & _) t Ht. apply grid_threads_In in Ht.
  assert ((Z.of_nat (blockIdx_y t) + 1) * Z.of_nat (blockDim_y l)
          <= Z.of_nat (gridDim_y l) * Z.of_nat (blockDim_y l))
    by (apply Z.mul_le_mono_nonneg_r; lia).
  assert ((Z.of_nat (blockIdx_x t) + 1) * Z.of_nat (blockDim_x l)
          <= Z.of_nat (gridDim_x l) * Z.of_nat (blockDim_x l))
    by (apply Z.mul_le_mono_nonneg_r; lia).
  assert (0 <= Z.of_nat (blockIdx_y t) * Z.of_nat (blockDim_y l))
    by (apply Z.mul_nonneg_nonneg; lia).
  assert (0 <= Z.of_nat (blockIdx_x t) * Z.of_nat (blockDim_x l))
    by (apply Z.mul_nonneg_nonneg; lia).
  unfold naive_y_int, naive_x_int, naive_y, naive_x.
  rewrite !Nat2Z.inj_add, !Nat2Z.inj_mul.
  split; apply int_of_unsigned_exact; lia.
Qed.

(** * The kernels terminate, and compute their unrolled forms *)

Section Unrolling.

Variable T : Type.
Variable f_zero : T.
Variables f_add f_mul : T -> T -> T.
Variable c : config.
Variable fuel : nat.
Hypothesis enough : (fuel_needed c <= fuel)%nat.

Ltac fuel_ok :=
  pose proof enough; unfold fuel_needed in *; unfold ty, tx in *; lia.

Lemma load_phase_unrolled checked input t (s : state T) :
  0 < block_size_y c -> 0 < block_size_x c ->
  load_phase checked c input fuel t s = Some (load_all checked c input t s).
Proof.
  intros Hy Hx. unfold load_phase, load_all.
  apply for_loop_each; [assumption | fuel_ok |].
  intros i s' _. apply for_loop_each; [assumption | fuel_ok |].
  reflexivity.
Qed.

Lemma init_phase_unrolled (s : state T) :
  init_phase f_zero c fuel s = Some (init_all f_zero c s).
Proof.
  unfold init_phase, init_all.
  apply for_range_each; [fuel_ok|].
  intros yi s' _. apply for_range_each; [fuel_ok|]. reflexivity.
Qed.

Lemma accumulate_phase_unrolled d_filter t (s : state T) :
  accumulate_phase f_add f_mul c d_filter fuel t s
  = Some (accumulate_all f_add f_mul c d_filter t s).
Proof.
  unfold accumulate_phase, accumulate_all.
  apply for_range_each; [fuel_ok|].
  intros i s1 _. apply for_range_each; [fuel_ok|].
  intros j s2 _. unfold accumulate_tile. apply for_range_each; [fuel_ok|].
  intros yi s3 _. apply for_range_each; [fuel_ok|]. reflexivity.
Qed.

Lemma store_phase_unrolled checked t (s : state T) :
  store_phase checked c fuel t s = Some (store_all checked c t s).
Proof.
  unfold store_phase, store_all.
  apply for_range_each; [fuel_ok|].
  intros yi s' _. apply for_range_each; [fuel_ok|]. reflexivity.
Qed.

Lemma compute_phase_unrolled checked d_filter t (s : state T) :
  compute_phase f_zero f_add f_mul checked c d_filter fuel t s
  = Some (compute_all f_zero f_add f_mul checked c d_filter t s).
Proof.
  unfold compute_phase, compute_all.
  rewrite init_phase_unrolled, accumulate_phase_unrolled.
  apply store_phase_unrolled.
Qed.

Lemma convolution_block_unrolled checked input d_filter filter g sc b
    (s : state T) :
  0 < block_size_y c -> 0 < block_size_x c ->
  convolution_block f_zero f_add f_mul checked c input d_filter filter g sc
                    fuel b s
  = Some (block_all f_zero f_add f_mul checked c input d_filter g sc b s).
Proof.
  intros Hy Hx. unfold convolution_block, block_all.
  rewrite (foldM_each _ (load_all checked c input)).
  - apply foldM_each. intros t s' _. apply compute_phase_unrolled.
  - intros t s' _. apply load_phase_unrolled; assumption.
Qed.

Lemma convolution_kernel_of_unrolled checked input d_filter filter g sc
    (s : state T) :
  0 < block_size_y c -> 0 < block_size_x c ->
  convolution_kernel_of f_zero f_add f_mul checked c input d_filter filter g sc
                        fuel s
  = Some (kernel_all f_zero f_add f_mul checked c input d_filter g sc s).
Proof.
  intros Hy Hx. unfold convolution_kernel_of, kernel_all.
  apply foldM_each. intros b s' _.
  apply convolution_block_unrolled; assumption.
Qed.

Lemma naive_thread_unrolled input filter l t (s : state T) :
  naive_thread f_zero f_add f_mul c input filter l fuel t s
  = Some (naive_thread_all f_zero f_add f_mul c input filter l t s).
Proof.
  unfold naive_thread, naive_thread_all.
  destruct ((naive_y l t <? image_height c) && (naive_x l t <? image_width c));
    [|reflexivity].
  rewrite (for_range_each _ (fun j =>
             each (fun i => naive_cell f_add f_mul c input filter l t j i)
                  (range (filter_width c)))).
  - reflexivity.
  - fuel_ok.
  - intros j s' _. apply for_range_each; [fuel_ok|]. reflexivity.
Qed.

Lemma convolution_naive_unrolled input filter l g order (s : state T) :
  convolution_naive f_zero f_add f_mul c input filter l g order fuel s
  = Some (naive_all f_zero f_add f_mul c input filter l g order s).
Proof.
  unfold convolution_naive, naive_all.
  apply foldM_each. intros t s' _. apply naive_thread_unrolled.
Qed.

End Unrolling.

(** * Reasoning about [each] *)

Section Each.

Context {A S : Type}.
Variable f : A -> S -> S.

Lemma each_cons a l s : each f (a :: l) s = each f l (f a s).
Proof. reflexivity. Qed.

Lemma each_app l1 l2 s : each f (l1 ++ l2) s = each f l2 (each f l1 s).
Proof. unfold each. apply fold_left_app. Qed.

(** An invariant of every step is an invariant of the loop. *)
Lemma each_inv (P : S -> Prop) l :
  (forall a s, In a l -> P s -> P (f a s)) ->
  forall s, P s -> P (each f l s).
Proof.
  induction l as [|a l IH]; intros Hstep s Hs; [exact Hs|].
  rewrite each_cons. apply IH.
  - intros; apply Hstep; [right|]; assumption.
  - apply Hstep; [left; reflexivity | exact Hs].
Qed.

(** A preorder that relates the two ends of every step relates the two ends
    of the loop. *)
Lemma each_rel (R : S -> S -> Prop) l :
  (forall s, R s s) ->
  (forall s1 s2 s3, R s1 s2 -> R s2 s3 -> R s1 s3) ->
  (forall a s, In a l -> R s (f a s)) ->
  forall s, R s (each f l s).
Proof.
  intros Hrefl Htrans Hstep s.
  apply (each_inv (R s)); [|apply Hrefl].
  intros a s' Hin Hs'. eapply Htrans; [exact Hs' | apply Hstep; exact Hin].
Qed.

(** What one step establishes and every step preserves holds at the end;
    [J] is an invariant the steps may rely on. *)
Lemma each_establish (J Q : S -> Prop) l a0 :
  In a0 l ->
  (forall a s, In a l -> J s -> J (f a s)) ->
  (forall a s, In a l -> J s -> Q s -> Q (f a s)) ->
  (forall s, J s -> Q (f a0 s)) ->
  forall s, J s -> Q (each f l s).
Proof.
  induction l as [|a l IH]; intros Hin HJ HQ H0 s Hs; [destruct Hin|].
  rewrite each_cons. destruct Hin as [->|Hin].
  - assert (H : J (f a0 s) /\ Q (f a0 s)).
    { split; [apply HJ; [left; reflexivity | exact Hs] | apply H0; exact Hs]. }
    revert H. generalize (f a0 s). intros s' Hs'.
    apply (each_inv (fun s => J s /\ Q s)); [|exact Hs'].
    intros a s'' Ha [HJ' HQ']. split.
    + apply HJ; [right|]; assumption.
    + apply HQ; [right| |]; assumption.
  - apply IH; auto.
    + intros; apply HJ; [right|]; assumption.
    + intros; apply HQ; [right| |]; assumption.
    + apply HJ; [left; reflexivity | exact Hs].
Qed.

(** A projection that no step changes is unchanged. *)
Lemma each_keep {B : Type} (p : S -> B) l :
  (forall a s, In a l -> p (f a s) = p s) ->
  forall s, p (each f l s) = p s.
Proof.
  intros Hstep s. apply (each_inv (fun s' => p s' = p s)); [|reflexivity].
  intros a s' Hin Hs'. rewrite Hstep by exact Hin. exact Hs'.
Qed.

(** A projection that exactly one step changes is changed once. *)
Lemma each_once {B : Type} (p : S -> B) (h : B -> B) l a0 :
  NoDup l -> In a0 l ->
  (forall a s, In a l -> a <> a0 -> p (f a s) = p s) ->
  (forall s, p (f a0 s) = h (p s)) ->
  forall s, p (each f l s) = h (p s).
Proof.
  induction l as [|a l IH]; intros Hnd Hin Hother Hthis s; [destruct Hin|].
  rewrite each_cons. inversion Hnd as [|a' l' Hnotin Hnd']; subst.
  destruct Hin as [->|Hin].
  - rewrite each_keep; [apply Hthis|].
    intros a s' Ha. apply Hother; [right; exact Ha|].
    intros ->. contradiction.
  - rewrite IH; auto.
    + f_equal. apply Hother; [left; reflexivity|].
      intros ->. contradiction.
    + intros; apply Hother; [right|]; assumption.
Qed.

Lemma each_ext (g : A -> S -> S) l :
  (forall a s, In a l -> f a s = g a s) ->
  forall s, each f l s = each g l s.
Proof.
  induction l as [|a l IH]; intros Hfg s; [reflexivity|].
  rewrite !each_cons, Hfg by (left; reflexivity).
  apply IH. intros; apply Hfg; right; assumption.
Qed.

End Each.

(** * The access log only grows *)

Section Grows.

Variable T : Type.
Implicit Types (s : state T) (P : event T -> Prop).

Lemma grows_refl P s : grows P s s.
Proof. exists []. split; [reflexivity | constructor]. Qed.

Lemma grows_trans P s1 s2 s3 : grows P s1 s2 -> grows P s2 s3 -> grows P s1 s3.
Proof.
  intros [n1 [E1 F1]] [n2 [E2 F2]]. exists (n2 ++ n1). split.
  - rewrite E2, E1. apply app_assoc.
  - apply Forall_app. split; assumption.
Qed.

Lemma grows_weaken (P Q : event T -> Prop) s s' :
  (forall e, P e -> Q e) -> grows P s s' -> grows Q s s'.
Proof.
  intros HPQ [n [E F]]. exists n. split; [exact E|].
  eapply Forall_impl; [exact HPQ | exact F].
Qed.

Lemma grows_same P s s' : trace s' = trace s -> grows P s s'.
Proof. intros E. exists []. split; [exact E | constructor]. Qed.

Lemma grows_two P s s' e1 e2 :
  trace s' = e1 :: e2 :: trace s -> P e1 -> P e2 -> grows P s s'.
Proof.
  intros E H1 H2. exists [e1; e2]. split; [exact E|].
  repeat constructor; assumption.
Qed.

Lemma grows_one P s s' e :
  trace s' = e :: trace s -> P e -> grows P s s'.
Proof.
  intros E H1. exists [e]. split; [exact E|].
  repeat constructor; assumption.
Qed.

Lemma each_grows {A : Type} (f : A -> state T -> state T) P l :
  (forall a s, In a l -> grows P s (f a s)) ->
  forall s, grows P s (each f l s).
Proof.
  intros Hstep. apply each_rel.
  - apply grows_refl.
  - apply grows_trans.
  - exact Hstep.
Qed.

End Grows.

Arguments grows_refl {T}.
Arguments grows_trans {T}.
Arguments grows_weaken {T}.
Arguments grows_same {T}.
Arguments grows_one {T}.
Arguments grows_two {T}.
Arguments each_grows {T A}.

(** * What each phase of the tiled kernel touches *)

Section Frames.

Variable T : Type.
Variable f_zero : T.
Variables f_add f_mul : T -> T -> T.
Variable checked : bool.
Variable c : config.
Variable input d_filter : Z -> T.
Implicit Types (s : state T) (t : thread).

Ltac cases :=
  repeat match goal with
         | |- context [if ?b then _ else _] => destruct b
         end.

Ltac kept :=
  unfold load_all, init_all, accumulate_all, accumulate_tile, store_all;
  repeat (apply each_keep; intros);
  unfold load_cell, accumulate_cell, store_cell; cases; reflexivity.

Lemma load_all_output t s : output (load_all checked c input t s) = output s.
Proof. kept. Qed.

Lemma load_all_sum t s : sum (load_all checked c input t s) = sum s.
Proof. kept. Qed.

Lemma load_all_acc t s : acc (load_all checked c input t s) = acc s.
Proof. kept. Qed.

Lemma load_all_grows t s :
  grows staging_access s (load_all checked c input t s).
Proof.
  unfold load_all. apply each_grows; intros i s1 _.
  apply each_grows; intros j s2 _.
  unfold load_cell; cases; try apply grows_refl;
    (eapply grows_two; [reflexivity | exact I | exact I]).
Qed.

Lemma init_all_output s : output (init_all f_zero c s) = output s.
Proof. kept. Qed.

Lemma init_all_sh_input s : sh_input (init_all f_zero c s) = sh_input s.
Proof. kept. Qed.

Lemma init_all_trace s : trace (init_all f_zero c s) = trace s.
Proof. kept. Qed.

Lemma accumulate_all_output t s :
  output (accumulate_all f_add f_mul c d_filter t s) = output s.
Proof. kept. Qed.

Lemma accumulate_all_sh_input t s :
  sh_input (accumulate_all f_add f_mul c d_filter t s) = sh_input s.
Proof. kept. Qed.

Lemma accumulate_tile_sh_input t i j s :
  sh_input (accumulate_tile f_add f_mul c d_filter t i j s) = sh_input s.
Proof. kept. Qed.

Lemma accumulate_all_grows t s :
  grows accumulation_access s (accumulate_all f_add f_mul c d_filter t s).
Proof.
  unfold accumulate_all, accumulate_tile.
  do 4 (apply each_grows; intros ? ? _).
  eapply grows_two; [reflexivity | exact I | exact I].
Qed.

Lemma store_all_sh_input t s : sh_input (store_all checked c t s) = sh_input s.
Proof. kept. Qed.

Lemma store_all_sum t s : sum (store_all checked c t s) = sum s.
Proof. kept. Qed.

Lemma store_all_grows t s : grows store_access s (store_all checked c t s).
Proof.
  unfold store_all. do 2 (apply each_grows; intros ? ? _).
  unfold store_cell; cases; try apply grows_refl;
    (eapply grows_one; [reflexivity | exact I]).
Qed.

Lemma compute_all_sh_input t s :
  sh_input (compute_all f_zero f_add f_mul checked c d_filter t s) = sh_input s.
Proof.
  unfold compute_all.
  rewrite store_all_sh_input, accumulate_all_sh_input, init_all_sh_input.
  reflexivity.
Qed.

End Frames.

(** C7: the staging phase writes the scratch tile only (its accesses are
    reads of the input buffer and writes of [sh_input]; the output buffer and
    the accumulators are as before); the accumulation phase writes neither
    the output buffer nor the scratch tile (its accesses are reads of
    [sh_input] and of [d_filter]); clearing the accumulators touches no
    memory at all; the store phase is the only one whose accesses are writes
    of the output buffer. *)
Theorem C7_phase_effects :
  forall (T : Type) (f_zero : T) (f_add f_mul : T -> T -> T)
         (checked : bool) (c : config) (input d_filter : Z -> T)
         (fuel : nat) (t : thread) (s : state T),
    0 < block_size_y c -> 0 < block_size_x c ->
    (fuel_needed c <= fuel)%nat ->
    (exists s1, load_phase checked c input fuel t s = Some s1
       /\ output s1 = output s /\ sum s1 = sum s
       /\ grows staging_access s s1)
    /\ (exists s2, init_phase f_zero c fuel s = Some s2
       /\ output s2 = output s /\ sh_input s2 = sh_input s
       /\ trace s2 = trace s)
    /\ (exists s3, accumulate_phase f_add f_mul c d_filter fuel t s = Some s3
       /\ output s3 = output s /\ sh_input s3 = sh_input s
       /\ grows accumulation_access s s3)
    /\ (exists s4, store_phase checked c fuel t s = Some s4
       /\ sh_input s4 = sh_input s /\ sum s4 = sum s
       /\ grows store_access s s4).
Proof.
  intros T f_zero f_add f_mul checked c input d_filter fuel t s Hy Hx Hf.
  repeat split.
  - exists (load_all checked c input t s). repeat split.
    + apply load_phase_unrolled; assumption.
    + apply load_all_output.
    + apply load_all_sum.
    + apply load_all_grows.
  - exists (init_all f_zero c s). repeat split.
    + apply init_phase_unrolled; assumption.
    + apply init_all_output.
    + apply init_all_sh_input.
    + apply init_all_trace.
  - exists (accumulate_all f_add f_mul c d_filter t s). repeat split.
    + apply accumulate_phase_unrolled; assumption.
    + apply accumulate_all_output.
    + apply accumulate_all_sh_input.
    + apply accumulate_all_grows.
  - exists (store_all checked c t s). repeat split.
    + apply store_phase_unrolled; assumption.
    + apply store_all_sh_input.
    + apply store_all_sum.
    + apply store_all_grows.
Qed.

(** * The naive kernel *)

Lemma each_fold {A S B : Type} (f : A -> S -> S) (p : S -> B) (h : B -> A -> B) l :
  (forall a s, In a l -> p (f a s) = h (p s) a) ->
  forall s, p (each f l s) = fold_left h l (p s).
Proof.
  induction l as [|a l IH]; intros Hstep s; [reflexivity|].
  rewrite each_cons, IH by (intros; apply Hstep; right; assumption).
  simpl. f_equal. apply Hstep. left; reflexivity.
Qed.

Lemma fold_left_ext_in {A B : Type} (f g : B -> A -> B) l :
  (forall b a, In a l -> f b a = g b a) ->
  forall b, fold_left f l b = fold_left g l b.
Proof.
  induction l as [|a l IH]; intros Hfg b; [reflexivity|].
  simpl. rewrite Hfg by (left; reflexivity).
  apply IH. intros; apply Hfg; right; assumption.
Qed.

(** The halo: a filter of [f] rows needs [f - 1] more rows than the image
    has, and [(f / 2) * 2] are provided. *)
(** An element of the halo-extended input of an output element is inside
    the input buffer. *)
Lemma halo_index_in_input c y x j i :
  0 <= y < image_height c -> 0 <= x < image_width c ->
  0 <= j < filter_height c -> 0 <= i < filter_width c ->
  0 <= y + j < input_height c /\ 0 <= x + i < input_width c
  /\ 0 <= (y + j) * input_width c + (x + i) < input_height c * input_width c.
Proof.
  intros Hy Hx Hj Hi. unfold input_height, input_width, border_height, border_width.
  pose proof (border_enough (filter_height c) ltac:(lia)).
  pose proof (border_enough (filter_width c) ltac:(lia)).
  split; [lia|]. split; [lia|]. nia.
Qed.

Section NaiveProofs.

Variable T : Type.
Variable f_zero : T.
Variables f_add f_mul : T -> T -> T.
Variable c : config.
Variable input filter : Z -> T.
Variable l : launch.
Implicit Types (s : state T) (t : thread).

Lemma naive_y_nonneg t : 0 <= naive_y l t.
Proof. unfold naive_y. lia. Qed.

Lemma naive_x_nonneg t : 0 <= naive_x l t.
Proof. unfold naive_x. lia. Qed.

Lemma naive_sum_output t s :
  output (naive_sum f_add f_mul c input filter l t s) = output s.
Proof. unfold naive_sum. repeat (apply each_keep; intros). reflexivity. Qed.

Lemma naive_sum_acc t s :
  acc (naive_sum f_add f_mul c input filter l t (set_acc f_zero s))
  = weighted_sum f_zero f_add f_mul c input filter (naive_y l t) (naive_x l t).
Proof.
  unfold naive_sum, weighted_sum.
  rewrite (each_fold _ (@acc T) (fun a j =>
    fold_left (fun a i =>
      f_add a (f_mul (input ((naive_y l t + j) * input_width c + (naive_x l t + i)))
                     (filter (j * filter_width c + i))))
      (range (filter_width c)) a)).
  - reflexivity.
  - intros j s1 _. apply each_fold. intros i s2 _. reflexivity.
Qed.

Lemma naive_sum_grows t s :
  naive_y l t < image_height c -> naive_x l t < image_width c ->
  grows (naive_access c) s (naive_sum f_add f_mul c input filter l t s).
Proof.
  intros Hy Hx. unfold naive_sum.
  apply each_grows; intros j s1 Hj. apply each_grows; intros i s2 Hi.
  apply range_In in Hj, Hi.
  eapply grows_two; [reflexivity | exact I |].
  pose proof (naive_y_nonneg t). pose proof (naive_x_nonneg t).
  apply halo_index_in_input; lia.
Qed.

Lemma no_writes_of (new : list (event T)) :
  Forall (naive_access c) new -> writes_of new = [].
Proof.
  induction 1 as [|e new He _ IH]; [reflexivity|].
  simpl. rewrite IH. destruct e; simpl in *; try reflexivity; contradiction.
Qed.

Lemma naive_thread_all_grows t s :
  grows (reads_in_input c) s
        (naive_thread_all f_zero f_add f_mul c input filter l t s).
Proof.
  unfold naive_thread_all.
  destruct (Z.ltb_spec (naive_y l t) (image_height c));
    destruct (Z.ltb_spec (naive_x l t) (image_width c)); simpl;
    try (apply grows_same; reflexivity).
  eapply grows_trans.
  - eapply grows_weaken; [|apply (naive_sum_grows t (set_acc f_zero s)); assumption].
    intros [] He; simpl in *; auto.
  - eapply grows_one; [reflexivity | exact I].
Qed.

Lemma naive_thread_all_output t s :
  output (naive_thread_all f_zero f_add f_mul c input filter l t s)
  = apply_writes (naive_writes f_zero f_add f_mul c input filter l t) (output s).
Proof.
  unfold naive_thread_all, naive_writes.
  destruct ((naive_y l t <? image_height c) && (naive_x l t <? image_width c));
    [|reflexivity].
  simpl. rewrite naive_sum_acc, naive_sum_output. reflexivity.
Qed.

End NaiveProofs.

(** C2: in a launch of the naive kernel whose coordinates are values of
    [int] ([naive_in_int]), the [(y,x)] of a thread of the grid are the
    values lines 95-96 compute, and the thread is active exactly when
    [y < image_height] and [x < image_width].  An active thread ends with
    its scalar equal to the weighted sum over the filter footprint and its
    only write to the output buffer is that sum at [y * image_width + x];
    an inactive thread makes no access at all and leaves the output buffer
    as it was. *)
Theorem C2_naive_thread :
  forall (T : Type) (f_zero : T) (f_add f_mul : T -> T -> T)
         (c : config) (input filter : Z -> T) (l : launch)
         (fuel : nat) (t : thread) (s : state T),
    naive_in_int c l ->
    In t (grid_threads l) ->
    (fuel_needed c <= fuel)%nat ->
    (naive_y_int l t = naive_y l t /\ naive_x_int l t = naive_x l t)
    /\ exists s',
      naive_thread f_zero f_add f_mul c input filter l fuel t s = Some s'
      /\ (naive_y l t < image_height c /\ naive_x l t < image_width c ->
          acc s' = weighted_sum f_zero f_add f_mul c input filter
                                (naive_y l t) (naive_x l t)
          /\ output s'
             = upd1 (output s) (naive_y l t * image_width c + naive_x l t) (acc s')
          /\ exists new, trace s' = new ++ trace s
               /\ writes_of new
                  = [(naive_y l t * image_width c + naive_x l t, acc s')])
      /\ (~ (naive_y l t < image_height c /\ naive_x l t < image_width c) ->
          output s' = output s /\ trace s' = trace s).
Proof.
  intros T f_zero f_add f_mul c input filter l fuel t s Hint Ht Hf.
  split; [exact (naive_coordinates_exact c l Hint t Ht)|].
  exists (naive_thread_all f_zero f_add f_mul c input filter l t s).
  split; [apply naive_thread_unrolled; exact Hf|].
  unfold naive_thread_all.
  destruct (Z.ltb_spec (naive_y l t) (image_height c)) as [Hy|Hy];
    destruct (Z.ltb_spec (naive_x l t) (image_width c)) as [Hx|Hx]; simpl;
    (split; [intros [Hy' Hx']; try lia | intros Hn; try (split; reflexivity)]).
  - rewrite naive_sum_acc, naive_sum_output. repeat split.
    destruct (naive_sum_grows T f_add f_mul c input filter l t
                (set_acc f_zero s) Hy Hx) as [new [E F]].
    exists (WrOutput (naive_y l t * image_width c + naive_x l t)
                     (weighted_sum f_zero f_add f_mul c input filter
                                   (naive_y l t) (naive_x l t)) :: new).
    split.
    + simpl. rewrite E. reflexivity.
    + simpl. rewrite (no_writes_of T c new F). reflexivity.
  - exfalso. apply Hn. split; assumption.
Qed.

(** C5: with [input_height = image_height + (filter_height / 2) * 2] and
    [input_width = image_width + (filter_width / 2) * 2], in a launch of
    the naive kernel whose coordinates are values of [int]
    ([naive_in_int]: the exact coordinates are those of lines 95-96),
    every index at which threads of the grid, whichever of them run and in
    whatever order, read the input buffer lies in
    [0, input_height * input_width). *)
Theorem C5_halo_sufficient :
  forall (T : Type) (f_zero : T) (f_add f_mul : T -> T -> T)
         (c : config) (input filter : Z -> T) (l : launch) (g : garbage T)
         (order : list thread) (fuel : nat) (s : state T),
    naive_in_int c l ->
    incl order (grid_threads l) ->
    (fuel_needed c <= fuel)%nat ->
    naive_exact l
    /\ exists s',
      convolution_naive f_zero f_add f_mul c input filter l g order fuel s
      = Some s'
      /\ grows (reads_in_input c) s s'.
Proof.
  intros T f_zero f_add f_mul c input filter l g order fuel s Hint Hord Hf.
  split; [exact (naive_coordinates_exact c l Hint)|].
  exists (naive_all f_zero f_add f_mul c input filter l g order s).
  split; [apply convolution_naive_unrolled; exact Hf|].
  unfold naive_all. apply each_grows. intros t s1 _.
  exact (naive_thread_all_grows T f_zero f_add f_mul c input filter l t
           (enter_thread g t s1)).
Qed.

(** * The bounds-checked store phase writes inside the image *)

Section StoreSafety.

Variable T : Type.
Variable f_zero : T.
Variables f_add f_mul : T -> T -> T.
Variable c : config.
Variable input d_filter : Z -> T.
Hypothesis block_y_pos : 0 < block_size_y c.
Hypothesis block_x_pos : 0 < block_size_x c.
Implicit Types (s : state T) (t : thread).

Lemma image_only_refl s : image_only c s s.
Proof. split; [apply grows_refl | reflexivity]. Qed.

Lemma image_only_trans s1 s2 s3 :
  image_only c s1 s2 -> image_only c s2 s3 -> image_only c s1 s3.
Proof.
  intros [G1 O1] [G2 O2]. split.
  - eapply grows_trans; eassumption.
  - intros k Hk. rewrite O2, O1 by exact Hk. reflexivity.
Qed.

Lemma each_image_only {A : Type} (f : A -> state T -> state T) l :
  (forall a s, In a l -> image_only c s (f a s)) ->
  forall s, image_only c s (each f l s).
Proof.
  intros Hstep. apply (each_rel f (image_only c)).
  - apply image_only_refl.
  - apply image_only_trans.
  - exact Hstep.
Qed.

(** A step that leaves the output buffer alone. *)
Lemma image_only_quiet (P : event T -> Prop) s s' :
  (forall e, P e -> no_write e) ->
  output s' = output s -> grows P s s' -> image_only c s s'.
Proof.
  intros HP Ho Hg. split.
  - eapply grows_weaken; [|exact Hg].
    intros e He. apply HP in He. destruct e; simpl in *; auto; contradiction.
  - intros k _. rewrite Ho. reflexivity.
Qed.

Lemma out_y_nonneg t yi : 0 <= yi < tile_size_y c -> 0 <= out_y c t yi.
Proof.
  unfold out_y, by_, ty. intros H.
  assert (0 <= Z.of_nat (blockIdx_y t) * block_size_y c * tile_size_y c)
    by (repeat apply Z.mul_nonneg_nonneg; lia).
  assert (0 <= yi * block_size_y c) by (apply Z.mul_nonneg_nonneg; lia).
  lia.
Qed.

Lemma out_x_nonneg t xi : 0 <= xi < tile_size_x c -> 0 <= out_x c t xi.
Proof.
  unfold out_x, bx, tx. intros H.
  assert (0 <= Z.of_nat (blockIdx_x t) * block_size_x c * tile_size_x c)
    by (repeat apply Z.mul_nonneg_nonneg; lia).
  assert (0 <= xi * block_size_x c) by (apply Z.mul_nonneg_nonneg; lia).
  lia.
Qed.

Lemma store_all_image_only t s :
  image_only c s (store_all true c t s).
Proof.
  unfold store_all.
  apply each_image_only.
  intros yi s1 Hyi.
  apply each_image_only.
  intros xi s2 Hxi. apply range_In in Hyi, Hxi.
  unfold store_cell.
  destruct (Z.ltb_spec (out_y c t yi) (image_height c));
    destruct (Z.ltb_spec (out_x c t xi) (image_width c)); simpl;
    try apply image_only_refl.
  assert (Him : in_image c (out_y c t yi * image_width c + out_x c t xi)).
  { exists (out_y c t yi), (out_x c t xi).
    pose proof (out_y_nonneg t yi Hyi). pose proof (out_x_nonneg t xi Hxi).
    repeat split; lia. }
  split.
  - eapply grows_one; [reflexivity | exact Him].
  - intros k Hk. simpl. unfold upd1.
    destruct (Z.eqb_spec k (out_y c t yi * image_width c + out_x c t xi));
      [subst; contradiction | reflexivity].
Qed.

(** With the checks, what a thread stores are elements [(y,x)] of its own
    accumulators with [y < image_height] and [x < image_width]. *)
Lemma store_all_own_store t s : grows (own_store c t) s (store_all true c t s).
Proof.
  unfold store_all.
  apply each_grows; intros yi s1 Hyi.
  apply each_grows; intros xi s2 Hxi. apply range_In in Hyi, Hxi.
  unfold store_cell.
  destruct (Z.ltb_spec (out_y c t yi) (image_height c));
    destruct (Z.ltb_spec (out_x c t xi) (image_width c)); simpl;
    try (apply grows_same; reflexivity).
  eapply grows_one; [reflexivity|].
  pose proof (out_y_nonneg t yi Hyi). pose proof (out_x_nonneg t xi Hxi).
  exists yi, xi. repeat split; lia.
Qed.

Lemma compute_all_image_only t s :
  image_only c s (compute_all f_zero f_add f_mul true c d_filter t s).
Proof.
  unfold compute_all.
  eapply image_only_trans; [|apply store_all_image_only].
  eapply image_only_trans.
  - apply (image_only_quiet no_write); [auto | apply init_all_output|].
    apply grows_same. apply init_all_trace.
  - apply (image_only_quiet accumulation_access);
      [| apply accumulate_all_output | apply accumulate_all_grows].
    intros [] He; simpl in *; auto.
Qed.

Lemma load_all_image_only checked t s :
  image_only c s (load_all checked c input t s).
Proof.
  apply (image_only_quiet staging_access);
    [| apply load_all_output | apply load_all_grows].
  intros [] He; simpl in *; auto.
Qed.

Lemma block_all_image_only g sc b s :
  image_only c s (block_all f_zero f_add f_mul true c input d_filter g sc b s).
Proof.
  unfold block_all.
  apply image_only_trans
    with (each (load_all true c input) (staging_order sc b) (enter_block g b s)).
  - apply image_only_trans with (enter_block g b s).
    + exact (image_only_refl (enter_block g b s)).
    + apply each_image_only.
      intros t s1 _. apply load_all_image_only.
  - apply each_image_only.
    intros t s1 _. apply (compute_all_image_only t (enter_thread g t s1)).
Qed.

Lemma kernel_all_image_only g sc s :
  image_only c s (kernel_all f_zero f_add f_mul true c input d_filter g sc s).
Proof.
  unfold kernel_all.
  apply each_image_only.
  intros b s1 _. apply block_all_image_only.
Qed.

End StoreSafety.

(** Lines 75-83 are [store_cell_at] at the origin of the block. *)
Lemma store_cell_at_origin {T : Type} checked c t yi xi (s : state T) :
  store_cell checked c t yi xi s
  = store_cell_at checked c (by_ c t) (bx c t) (ty t) (tx t) yi xi s.
Proof. reflexivity. Qed.

(** C3, as stated, fails: "for every launch configuration" includes the
    launches whose block origin leaves the range of [int].  With the
    constants of the file, blocks of 3 x 16 threads and 1 x 4 elements per
    thread, the checks are compiled in; a grid of [2^25 + 1] block columns
    is within the limit [2^31 - 1] of [gridDim.x]; for the first thread of
    block column [2^25] line 20 gives [bx = -2^31]; at [yi = xi = 0] the
    test of line 78 holds ([0 < 4096] and [-2^31 < 4096]) and line 79
    writes at index [-2^31], which is no element of the image. *)
Lemma C3_counterexample :
  bounds_checked wrap_config = true
  /\ Z.of_nat (blockIdx_x wrap_thread) + 1 <= 2 ^ 31 - 1
  /\ by_int wrap_config wrap_thread = 0
  /\ bx_int wrap_config wrap_thread = - 2 ^ 31
  /\ trace (store_cell_at true wrap_config
              (by_int wrap_config wrap_thread) (bx_int wrap_config wrap_thread)
              (ty wrap_thread) (tx wrap_thread) 0 0 start)
     = WrOutput (- 2 ^ 31) (sum start 0 0) :: trace start
  /\ ~ in_image wrap_config (- 2 ^ 31).
Proof.
  assert (Ey : by_int wrap_config wrap_thread = 0) by reflexivity.
  assert (Ei : Z.of_nat (blockIdx_x wrap_thread) = 2 ^ 25).
  { cbv [wrap_thread blockIdx_x]. apply Z2Nat.id. discriminate. }
  assert (Ex : bx_int wrap_config wrap_thread = - 2 ^ 31).
  { unfold bx_int. rewrite Ei. reflexivity. }
  split; [reflexivity|]. split; [rewrite Ei; discriminate|].
  split; [exact Ey|]. split; [exact Ex|]. split.
  - rewrite Ey, Ex. reflexivity.
  - intros (y & x & Hy & Hx & E).
    change (image_height wrap_config) with 4096 in Hy.
    change (image_width wrap_config) with 4096 in Hx, E. lia.
Qed.

(** C3 (amended): when the bounds checks are compiled in (the image is not
    a multiple of the area a block covers), in a launch whose coordinates
    are values of [int] ([tiled_in_int]: the block origins are those of
    lines 19-20), for every order of the blocks and of their threads,
    every write of the tiled kernel to the output buffer is at
    [y * image_width + x] with [y < image_height] and [x < image_width],
    and the cells outside the image are as they were.  For each thread of
    the grid, the coordinates of lines 76-77 are values of [int] at every
    register offset, and what its store loops write are elements [(y,x)]
    of its own accumulators with [y < image_height] and
    [x < image_width]. *)
Theorem C3_checked_store_in_image :
  forall (T : Type) (f_zero : T) (f_add f_mul : T -> T -> T)
         (c : config) (input d_filter filter : Z -> T) (g : garbage T)
         (l : launch) (sc : schedule) (fuel : nat) (s : state T),
    bounds_checked c = true ->
    0 < block_size_y c -> 0 < block_size_x c ->
    tiled_in_int c l ->
    schedules l sc ->
    (fuel_needed c <= fuel)%nat ->
    tiled_exact c l
    /\ (exists s',
          convolution_kernel f_zero f_add f_mul c input d_filter filter g sc
                             fuel s
          = Some s'
          /\ grows (writes_in_image c) s s'
          /\ forall k, ~ in_image c k -> output s' k = output s k)
    /\ (forall t (s0 : state T), In t (grid_threads l) ->
          (forall yi xi, 0 <= yi < tile_size_y c -> 0 <= xi < tile_size_x c ->
             0 <= out_y c t yi < 2 ^ 31 /\ 0 <= out_x c t xi < 2 ^ 31)
          /\ exists s1,
               store_phase true c fuel t s0 = Some s1
               /\ grows (own_store c t) s0 s1).
Proof.
  intros T f_zero f_add f_mul c input d_filter filter g l sc fuel s
         Hc Hy Hx Hint Hsc Hf.
  split; [exact (tiled_coordinates_exact c l Hy Hx Hint)|]. split.
  - exists (kernel_all f_zero f_add f_mul true c input d_filter g sc s).
    split.
    + unfold convolution_kernel. rewrite Hc.
      apply convolution_kernel_of_unrolled; assumption.
    + apply kernel_all_image_only; assumption.
  - intros t s0 Ht. split.
    + intros yi xi Hyi Hxi.
      exact (tiled_store_in_int c l t yi xi Hy Hx Hint Ht Hyi Hxi).
    + exists (store_all true c t s0). split.
      * apply store_phase_unrolled; assumption.
      * apply store_all_own_store; assumption.
Qed.

(** * Staging fills the scratch tile *)

Lemma scheduled_threads_In l sc t :
  schedules l sc ->
  In t (scheduled_threads sc) <-> In t (grid_threads l).
Proof.
  intros (Hb & _ & Hc). unfold scheduled_threads, grid_threads.
  rewrite !in_flat_map. split; intros [b [Hin Ht]]; exists b; split.
  - apply (Permutation_in _ Hb). exact Hin.
  - apply (Permutation_in _ (Hc b)). exact Ht.
  - apply (Permutation_in _ (Permutation_sym Hb)). exact Hin.
  - apply (Permutation_in _ (Permutation_sym (Hc b))). exact Ht.
Qed.

Section Staging.

Variable T : Type.
Variable checked : bool.
Variable c : config.
Variable input : Z -> T.
Hypothesis block_y_pos : 0 < block_size_y c.
Hypothesis block_x_pos : 0 < block_size_x c.
Implicit Types (s : state T) (t : thread).

Lemma load_cell_preserves t t' r col i j s :
  blockIdx_y t' = blockIdx_y t -> blockIdx_x t' = blockIdx_x t ->
  filled c input t r col s -> filled c input t r col (load_cell checked c input t' i j s).
Proof.
  unfold filled, load_cell, by_, bx. intros -> -> H.
  destruct checked;
    [destruct ((_ <? _) && (_ <? _)); [|exact H]|];
    simpl; unfold upd2;
    destruct (Z.eqb_spec r i); destruct (Z.eqb_spec col j); simpl;
    subst; auto.
Qed.

Lemma load_all_preserves t t' r col s :
  blockIdx_y t' = blockIdx_y t -> blockIdx_x t' = blockIdx_x t ->
  filled c input t r col s -> filled c input t r col (load_all checked c input t' s).
Proof.
  intros Hy Hx. unfold load_all.
  apply each_inv. intros i s1 _. apply each_inv. intros j s2 _.
  apply load_cell_preserves; assumption.
Qed.

Lemma load_cell_fills t r col s :
  (checked = true ->
   by_ c t + r < input_height c /\ bx c t + col < input_width c) ->
  filled c input t r col (load_cell checked c input t r col s).
Proof.
  unfold filled, load_cell. intros Hg.
  destruct checked.
  - destruct (Hg eq_refl) as [Hr Hc].
    apply Z.ltb_lt in Hr, Hc. rewrite Hr, Hc. simpl.
    unfold upd2. rewrite !Z.eqb_refl. reflexivity.
  - simpl. unfold upd2. rewrite !Z.eqb_refl. reflexivity.
Qed.

(** The thread whose coordinates are [r mod block_size_y] and
    [col mod block_size_x] fills the cell [(r,col)]. *)
Lemma load_all_fills t r col s :
  0 <= r < i_end c -> 0 <= col < j_end c ->
  ty t = r mod block_size_y c -> tx t = col mod block_size_x c ->
  (checked = true ->
   by_ c t + r < input_height c /\ bx c t + col < input_width c) ->
  filled c input t r col (load_all checked c input t s).
Proof.
  intros Hr Hc Hty Htx Hg. unfold load_all.
  apply (each_establish _ (fun _ => True) (filled c input t r col) _ r); auto.
  - rewrite (Z.div_mod r (block_size_y c)) at 1 by lia.
    rewrite Hty.
    replace (block_size_y c * (r / block_size_y c) + r mod block_size_y c)
      with (r mod block_size_y c + r / block_size_y c * block_size_y c) by lia.
    apply strided_complete; [assumption | apply Z.div_pos; lia |].
    pose proof (Z.div_mod r (block_size_y c) ltac:(lia)). lia.
  - intros i s1 _ _. apply each_inv. intros j s2 _.
    apply load_cell_preserves; reflexivity.
  - intros s1 _.
    apply (each_establish _ (fun _ => True) (filled c input t r col) _ col); auto.
    + rewrite (Z.div_mod col (block_size_x c)) at 1 by lia.
      rewrite Htx.
      replace (block_size_x c * (col / block_size_x c) + col mod block_size_x c)
        with (col mod block_size_x c + col / block_size_x c * block_size_x c)
        by lia.
      apply strided_complete; [assumption | apply Z.div_pos; lia |].
      pose proof (Z.div_mod col (block_size_x c) ltac:(lia)). lia.
    + intros j s2 _ _. apply load_cell_preserves; reflexivity.
    + intros s2 _. apply load_cell_fills. exact Hg.
Qed.

(** After every thread of a block has run the staging loops, the scratch
    tile is staged. *)
Lemma block_staged l b ts t s :
  Z.of_nat (blockDim_y l) = block_size_y c ->
  Z.of_nat (blockDim_x l) = block_size_x c ->
  Permutation ts (block_threads l b) ->
  blockIdx_y t = fst b -> blockIdx_x t = snd b ->
  staged checked c input t (each (load_all checked c input) ts s).
Proof.
  intros Hdy Hdx Hp Hby Hbx r col Hr Hc Hg.
  pose proof (Z.mod_pos_bound r (block_size_y c) block_y_pos) as Hmy.
  pose proof (Z.mod_pos_bound col (block_size_x c) block_x_pos) as Hmx.
  apply (each_establish _ (fun _ => True) (filled c input t r col) _
           (mkThread (fst b) (snd b)
                     (Z.to_nat (r mod block_size_y c))
                     (Z.to_nat (col mod block_size_x c)))); auto.
  - apply (Permutation_in _ (Permutation_sym Hp)).
    apply block_threads_In. simpl. lia.
  - intros t' s1 Hin _. apply (Permutation_in _ Hp) in Hin.
    apply block_threads_In in Hin.
    apply load_all_preserves; lia.
  - intros s1 _.
    assert (E : filled c input (mkThread (fst b) (snd b)
                     (Z.to_nat (r mod block_size_y c))
                     (Z.to_nat (col mod block_size_x c))) r col
                  (load_all checked c input
                     (mkThread (fst b) (snd b)
                        (Z.to_nat (r mod block_size_y c))
                        (Z.to_nat (col mod block_size_x c))) s1)).
    { apply load_all_fills; auto.
      - unfold ty. simpl. lia.
      - unfold tx. simpl. lia.
      - unfold by_, bx in *. simpl. rewrite <- Hby, <- Hbx. exact Hg. }
    unfold filled, by_, bx in *. simpl in E. rewrite Hby, Hbx. exact E.
Qed.

End Staging.

(** * The accumulators hold the weighted sums *)

Lemma each_fold_inv {A S B : Type} (f : A -> S -> S) (J : S -> Prop)
    (p : S -> B) (h : B -> A -> B) l :
  (forall a s, In a l -> J s -> J (f a s) /\ p (f a s) = h (p s) a) ->
  forall s, J s -> J (each f l s) /\ p (each f l s) = fold_left h l (p s).
Proof.
  induction l as [|a l IH]; intros Hstep s Hs; [split; [exact Hs | reflexivity]|].
  rewrite each_cons.
  destruct (Hstep a s (or_introl eq_refl) Hs) as [HJ Hp].
  destruct (IH (fun a s Hin => Hstep a s (or_intror Hin)) (f a s) HJ)
    as [HJ' Hp'].
  split; [exact HJ'|]. rewrite Hp'. simpl. rewrite Hp. reflexivity.
Qed.

Section Accumulation.

Variable T : Type.
Variable f_zero : T.
Variables f_add f_mul : T -> T -> T.
Variable c : config.
Variable input d_filter : Z -> T.
Hypothesis block_y_pos : 0 < block_size_y c.
Hypothesis block_x_pos : 0 < block_size_x c.
Implicit Types (s : state T) (t : thread).

Lemma init_all_sum s yi xi :
  0 <= yi < tile_size_y c -> 0 <= xi < tile_size_x c ->
  sum (init_all f_zero c s) yi xi = f_zero.
Proof.
  intros Hyi Hxi. unfold init_all.
  assert (Hkeep : forall a b s', sum s' yi xi = f_zero ->
                    sum (clear_sum f_zero a b s') yi xi = f_zero).
  { intros a b s' H. simpl. unfold upd2.
    destruct ((yi =? a) && (xi =? b)); [reflexivity | exact H]. }
  apply (each_establish _ (fun _ => True) (fun s' => sum s' yi xi = f_zero) _ yi);
    auto.
  - apply range_In; assumption.
  - intros a s1 _ _ H.
    apply (each_inv _ (fun s' => sum s' yi xi = f_zero)); [|exact H].
    intros b s2 _. apply Hkeep.
  - intros s1 _.
    apply (each_establish _ (fun _ => True) (fun s' => sum s' yi xi = f_zero) _ xi);
      auto.
    + apply range_In; assumption.
    + intros s2 _. simpl. unfold upd2. rewrite !Z.eqb_refl. reflexivity.
Qed.

(** One sweep of the register tile adds to each accumulator its term. *)
Lemma accumulate_tile_sum t i j s yi xi :
  0 <= yi < tile_size_y c -> 0 <= xi < tile_size_x c ->
  sum (accumulate_tile f_add f_mul c d_filter t i j s) yi xi
  = f_add (sum s yi xi)
          (f_mul (sh_input s (sh_row c t yi i) (sh_col c t xi j))
                 (d_filter (coef c i j))).
Proof.
  intros Hyi Hxi.
  set (p := fun s' : state T => (sum s' yi xi, sh_input s')).
  set (h := fun vs : T * (Z -> Z -> T) =>
              (f_add (fst vs)
                     (f_mul (snd vs (sh_row c t yi i) (sh_col c t xi j))
                            (d_filter (coef c i j))), snd vs)).
  assert (E : p (accumulate_tile f_add f_mul c d_filter t i j s) = h (p s)).
  { unfold accumulate_tile.
    apply (each_once _ p h _ yi);
      [apply range_NoDup | apply range_In; assumption | |].
    - intros a s1 _ Hne. apply (each_keep _ p). intros b s2 _.
      unfold p. simpl. unfold upd2.
      destruct (Z.eqb_spec yi a); [congruence | reflexivity].
    - intros s1.
      apply (each_once _ p h _ xi);
        [apply range_NoDup | apply range_In; assumption | |].
      + intros b s2 _ Hne. unfold p. simpl. unfold upd2.
        destruct (Z.eqb_spec xi b); [congruence|].
        rewrite andb_false_r. reflexivity.
      + intros s2. unfold p, h. simpl. unfold upd2.
        rewrite !Z.eqb_refl. reflexivity. }
  apply (f_equal fst) in E. exact E.
Qed.

Lemma accumulate_all_sum t s yi xi :
  0 <= yi < tile_size_y c -> 0 <= xi < tile_size_x c ->
  sum (accumulate_all f_add f_mul c d_filter t s) yi xi
  = fold_left (fun a i =>
      fold_left (fun a j =>
        f_add a (f_mul (sh_input s (sh_row c t yi i) (sh_col c t xi j))
                       (d_filter (coef c i j))))
        (range (filter_width c)) a)
      (range (filter_height c)) (sum s yi xi).
Proof.
  intros Hyi Hxi. unfold accumulate_all.
  apply (each_fold_inv _ (fun s' => sh_input s' = sh_input s)
                       (fun s' => sum s' yi xi)); [|reflexivity].
  intros i s1 _ H1.
  apply (each_fold_inv _ (fun s' => sh_input s' = sh_input s)
                       (fun s' => sum s' yi xi)); [|exact H1].
  intros j s2 _ H2. split.
  - rewrite accumulate_tile_sh_input. exact H2.
  - rewrite accumulate_tile_sum by assumption. rewrite H2. reflexivity.
Qed.

Lemma computed_sum t s yi xi :
  0 <= yi < tile_size_y c -> 0 <= xi < tile_size_x c ->
  sum (accumulate_all f_add f_mul c d_filter t (init_all f_zero c s)) yi xi
  = tile_sum f_zero f_add f_mul c d_filter (sh_input s) t yi xi.
Proof.
  intros Hyi Hxi. rewrite accumulate_all_sum by assumption.
  rewrite init_all_sum, init_all_sh_input by assumption. reflexivity.
Qed.

(** The scratch cells an accumulator reads lie inside the staged tile, and
    the input elements they stand for inside the input buffer, when its
    output element lies inside the image. *)
Lemma read_cell_reached t yi xi i j :
  ty t < block_size_y c -> tx t < block_size_x c ->
  0 <= yi < tile_size_y c -> 0 <= xi < tile_size_x c ->
  out_y c t yi < image_height c -> out_x c t xi < image_width c ->
  0 <= i < filter_height c -> 0 <= j < filter_width c ->
  0 <= sh_row c t yi i < i_end c /\ 0 <= sh_col c t xi j < j_end c
  /\ by_ c t + sh_row c t yi i < input_height c
  /\ bx c t + sh_col c t xi j < input_width c.
Proof.
  intros Hty Htx Hyi Hxi Hy Hx Hi Hj.
  pose proof (border_enough (filter_height c) ltac:(lia)) as Hbh.
  pose proof (border_enough (filter_width c) ltac:(lia)) as Hbw.
  assert (Hby : 0 <= by_ c t).
  { unfold by_. repeat apply Z.mul_nonneg_nonneg; lia. }
  assert (Hbx : 0 <= bx c t).
  { unfold bx. repeat apply Z.mul_nonneg_nonneg; lia. }
  assert (Hty0 : 0 <= ty t) by (unfold ty; lia).
  assert (Htx0 : 0 <= tx t) by (unfold tx; lia).
  assert (Hry : 0 <= yi * block_size_y c
                /\ yi * block_size_y c + block_size_y c
                   <= block_size_y c * tile_size_y c) by nia.
  assert (Hrx : 0 <= xi * block_size_x c
                /\ xi * block_size_x c + block_size_x c
                   <= block_size_x c * tile_size_x c) by nia.
  unfold sh_row, sh_col, i_end, j_end, input_height, input_width,
    border_height, border_width, out_y, out_x in *.
  repeat split; lia.
Qed.

Lemma read_cell_staged checked t s yi xi i j :
  staged checked c input t s ->
  ty t < block_size_y c -> tx t < block_size_x c ->
  0 <= yi < tile_size_y c -> 0 <= xi < tile_size_x c ->
  out_y c t yi < image_height c -> out_x c t xi < image_width c ->
  0 <= i < filter_height c -> 0 <= j < filter_width c ->
  sh_input s (sh_row c t yi i) (sh_col c t xi j)
  = input ((out_y c t yi + i) * input_width c + (out_x c t xi + j)).
Proof.
  intros Hst Hty Htx Hyi Hxi Hy Hx Hi Hj.
  destruct (read_cell_reached t yi xi i j Hty Htx Hyi Hxi Hy Hx Hi Hj)
    as (Hr & Hc & Hgr & Hgc).
  unfold staged, filled in Hst.
  rewrite Hst by auto.
  f_equal. unfold out_y, out_x, sh_row, sh_col. ring.
Qed.

Lemma tile_sum_staged checked t s yi xi :
  staged checked c input t s ->
  ty t < block_size_y c -> tx t < block_size_x c ->
  0 <= yi < tile_size_y c -> 0 <= xi < tile_size_x c ->
  out_y c t yi < image_height c -> out_x c t xi < image_width c ->
  tile_sum f_zero f_add f_mul c d_filter (sh_input s) t yi xi
  = weighted_sum f_zero f_add f_mul c input d_filter
                 (out_y c t yi) (out_x c t xi).
Proof.
  intros Hst Hty Htx Hyi Hxi Hy Hx. unfold tile_sum, weighted_sum.
  apply fold_left_ext_in. intros a i Hi.
  apply fold_left_ext_in. intros a' j Hj.
  apply range_In in Hi, Hj.
  rewrite (read_cell_staged checked t s yi xi i j) by assumption.
  reflexivity.
Qed.

End Accumulation.

(** * The output buffer after a launch *)

Lemma flat_map_ext_in {A B : Type} (f g : A -> list B) l :
  (forall a, In a l -> f a = g a) -> flat_map f l = flat_map g l.
Proof.
  induction l as [|a l IH]; intros Hfg; [reflexivity|].
  simpl. rewrite Hfg by (left; reflexivity).
  rewrite IH; [reflexivity|]. intros; apply Hfg; right; assumption.
Qed.

Lemma flat_map_flat_map {A B C : Type} (f : B -> list C) (g : A -> list B) l :
  flat_map f (flat_map g l) = flat_map (fun a => flat_map f (g a)) l.
Proof.
  induction l as [|a l IH]; [reflexivity|].
  simpl. rewrite flat_map_app, IH. reflexivity.
Qed.

Section Writes.

Variable T : Type.
Implicit Types (s : state T) (w : list (Z * T)) (out : Z -> T).

Lemma apply_writes_app w1 w2 out :
  apply_writes (w1 ++ w2) out = apply_writes w2 (apply_writes w1 out).
Proof. unfold apply_writes. apply fold_left_app. Qed.

(** A loop whose steps each perform a list of writes performs their
    concatenation; [J] is an invariant the steps may rely on. *)
Lemma each_writes {A : Type} (f : A -> state T -> state T)
    (w : A -> list (Z * T)) (J : state T -> Prop) l :
  (forall a s, In a l -> J s ->
     J (f a s) /\ output (f a s) = apply_writes (w a) (output s)) ->
  forall s, J s ->
    J (each f l s)
    /\ output (each f l s) = apply_writes (flat_map w l) (output s).
Proof.
  induction l as [|a l IH]; intros Hstep s Hs; [split; [exact Hs | reflexivity]|].
  rewrite each_cons.
  destruct (Hstep a s (or_introl eq_refl) Hs) as [HJ Ho].
  destruct (IH (fun a s Hin => Hstep a s (or_intror Hin)) (f a s) HJ)
    as [HJ' Ho'].
  split; [exact HJ'|].
  rewrite Ho', Ho. simpl. rewrite apply_writes_app. reflexivity.
Qed.

(** The last write to a cell decides its content. *)
Lemma apply_writes_decided w out k v0 :
  (exists v, In (k, v) w) ->
  (forall v, In (k, v) w -> v = v0) ->
  apply_writes w out k = v0.
Proof.
  induction w as [|[k' v'] w IH] using rev_ind; intros [v Hin] Hall.
  - destruct Hin.
  - rewrite apply_writes_app. simpl. unfold upd1.
    destruct (Z.eqb_spec k k') as [->|Hne].
    + apply Hall. apply in_or_app. right. left. reflexivity.
    + apply IH.
      * apply in_app_or in Hin. destruct Hin as [Hin|[Heq|[]]].
        -- exists v. exact Hin.
        -- congruence.
      * intros v1 H1. apply Hall. apply in_or_app. left. exact H1.
Qed.

Lemma apply_writes_untouched w out k :
  (forall v, ~ In (k, v) w) -> apply_writes w out k = out k.
Proof.
  induction w as [|[k' v'] w IH] using rev_ind; intros Hno; [reflexivity|].
  rewrite apply_writes_app. simpl. unfold upd1.
  destruct (Z.eqb_spec k k') as [->|Hne].
  - exfalso. apply (Hno v'). apply in_or_app. right. left. reflexivity.
  - apply IH. intros v Hin. apply (Hno v). apply in_or_app. left. exact Hin.
Qed.

(** Two sequences of writes that write a cell the same values, and no
    two different values, leave the same content in the cell. *)
Lemma apply_writes_agree w w' out k :
  (forall v, In (k, v) w <-> In (k, v) w') ->
  (forall v v', In (k, v) w -> In (k, v') w -> v = v') ->
  apply_writes w out k = apply_writes w' out k.
Proof.
  intros Hsame Hfun.
  destruct (in_dec Z.eq_dec k (map fst w)) as [Hin|Hout].
  - apply in_map_iff in Hin. destruct Hin as [[k' v] [E Hin]].
    simpl in E. subst k'.
    rewrite (apply_writes_decided w out k v);
      [rewrite (apply_writes_decided w' out k v); [reflexivity | |] | |].
    + exists v. apply Hsame. exact Hin.
    + intros v' Hv'. apply Hsame in Hv'. apply (Hfun v' v); assumption.
    + exists v. exact Hin.
    + intros v' Hv'. apply (Hfun v' v); assumption.
  - assert (Hno : forall v, ~ In (k, v) w).
    { intros v Hv. apply Hout. apply in_map_iff. exists (k, v). auto. }
    rewrite !apply_writes_untouched; [reflexivity | | exact Hno].
    intros v Hv. apply Hsame in Hv. exact (Hno v Hv).
Qed.

End Writes.

Arguments apply_writes_app {T}.
Arguments each_writes {T A}.
Arguments apply_writes_decided {T}.
Arguments apply_writes_untouched {T}.
Arguments apply_writes_agree {T}.

Section TiledOutput.

Variable T : Type.
Variable f_zero : T.
Variables f_add f_mul : T -> T -> T.
Variable checked : bool.
Variable c : config.
Variable input d_filter : Z -> T.
Hypothesis block_y_pos : 0 < block_size_y c.
Hypothesis block_x_pos : 0 < block_size_x c.
Implicit Types (s : state T) (t : thread).

(** The store phase writes the accumulators. *)
Lemma store_all_output t s :
  output (store_all checked c t s)
  = apply_writes
      (flat_map (fun yi =>
         flat_map (fun xi =>
           if negb checked
              || ((out_y c t yi <? image_height c)
                  && (out_x c t xi <? image_width c))
           then [(out_y c t yi * image_width c + out_x c t xi, sum s yi xi)]
           else [])
           (range (tile_size_x c)))
         (range (tile_size_y c)))
      (output s).
Proof.
  unfold store_all.
  apply (each_writes _ _ (fun s' => sum s' = sum s)); [|reflexivity].
  intros yi s1 _ H1.
  apply (each_writes _ _ (fun s' => sum s' = sum s)); [|exact H1].
  intros xi s2 _ H2. unfold store_cell.
  destruct checked; simpl.
  - destruct ((out_y c t yi <? image_height c)
              && (out_x c t xi <? image_width c)); simpl.
    + rewrite H2. split; reflexivity.
    + split; [exact H2 | reflexivity].
  - rewrite H2. split; [reflexivity|].
    unfold out_y, out_x. f_equal. ring.
Qed.

Lemma compute_all_output t s :
  staged checked c input t s ->
  ty t < block_size_y c -> tx t < block_size_x c ->
  all_inside checked c t ->
  output (compute_all f_zero f_add f_mul checked c d_filter t s)
  = apply_writes (thread_writes f_zero f_add f_mul checked c input d_filter t)
                 (output s).
Proof.
  intros Hst Hty Htx Hin. unfold compute_all.
  rewrite store_all_output, accumulate_all_output, init_all_output.
  f_equal. unfold thread_writes.
  apply flat_map_ext_in. intros yi Hyi. apply flat_map_ext_in. intros xi Hxi.
  apply range_In in Hyi, Hxi.
  destruct (negb checked
            || ((out_y c t yi <? image_height c)
                && (out_x c t xi <? image_width c))) eqn:Hcond;
    [|reflexivity].
  assert (Hyx : out_y c t yi < image_height c /\ out_x c t xi < image_width c).
  { destruct checked eqn:Hch; simpl in Hcond.
    - apply andb_true_iff in Hcond. rewrite !Z.ltb_lt in Hcond. exact Hcond.
    - apply Hin; auto. }
  destruct Hyx as [Hy Hx].
  rewrite computed_sum by assumption.
  rewrite (tile_sum_staged T f_zero f_add f_mul c input d_filter
             block_y_pos block_x_pos checked t s yi xi) by assumption.
  reflexivity.
Qed.

Lemma launch_all_inside l t :
  tiled_launch checked c l -> In t (grid_threads l) -> all_inside checked c t.
Proof.
  intros (Hdy & Hdx & Hfit) Hin Hch yi xi Hyi Hxi.
  apply grid_threads_In in Hin. destruct (Hfit Hch) as [Hfy Hfx].
  unfold out_y, out_x, by_, bx, ty, tx.
  assert (0 <= yi * block_size_y c
          /\ yi * block_size_y c + block_size_y c
             <= block_size_y c * tile_size_y c) by nia.
  assert (0 <= xi * block_size_x c
          /\ xi * block_size_x c + block_size_x c
             <= block_size_x c * tile_size_x c) by nia.
  assert ((Z.of_nat (blockIdx_y t) + 1) * (block_size_y c * tile_size_y c)
          <= Z.of_nat (gridDim_y l) * (block_size_y c * tile_size_y c))
    by (apply Z.mul_le_mono_nonneg_r; nia).
  assert ((Z.of_nat (blockIdx_x t) + 1) * (block_size_x c * tile_size_x c)
          <= Z.of_nat (gridDim_x l) * (block_size_x c * tile_size_x c))
    by (apply Z.mul_le_mono_nonneg_r; nia).
  split; lia.
Qed.

Lemma block_all_output g l sc b s :
  tiled_launch checked c l -> schedules l sc -> In b (grid_blocks l) ->
  output (block_all f_zero f_add f_mul checked c input d_filter g sc b s)
  = apply_writes
      (flat_map (thread_writes f_zero f_add f_mul checked c input d_filter)
                (compute_order sc b))
      (output s).
Proof.
  intros Hl (Hpb & Hps & Hpc) Hb. unfold block_all.
  set (s1 := each (load_all checked c input) (staging_order sc b)
                  (enter_block g b s)).
  assert (Ho : output s1 = output s).
  { unfold s1. rewrite (each_keep _ (@output T)); [reflexivity|].
    intros t s' _. apply load_all_output. }
  rewrite <- Ho.
  apply (each_writes _ _ (fun s' => sh_input s' = sh_input s1)); [|reflexivity].
  intros t s2 Ht H2. apply (Permutation_in _ (Hpc b)) in Ht. split.
  - rewrite compute_all_sh_input. exact H2.
  - pose proof Ht as Ht'. apply block_threads_In in Ht'.
    destruct Hl as (Hdy & Hdx & Hfit).
    change (output s2) with (output (enter_thread g t s2)).
    apply compute_all_output.
    + intros r col Hr Hc Hg. unfold filled. simpl. rewrite H2.
      apply (block_staged T checked c input block_y_pos block_x_pos l b
               (staging_order sc b) t (enter_block g b s)); auto; lia.
    + unfold ty. lia.
    + unfold tx. lia.
    + apply (launch_all_inside l); [exact (conj Hdy (conj Hdx Hfit))|].
      unfold grid_threads. apply in_flat_map. exists b. split; assumption.
Qed.

(** The output buffer after a launch of the tiled kernel: each thread has
    written the weighted sums of its output elements. *)
Lemma kernel_all_output g l sc s :
  tiled_launch checked c l -> schedules l sc ->
  output (kernel_all f_zero f_add f_mul checked c input d_filter g sc s)
  = apply_writes
      (flat_map (thread_writes f_zero f_add f_mul checked c input d_filter)
                (scheduled_threads sc))
      (output s).
Proof.
  intros Hl Hsc. unfold kernel_all, scheduled_threads.
  rewrite flat_map_flat_map.
  apply (each_writes _ _ (fun _ => True)); [|exact I].
  intros b s1 Hb _. split; [exact I|].
  apply (block_all_output g l); [assumption | assumption |].
  destruct Hsc as (Hpb & _). apply (Permutation_in _ Hpb). exact Hb.
Qed.

End TiledOutput.

(** * Every element of the image receives its weighted sum *)

Lemma image_index_inj w y x y' x' :
  0 <= x < w -> 0 <= x' < w -> y * w + x = y' * w + x' -> y = y' /\ x = x'.
Proof.
  intros Hx Hx' E.
  assert (Hd : (y' - y) * w = x - x') by (rewrite Z.mul_sub_distr_r; lia).
  assert (y' - y = 0).
  { destruct (Z.lt_trichotomy (y' - y) 0) as [H|[H|H]]; [|exact H|].
    - assert ((y' - y) * w <= -1 * w) by (apply Z.mul_le_mono_nonneg_r; lia).
      lia.
    - assert (1 * w <= (y' - y) * w) by (apply Z.mul_le_mono_nonneg_r; lia).
      lia. }
  split; [lia|]. assert (y' = y) by lia. subst. lia.
Qed.

(** A coordinate below [G] blocks of [B * Tl] elements is the element
    [t + i * B] of some block [q]. *)
Lemma tile_decompose B Tl G n :
  0 < B -> 0 <= G -> 0 <= n < G * (B * Tl) ->
  exists q t i, 0 <= q < G /\ 0 <= t < B /\ 0 <= i < Tl
                /\ n = q * B * Tl + t + i * B.
Proof.
  intros HB HG Hn.
  assert (HY : 0 < B * Tl).
  { destruct (Z.lt_trichotomy (B * Tl) 0) as [H|[H|H]]; [|rewrite H in Hn; lia|exact H].
    assert (G * (B * Tl) <= 0) by (apply Z.mul_nonneg_nonpos; lia). lia. }
  pose proof (Z.div_mod n (B * Tl) ltac:(lia)) as E1.
  pose proof (Z.mod_pos_bound n (B * Tl) HY) as R1.
  pose proof (Z.div_mod (n mod (B * Tl)) B ltac:(lia)) as E2.
  pose proof (Z.mod_pos_bound (n mod (B * Tl)) B HB) as R2.
  exists (n / (B * Tl)), ((n mod (B * Tl)) mod B), ((n mod (B * Tl)) / B).
  assert (0 <= n / (B * Tl)) by (apply Z.div_pos; lia).
  assert (0 <= (n mod (B * Tl)) / B) by (apply Z.div_pos; lia).
  assert ((n mod (B * Tl)) / B < Tl)
    by (apply Z.div_lt_upper_bound; lia).
  repeat split; try lia; nia.
Qed.

Section Results.

Variable T : Type.
Variable f_zero : T.
Variables f_add f_mul : T -> T -> T.
Variable c : config.
Variable input filt : Z -> T.
Implicit Types (s : state T) (t : thread).

Lemma thread_writes_In checked t k v :
  In (k, v) (thread_writes f_zero f_add f_mul checked c input filt t) <->
  exists yi xi,
    0 <= yi < tile_size_y c /\ 0 <= xi < tile_size_x c
    /\ (checked = true ->
        out_y c t yi < image_height c /\ out_x c t xi < image_width c)
    /\ k = out_y c t yi * image_width c + out_x c t xi
    /\ v = weighted_sum f_zero f_add f_mul c input filt (out_y c t yi) (out_x c t xi).
Proof.
  unfold thread_writes. rewrite in_flat_map. split.
  - intros [yi [Hyi Hin]]. apply in_flat_map in Hin.
    destruct Hin as [xi [Hxi Hin]]. apply range_In in Hyi, Hxi.
    exists yi, xi.
    destruct checked; simpl in Hin.
    + destruct (Z.ltb_spec (out_y c t yi) (image_height c));
        destruct (Z.ltb_spec (out_x c t xi) (image_width c));
        simpl in Hin; try contradiction.
      destruct Hin as [Hin|[]]. inversion Hin. auto.
    + destruct Hin as [Hin|[]]. inversion Hin.
      split; [exact Hyi|]. split; [exact Hxi|]. split; [discriminate|].
      split; reflexivity.
  - intros (yi & xi & Hyi & Hxi & Hg & -> & ->).
    exists yi. split; [apply range_In; exact Hyi|].
    apply in_flat_map. exists xi. split; [apply range_In; exact Hxi|].
    destruct checked; simpl.
    + destruct (Hg eq_refl) as [Hy Hx]. apply Z.ltb_lt in Hy, Hx.
      rewrite Hy, Hx. left. reflexivity.
    + left. reflexivity.
Qed.

(** What a thread of a launch writes is the weighted sum of an element of
    the image, at that element. *)
Lemma tiled_write_sound checked l t k v :
  0 < block_size_y c -> 0 < block_size_x c ->
  tiled_launch checked c l -> In t (grid_threads l) ->
  In (k, v) (thread_writes f_zero f_add f_mul checked c input filt t) ->
  exists y x, 0 <= y < image_height c /\ 0 <= x < image_width c
              /\ k = y * image_width c + x /\ v = weighted_sum f_zero f_add f_mul c input filt y x.
Proof.
  intros Hy Hx Hl Ht Hin. apply thread_writes_In in Hin.
  destruct Hin as (yi & xi & Hyi & Hxi & Hg & -> & ->).
  exists (out_y c t yi), (out_x c t xi).
  pose proof (out_y_nonneg c Hy t yi Hyi).
  pose proof (out_x_nonneg c Hx t xi Hxi).
  assert (out_y c t yi < image_height c /\ out_x c t xi < image_width c).
  { destruct checked eqn:Hch; [apply Hg; reflexivity|].
    apply (launch_all_inside false c Hy Hx l t Hl Ht); auto. }
  repeat split; lia.
Qed.

(** Every element of the image is written by a thread of a covering
    launch. *)
Lemma tiled_write_complete checked l y x :
  0 < block_size_y c -> 0 < block_size_x c ->
  tiled_launch checked c l -> tiled_covers c l ->
  0 <= y < image_height c -> 0 <= x < image_width c ->
  exists t, In t (grid_threads l)
    /\ In (y * image_width c + x, weighted_sum f_zero f_add f_mul c input filt y x)
          (thread_writes f_zero f_add f_mul checked c input filt t).
Proof.
  intros HBy HBx (Hdy & Hdx & _) [Hcy Hcx] Hy Hx.
  destruct (tile_decompose (block_size_y c) (tile_size_y c)
              (Z.of_nat (gridDim_y l)) y HBy ltac:(lia) ltac:(lia))
    as (qy & ty0 & yi & Hqy & Hty & Hyi & Ey).
  destruct (tile_decompose (block_size_x c) (tile_size_x c)
              (Z.of_nat (gridDim_x l)) x HBx ltac:(lia) ltac:(lia))
    as (qx & tx0 & xi & Hqx & Htx & Hxi & Ex).
  set (t := mkThread (Z.to_nat qy) (Z.to_nat qx) (Z.to_nat ty0) (Z.to_nat tx0)).
  assert (Eoy : out_y c t yi = y).
  { unfold out_y, by_, ty, t. simpl. rewrite !Z2Nat.id by lia. lia. }
  assert (Eox : out_x c t xi = x).
  { unfold out_x, bx, tx, t. simpl. rewrite !Z2Nat.id by lia. lia. }
  exists t. split.
  - apply grid_threads_In. unfold t. simpl. lia.
  - apply thread_writes_In. exists yi, xi. rewrite Eoy, Eox.
    repeat split; auto; lia.
Qed.

Lemma tiled_output_value checked g l sc s y x :
  0 < block_size_y c -> 0 < block_size_x c ->
  tiled_launch checked c l -> schedules l sc -> tiled_covers c l ->
  0 <= y < image_height c -> 0 <= x < image_width c ->
  output (kernel_all f_zero f_add f_mul checked c input filt g sc s)
         (y * image_width c + x)
  = weighted_sum f_zero f_add f_mul c input filt y x.
Proof.
  intros HBy HBx Hl Hsc Hc Hy Hx.
  rewrite (kernel_all_output T f_zero f_add f_mul checked c input filt
             HBy HBx g l sc s) by assumption.
  apply apply_writes_decided.
  - destruct (tiled_write_complete checked l y x HBy HBx Hl Hc Hy Hx)
      as [t [Ht Hin]].
    exists (weighted_sum f_zero f_add f_mul c input filt y x).
    apply in_flat_map. exists t. split; [|exact Hin].
    apply (scheduled_threads_In l sc t Hsc). exact Ht.
  - intros v Hin. apply in_flat_map in Hin. destruct Hin as [t [Ht Hin]].
    apply (scheduled_threads_In l sc t Hsc) in Ht.
    destruct (tiled_write_sound checked l t _ v HBy HBx Hl Ht Hin)
      as (y' & x' & Hy' & Hx' & E & ->).
    destruct (image_index_inj (image_width c) y x y' x' Hx Hx' E) as [-> ->].
    reflexivity.
Qed.

(** Two launches of the tiled kernel, compiled with or without the bounds
    checks, that write the same values leave the same output buffer,
    whatever their schedules and the garbage they find. *)
Lemma tiled_outputs_agree checked checked' g g' l sc sc' s s' k :
  0 < block_size_y c -> 0 < block_size_x c ->
  tiled_launch checked c l -> tiled_launch checked' c l ->
  schedules l sc -> schedules l sc' ->
  (forall t, In t (grid_threads l) ->
     thread_writes f_zero f_add f_mul checked c input filt t
     = thread_writes f_zero f_add f_mul checked' c input filt t) ->
  output s = output s' ->
  output (kernel_all f_zero f_add f_mul checked c input filt g sc s) k
  = output (kernel_all f_zero f_add f_mul checked' c input filt g' sc' s') k.
Proof.
  intros HBy HBx Hl Hl' Hsc Hsc' Hsame Ho.
  rewrite (kernel_all_output T f_zero f_add f_mul checked c input filt
             HBy HBx g l sc s) by assumption.
  rewrite (kernel_all_output T f_zero f_add f_mul checked' c input filt
             HBy HBx g' l sc' s') by assumption.
  rewrite Ho. apply apply_writes_agree.
  - intros v. rewrite !in_flat_map.
    split; intros [t [Ht Hin]]; exists t.
    + apply (scheduled_threads_In l sc t Hsc) in Ht. split.
      * apply (scheduled_threads_In l sc' t Hsc'). exact Ht.
      * rewrite <- Hsame by exact Ht. exact Hin.
    + apply (scheduled_threads_In l sc' t Hsc') in Ht. split.
      * apply (scheduled_threads_In l sc t Hsc). exact Ht.
      * rewrite Hsame by exact Ht. exact Hin.
  - intros v v' Hv Hv'. apply in_flat_map in Hv, Hv'.
    destruct Hv as [t [Ht Hin]]. destruct Hv' as [t' [Ht' Hin']].
    apply (scheduled_threads_In l sc t Hsc) in Ht.
    apply (scheduled_threads_In l sc t' Hsc) in Ht'.
    destruct (tiled_write_sound checked l t k v HBy HBx Hl Ht Hin)
      as (y & x & Hy & Hx & E & ->).
    destruct (tiled_write_sound checked l t' k v' HBy HBx Hl Ht' Hin')
      as (y' & x' & Hy' & Hx' & E' & ->).
    destruct (image_index_inj (image_width c) y x y' x' Hx Hx'
                ltac:(congruence)) as [-> ->].
    reflexivity.
Qed.

Lemma naive_all_output l g order s :
  output (naive_all f_zero f_add f_mul c input filt l g order s)
  = apply_writes
      (flat_map (naive_writes f_zero f_add f_mul c input filt l) order)
      (output s).
Proof.
  unfold naive_all.
  apply (each_writes _ _ (fun _ => True)); [|exact I].
  intros t s1 _ _. split; [exact I|].
  exact (naive_thread_all_output T f_zero f_add f_mul c input filt l t
           (enter_thread g t s1)).
Qed.

Lemma naive_writes_In l t k v :
  In (k, v) (naive_writes f_zero f_add f_mul c input filt l t) <->
  naive_y l t < image_height c /\ naive_x l t < image_width c
  /\ k = naive_y l t * image_width c + naive_x l t
  /\ v = weighted_sum f_zero f_add f_mul c input filt (naive_y l t) (naive_x l t).
Proof.
  unfold naive_writes.
  destruct (Z.ltb_spec (naive_y l t) (image_height c));
    destruct (Z.ltb_spec (naive_x l t) (image_width c)); simpl;
    (split; [intros Hin | intros (Hy & Hx & -> & ->)]);
    try contradiction; try lia.
  - destruct Hin as [Hin|[]]. inversion Hin. auto.
  - left. reflexivity.
Qed.

Lemma naive_write_complete l y x :
  naive_covers c l ->
  0 <= y < image_height c -> 0 <= x < image_width c ->
  exists t, In t (grid_threads l)
            /\ naive_y l t = y /\ naive_x l t = x.
Proof.
  intros [Hcy Hcx] Hy Hx.
  assert (Hby : blockDim_y l <> 0%nat) by nia.
  assert (Hbx : blockDim_x l <> 0%nat) by nia.
  pose proof (Nat.div_mod_eq (Z.to_nat y) (blockDim_y l)) as Ey.
  pose proof (Nat.div_mod_eq (Z.to_nat x) (blockDim_x l)) as Ex.
  pose proof (Nat.mod_upper_bound (Z.to_nat y) (blockDim_y l) Hby) as Ry.
  pose proof (Nat.mod_upper_bound (Z.to_nat x) (blockDim_x l) Hbx) as Rx.
  exists (mkThread (Z.to_nat y / blockDim_y l) (Z.to_nat x / blockDim_x l)
                   (Z.to_nat y mod blockDim_y l) (Z.to_nat x mod blockDim_x l)).
  split; [|split].
  - apply grid_threads_In. simpl. repeat split; try assumption.
    + apply Nat.Div0.div_lt_upper_bound. lia.
    + apply Nat.Div0.div_lt_upper_bound. lia.
  - unfold naive_y. simpl. lia.
  - unfold naive_x. simpl. lia.
Qed.

Lemma naive_write_functional l t t' k v v' :
  In (k, v) (naive_writes f_zero f_add f_mul c input filt l t) ->
  In (k, v') (naive_writes f_zero f_add f_mul c input filt l t') ->
  v = v'.
Proof.
  intros Hin Hin'. apply naive_writes_In in Hin, Hin'.
  destruct Hin as (Hy & Hx & E & ->). destruct Hin' as (Hy' & Hx' & E' & ->).
  pose proof (naive_y_nonneg l t). pose proof (naive_x_nonneg l t).
  pose proof (naive_y_nonneg l t'). pose proof (naive_x_nonneg l t').
  destruct (image_index_inj (image_width c) (naive_y l t) (naive_x l t)
              (naive_y l t') (naive_x l t') ltac:(lia) ltac:(lia)
              ltac:(congruence)) as [-> ->].
  reflexivity.
Qed.

(** Two launches of the naive kernel leave the same output buffer, whatever
    the order of their threads and the garbage they find. *)
Lemma naive_outputs_agree l g g' order order' s s' k :
  Permutation order order' ->
  output s = output s' ->
  output (naive_all f_zero f_add f_mul c input filt l g order s) k
  = output (naive_all f_zero f_add f_mul c input filt l g' order' s') k.
Proof.
  intros Hp Ho. rewrite !naive_all_output. rewrite Ho.
  apply apply_writes_agree.
  - intros v. rewrite !in_flat_map.
    split; intros [t [Ht Hin]]; exists t; (split; [|exact Hin]).
    + apply (Permutation_in _ Hp). exact Ht.
    + apply (Permutation_in _ (Permutation_sym Hp)). exact Ht.
  - intros v v' Hv Hv'. apply in_flat_map in Hv, Hv'.
    destruct Hv as [t [_ Hin]]. destruct Hv' as [t' [_ Hin']].
    exact (naive_write_functional l t t' k v v' Hin Hin').
Qed.

Lemma naive_output_value l g order s y x :
  Permutation order (grid_threads l) -> naive_covers c l ->
  0 <= y < image_height c -> 0 <= x < image_width c ->
  output (naive_all f_zero f_add f_mul c input filt l g order s)
         (y * image_width c + x)
  = weighted_sum f_zero f_add f_mul c input filt y x.
Proof.
  intros Hp Hc Hy Hx. rewrite naive_all_output.
  apply apply_writes_decided.
  - destruct (naive_write_complete l y x Hc Hy Hx) as (t & Ht & Ey & Ex).
    exists (weighted_sum f_zero f_add f_mul c input filt y x).
    apply in_flat_map. exists t.
    split; [apply (Permutation_in _ (Permutation_sym Hp)); exact Ht|].
    apply naive_writes_In. rewrite Ey, Ex. repeat split; lia.
  - intros v Hin. apply in_flat_map in Hin. destruct Hin as [t [Ht Hin]].
    apply naive_writes_In in Hin. destruct Hin as (Hy' & Hx' & E & ->).
    pose proof (naive_y_nonneg l t). pose proof (naive_x_nonneg l t).
    destruct (image_index_inj (image_width c) y x (naive_y l t) (naive_x l t)
                Hx ltac:(lia) E) as [-> ->].
    reflexivity.
Qed.

End Results.

(** * The claims about whole launches *)

(** C1: on the same input buffer and with the same filter coefficients
    in [d_filter] and in the naive kernel's [filter], a launch of the tiled
    kernel and a launch of the naive kernel that each reach the whole image
    and whose coordinates are values of [int] ([tiled_in_int],
    [naive_in_int]: the exact coordinates are those of lines 19-20 and
    95-96) leave at every output element [(y,x)] of the image the same
    value, the weighted sum of the specification, whatever the order in
    which blocks and threads run (the terms are added in the same order by
    both kernels, so the equality is exact for any arithmetic). *)
Theorem C1_tiled_matches_naive :
  forall (T : Type) (f_zero : T) (f_add f_mul : T -> T -> T)
         (c : config) (input filt unused : Z -> T)
         (g gn : garbage T) (l ln : launch) (sc : schedule)
         (order : list thread) (fuel : nat) (s sn : state T),
    0 < block_size_y c -> 0 < block_size_x c ->
    tiled_launch (bounds_checked c) c l -> schedules l sc ->
    tiled_covers c l -> tiled_in_int c l ->
    Permutation order (grid_threads ln) -> naive_covers c ln ->
    naive_in_int c ln ->
    (fuel_needed c <= fuel)%nat ->
    tiled_exact c l /\ naive_exact ln
    /\ exists st sn',
      convolution_kernel f_zero f_add f_mul c input filt unused g sc fuel s
      = Some st
      /\ convolution_naive f_zero f_add f_mul c input filt ln gn order fuel sn
         = Some sn'
      /\ forall y x, 0 <= y < image_height c -> 0 <= x < image_width c ->
           output st (y * image_width c + x)
           = weighted_sum f_zero f_add f_mul c input filt y x
           /\ output sn' (y * image_width c + x)
              = output st (y * image_width c + x).
Proof.
  intros T f_zero f_add f_mul c input filt unused g gn l ln sc order fuel s sn
         HBy HBx Hl Hsc Hc Hint Hp Hn Hintn Hf.
  split; [exact (tiled_coordinates_exact c l HBy HBx Hint)|].
  split; [exact (naive_coordinates_exact c ln Hintn)|].
  exists (kernel_all f_zero f_add f_mul (bounds_checked c) c input filt g sc s),
         (naive_all f_zero f_add f_mul c input filt ln gn order sn).
  split; [|split].
  - apply convolution_kernel_of_unrolled; assumption.
  - apply convolution_naive_unrolled; assumption.
  - intros y x Hy Hx.
    rewrite (tiled_output_value T f_zero f_add f_mul c input filt
               (bounds_checked c) g l sc s y x) by assumption.
    rewrite naive_output_value by assumption.
    split; reflexivity.
Qed.

Lemma thread_writes_modes (T : Type) (f_zero : T) (f_add f_mul : T -> T -> T)
    (c : config) (input d_filter : Z -> T) (t : thread) :
  all_inside false c t ->
  thread_writes f_zero f_add f_mul false c input d_filter t
  = thread_writes f_zero f_add f_mul true c input d_filter t.
Proof.
  intros Hin. unfold thread_writes.
  apply flat_map_ext_in. intros yi Hyi. apply flat_map_ext_in. intros xi Hxi.
  apply range_In in Hyi, Hxi.
  destruct (Hin eq_refl yi xi Hyi Hxi) as [Hy Hx].
  apply Z.ltb_lt in Hy, Hx. rewrite Hy, Hx. reflexivity.
Qed.

(** C4: when the image is an exact multiple of the area a block covers and
    the grid does not reach beyond the image, the kernel compiled without
    the bounds checks and the kernel compiled with them leave the same
    output buffer, for every input and filter. *)
Theorem C4_modes_agree :
  forall (T : Type) (f_zero : T) (f_add f_mul : T -> T -> T)
         (c : config) (input d_filter filter : Z -> T)
         (g g' : garbage T) (l : launch) (sc sc' : schedule)
         (fuel : nat) (s : state T),
    bounds_checked c = false ->
    0 < block_size_y c -> 0 < block_size_x c ->
    tiled_launch false c l -> schedules l sc -> schedules l sc' ->
    (fuel_needed c <= fuel)%nat ->
    exists su sc0,
      convolution_kernel_of f_zero f_add f_mul false c input d_filter filter
                            g sc fuel s = Some su
      /\ convolution_kernel_of f_zero f_add f_mul true c input d_filter filter
                               g' sc' fuel s = Some sc0
      /\ forall k, output su k = output sc0 k.
Proof.
  intros T f_zero f_add f_mul c input d_filter filter g g' l sc sc' fuel s
         _ HBy HBx Hl Hsc Hsc' Hf.
  exists (kernel_all f_zero f_add f_mul false c input d_filter g sc s),
         (kernel_all f_zero f_add f_mul true c input d_filter g' sc' s).
  split; [|split].
  - apply convolution_kernel_of_unrolled; assumption.
  - apply convolution_kernel_of_unrolled; assumption.
  - intros k.
    apply (tiled_outputs_agree T f_zero f_add f_mul c input d_filter
             false true g g' l sc sc' s s k); auto.
    + destruct Hl as (Hdy & Hdx & _).
      split; [exact Hdy|]. split; [exact Hdx|]. discriminate.
    + intros t Ht. apply thread_writes_modes.
      apply (launch_all_inside false c HBy HBx l t Hl Ht).
Qed.

(** C8: in launches whose coordinates are values of [int] ([tiled_in_int],
    [naive_in_int]: the exact coordinates are those of lines 19-20 and
    95-96), the output buffer a launch leaves depends neither on what the
    scratch tile and the registers held before they were written nor on
    the order in which blocks and threads run: two launches of the tiled
    kernel as compiled, or of the naive kernel, on the same input,
    coefficients and output buffer leave the same output buffer. *)
Theorem C8_deterministic :
  forall (T : Type) (f_zero : T) (f_add f_mul : T -> T -> T)
         (c : config) (input d_filter filter : Z -> T)
         (g g' : garbage T) (l ln : launch) (sc sc' : schedule)
         (order order' : list thread) (fuel : nat) (s s' : state T),
    0 < block_size_y c -> 0 < block_size_x c ->
    tiled_launch (bounds_checked c) c l -> tiled_in_int c l ->
    schedules l sc -> schedules l sc' ->
    naive_in_int c ln ->
    Permutation order (grid_threads ln) ->
    Permutation order' (grid_threads ln) ->
    (fuel_needed c <= fuel)%nat ->
    output s = output s' ->
    tiled_exact c l /\ naive_exact ln
    /\ (exists st st',
       convolution_kernel f_zero f_add f_mul c input d_filter filter g sc fuel s
       = Some st
       /\ convolution_kernel f_zero f_add f_mul c input d_filter filter g' sc'
                             fuel s' = Some st'
       /\ forall k, output st k = output st' k)
    /\ (exists sn sn',
       convolution_naive f_zero f_add f_mul c input filter ln g order fuel s
       = Some sn
       /\ convolution_naive f_zero f_add f_mul c input filter ln g' order'
                            fuel s' = Some sn'
       /\ forall k, output sn k = output sn' k).
Proof.
  intros T f_zero f_add f_mul c input d_filter filter g g' l ln sc sc'
         order order' fuel s s' HBy HBx Hl Hint Hsc Hsc' Hintn Hp Hp' Hf Ho.
  split; [exact (tiled_coordinates_exact c l HBy HBx Hint)|].
  split; [exact (naive_coordinates_exact c ln Hintn)|].
  split.
  - exists (kernel_all f_zero f_add f_mul (bounds_checked c) c input d_filter
                       g sc s),
           (kernel_all f_zero f_add f_mul (bounds_checked c) c input d_filter
                       g' sc' s').
    split; [|split].
    + apply convolution_kernel_of_unrolled; assumption.
    + apply convolution_kernel_of_unrolled; assumption.
    + intros k.
      apply (tiled_outputs_agree T f_zero f_add f_mul c input d_filter
               (bounds_checked c) (bounds_checked c) g g' l sc sc' s s' k);
        auto.
  - exists (naive_all f_zero f_add f_mul c input filter ln g order s),
           (naive_all f_zero f_add f_mul c input filter ln g' order' s').
    split; [|split].
    + apply convolution_naive_unrolled; assumption.
    + apply convolution_naive_unrolled; assumption.
    + intros k. apply naive_outputs_agree; [|exact Ho].
      apply (Permutation_trans Hp). apply Permutation_sym. exact Hp'.
Qed.

(** A loop whose stride is zero never ends: the positive block size is
    what the termination of the staging loops rests on. *)
Lemma zero_stride_diverges {S : Type} (body : Z -> S -> option S) fuel i bound s :
  i < bound -> for_loop fuel i bound 0 body s = None.
Proof.
  revert s. induction fuel as [|fuel IH]; intros s Hlt; simpl;
    apply Z.ltb_lt in Hlt; rewrite Hlt; [reflexivity|].
  destruct (body i s); [|reflexivity].
  rewrite Z.add_0_r. apply IH. apply Z.ltb_lt. exact Hlt.
Qed.

(** C9: both kernels terminate: with blocks of at least one thread in each
    direction, a number of iterations fixed by the compile-time constants
    bounds every loop, and given that many each launch returns the state
    that the constants, the threads that run, the buffers and the state it
    started from determine. *)
Theorem C9_terminates :
  forall (T : Type) (f_zero : T) (f_add f_mul : T -> T -> T)
         (c : config) (input d_filter filter : Z -> T)
         (g : garbage T) (sc : schedule) (ln : launch) (order : list thread)
         (s : state T),
    0 < block_size_y c -> 0 < block_size_x c ->
    exists st sn,
      forall fuel, (fuel_needed c <= fuel)%nat ->
        convolution_kernel f_zero f_add f_mul c input d_filter filter g sc fuel s
        = Some st
        /\ convolution_naive f_zero f_add f_mul c input filter ln g order fuel s
           = Some sn.
Proof.
  intros T f_zero f_add f_mul c input d_filter filter g sc ln order s HBy HBx.
  exists (kernel_all f_zero f_add f_mul (bounds_checked c) c input d_filter
                     g sc s),
         (naive_all f_zero f_add f_mul c input filter ln g order s).
  intros fuel Hf. split.
  - apply convolution_kernel_of_unrolled; assumption.
  - apply convolution_naive_unrolled; assumption.
Qed.

(** * The staging phase in the log *)

Section StagingLog.

Variable T : Type.
Implicit Types (s : state T) (t : thread) (e : event T).

(** An access that one step logs is in the log of the loop. *)
Lemma each_adds {A : Type} (f : A -> state T -> state T)
    (P : event T -> Prop) l a0 e :
  In a0 l ->
  (forall a s, In a l -> grows P s (f a s)) ->
  (forall s, exists new, trace (f a0 s) = new ++ trace s /\ In e new) ->
  forall s, exists new, trace (each f l s) = new ++ trace s /\ In e new.
Proof.
  induction l as [|a l IH]; intros Hin Hg Hadd s; [destruct Hin|].
  rewrite each_cons. destruct Hin as [->|Hin].
  - destruct (Hadd s) as [n1 [E1 H1]].
    destruct (each_grows f P l (fun a s Ha => Hg a s (or_intror Ha)) (f a0 s))
      as [n2 [E2 _]].
    exists (n2 ++ n1). split.
    + rewrite E2, E1. apply app_assoc.
    + apply in_or_app. right. exact H1.
  - destruct (Hg a s (or_introl eq_refl)) as [n1 [E1 _]].
    destruct (IH Hin (fun a s Ha => Hg a s (or_intror Ha)) Hadd (f a s))
      as [n2 [E2 H2]].
    exists (n2 ++ n1). split.
    + rewrite E2, E1. apply app_assoc.
    + apply in_or_app. left. exact H2.
Qed.

Variable checked : bool.
Variable c : config.
Variable input : Z -> T.
Hypothesis block_y_pos : 0 < block_size_y c.
Hypothesis block_x_pos : 0 < block_size_x c.

Lemma strided_reaches lo hi step k :
  0 < step -> lo = k mod step -> 0 <= k < hi -> In k (strided lo hi step).
Proof.
  intros Hs Elo Hk.
  pose proof (Z.div_mod k step ltac:(lia)) as E.
  assert (Hex : exists m, 0 <= m /\ k = lo + m * step).
  { exists (k / step). split; [apply Z.div_pos; lia | lia]. }
  destruct Hex as [m [Hm0 ->]].
  apply strided_complete; [assumption | assumption | lia].
Qed.

Lemma load_all_adds t r col s :
  0 <= r < i_end c -> 0 <= col < j_end c ->
  ty t = r mod block_size_y c -> tx t = col mod block_size_x c ->
  by_ c t + r < input_height c -> bx c t + col < input_width c ->
  exists new, trace (load_all checked c input t s) = new ++ trace s
              /\ In (WrShared r col) new.
Proof.
  intros Hr Hc Hty Htx Hgr Hgc. unfold load_all.
  assert (Hcell : forall i j s', grows staging_access s'
                                       (load_cell checked c input t i j s')).
  { intros i j s'. unfold load_cell.
    destruct checked; [destruct ((_ <? _) && (_ <? _))|];
      try apply grows_refl;
      (eapply grows_two; [reflexivity | exact I | exact I]). }
  apply (each_adds _ staging_access _ r).
  - apply strided_reaches; [assumption | exact Hty | lia].
  - intros i s1 _. apply each_grows. intros j s2 _. apply Hcell.
  - intros s1. apply (each_adds _ staging_access _ col).
    + apply strided_reaches; [assumption | exact Htx | lia].
    + intros j s2 _. apply Hcell.
    + intros s2. unfold load_cell.
      apply Z.ltb_lt in Hgr, Hgc. rewrite Hgr, Hgc.
      exists [WrShared r col;
              RdInput ((by_ c t + r) * input_width c + (bx c t + col))].
      destruct checked; simpl; (split; [reflexivity | left; reflexivity]).
Qed.

Lemma block_adds g l b ts t r col s :
  Z.of_nat (blockDim_y l) = block_size_y c ->
  Z.of_nat (blockDim_x l) = block_size_x c ->
  Permutation ts (block_threads l b) ->
  blockIdx_y t = fst b -> blockIdx_x t = snd b ->
  0 <= r < i_end c -> 0 <= col < j_end c ->
  by_ c t + r < input_height c -> bx c t + col < input_width c ->
  exists new,
    trace (each (load_all checked c input) ts (enter_block g b s))
    = new ++ trace s
    /\ In (WrShared r col) new.
Proof.
  intros Hdy Hdx Hp Hby Hbx Hr Hc Hgr Hgc.
  pose proof (Z.mod_pos_bound r (block_size_y c) block_y_pos) as Hmy.
  pose proof (Z.mod_pos_bound col (block_size_x c) block_x_pos) as Hmx.
  set (t0 := mkThread (fst b) (snd b)
                      (Z.to_nat (r mod block_size_y c))
                      (Z.to_nat (col mod block_size_x c))).
  assert (Ety : ty t0 = r mod block_size_y c) by (unfold ty, t0; simpl; lia).
  assert (Etx : tx t0 = col mod block_size_x c) by (unfold tx, t0; simpl; lia).
  assert (Eby : by_ c t0 = by_ c t) by (unfold by_, t0; simpl; rewrite Hby; reflexivity).
  assert (Ebx : bx c t0 = bx c t) by (unfold bx, t0; simpl; rewrite Hbx; reflexivity).
  assert (Hin : In t0 ts).
  { apply (Permutation_in _ (Permutation_sym Hp)).
    apply block_threads_In. unfold t0. simpl. lia. }
  destruct (each_adds (load_all checked c input) staging_access
              ts t0 (WrShared r col) Hin
              (fun t' s' _ => load_all_grows T checked c input t' s')
              (fun s' => load_all_adds t0 r col s' Hr Hc Ety Etx
                           ltac:(rewrite Eby; exact Hgr)
                           ltac:(rewrite Ebx; exact Hgc))
              (enter_block g b s)) as [new [E Hnew]].
  exists new. split; [exact E | exact Hnew].
Qed.

(** No two threads of a block stage the same scratch cell: a thread writes
    the cells of its own residue class only. *)
Lemma load_all_own_cells t s :
  ty t < block_size_y c -> tx t < block_size_x c ->
  grows (own_cell c t) s (load_all checked c input t s).
Proof.
  intros Hty Htx. unfold load_all.
  apply each_grows. intros i s1 Hi. apply each_grows. intros j s2 Hj.
  apply strided_In in Hi, Hj; try assumption.
  destruct Hi as [_ [mi [Hmi ->]]]. destruct Hj as [_ [mj [Hmj ->]]].
  assert (Hown : own_cell c t (@WrShared T (ty t + mi * block_size_y c)
                                         (tx t + mj * block_size_x c))).
  { simpl. rewrite !Z.mod_add by lia.
    rewrite !Z.mod_small by (unfold ty, tx in *; lia). split; reflexivity. }
  unfold load_cell.
  destruct checked; [destruct ((_ <? _) && (_ <? _))|];
    try apply grows_refl;
    (eapply grows_two; [reflexivity | exact Hown | exact I]).
Qed.

Lemma own_cell_one_thread t t' r col :
  own_cell c t (@WrShared T r col) -> own_cell c t' (@WrShared T r col) ->
  threadIdx_y t = threadIdx_y t' /\ threadIdx_x t = threadIdx_x t'.
Proof.
  unfold own_cell, ty, tx. intros [Hy Hx] [Hy' Hx']. lia.
Qed.

(** The staging loops read the input buffer inside its bounds: with the
    bounds checks by the test of line 33, without them because the grid
    does not reach beyond the image. *)
Lemma load_all_reads_in_input l t s :
  0 <= tile_size_y c -> 0 <= tile_size_x c ->
  tiled_launch checked c l -> In t (grid_threads l) ->
  grows (reads_in_input c) s (load_all checked c input t s).
Proof.
  intros HTy HTx (Hdy & Hdx & Hfit) Ht. apply grid_threads_In in Ht.
  unfold load_all.
  apply each_grows. intros i s1 Hi. apply each_grows. intros j s2 Hj.
  apply strided_In in Hi, Hj; try assumption.
  destruct Hi as [Hi _]. destruct Hj as [Hj _].
  assert (Hby : 0 <= by_ c t).
  { unfold by_. repeat apply Z.mul_nonneg_nonneg; lia. }
  assert (Hbx : 0 <= bx c t).
  { unfold bx. repeat apply Z.mul_nonneg_nonneg; lia. }
  assert (Hty0 : 0 <= ty t) by (unfold ty; lia).
  assert (Htx0 : 0 <= tx t) by (unfold tx; lia).
  unfold load_cell. destruct checked eqn:Hch.
  - destruct (Z.ltb_spec (by_ c t + i) (input_height c));
      destruct (Z.ltb_spec (bx c t + j) (input_width c)); simpl;
      try apply grows_refl.
    eapply grows_two; [reflexivity | exact I | simpl; nia].
  - destruct (Hfit eq_refl) as [Hfy Hfx].
    assert ((Z.of_nat (blockIdx_y t) + 1) * (block_size_y c * tile_size_y c)
            <= Z.of_nat (gridDim_y l) * (block_size_y c * tile_size_y c))
      by (apply Z.mul_le_mono_nonneg_r; nia).
    assert ((Z.of_nat (blockIdx_x t) + 1) * (block_size_x c * tile_size_x c)
            <= Z.of_nat (gridDim_x l) * (block_size_x c * tile_size_x c))
      by (apply Z.mul_le_mono_nonneg_r; nia).
    assert (by_ c t + i < input_height c)
      by (unfold by_, i_end, input_height in *; lia).
    assert (bx c t + j < input_width c)
      by (unfold bx, j_end, input_width in *; lia).
    eapply grows_two; [reflexivity | exact I | simpl; nia].
Qed.

End StagingLog.

(** With the constants of the file the two buffers have fewer than [2^31]
    cells: the indices inside them are values of [int]. *)
Lemma file_buffers_fit_int bsy bsx tsy tsx :
  input_height (file_config bsy bsx tsy tsx)
  * input_width (file_config bsy bsx tsy tsx) = 16908544
  /\ image_height (file_config bsy bsx tsy tsx)
     * image_width (file_config bsy bsx tsy tsx) = 16777216
  /\ 16908544 < 2 ^ 31.
Proof. repeat split. Qed.

(** The launches the file is written for, one thread per 4 x 4 output
    elements in blocks of 16 x 16 and one thread per element, have
    coordinates that are values of [int]. *)
Lemma file_launches_in_int :
  tiled_in_int (file_config 16 16 4 4) (mkLaunch 64 64 16 16)
  /\ naive_in_int (file_config 16 16 4 4) (mkLaunch 256 256 16 16).
Proof. vm_compute. repeat split; discriminate. Qed.

Lemma existsb_reads_cell {T : Type} r col (tr : list (event T)) :
  existsb (reads_cell r col) tr = true -> In (RdShared r col) tr.
Proof.
  intros H. apply existsb_exists in H. destruct H as [e [Hin He]].
  destruct e; simpl in He; try discriminate.
  apply andb_true_iff in He. rewrite !Z.eqb_eq in He.
  destruct He as [-> ->]. exact Hin.
Qed.

Lemma existsb_stages_cell {T : Type} r col (tr : list (event T)) :
  existsb (stages_cell r col) tr = false -> ~ In (WrShared r col) tr.
Proof.
  intros H Hin.
  assert (E : existsb (stages_cell r col) tr = true).
  { apply existsb_exists. exists (WrShared r col). split; [exact Hin|].
    simpl. rewrite !Z.eqb_refl. reflexivity. }
  congruence.
Qed.

(** C6, as stated, fails: with the constants of the file and blocks of
    three threads, the last block row skips the scratch cell [(17,0)]
    (input row 4095 + 17 does not exist), no thread writes that cell, and
    thread 1 reads it, for an accumulator whose image row would be 4096. *)
Lemma C6_counterexample :
  exists s',
    bounds_checked edge_config = true
    /\ convolution_block 0 Z.add Z.mul true edge_config ramp ones ones junk
                         (row_major edge_launch) (fuel_needed edge_config)
                         edge_block start
       = Some s'
    /\ skipped edge_config edge_thread 17 0
    /\ ~ In (WrShared 17 0) (trace s')
    /\ ~ reads_no_skipped_cell edge_config edge_thread (trace s').
Proof.
  exists (block_all 0 Z.add Z.mul true edge_config ramp ones junk
                    (row_major edge_launch) edge_block start).
  assert (Hsk : skipped edge_config edge_thread 17 0).
  { unfold skipped.
    replace (i_end edge_config) with 19 by reflexivity.
    replace (j_end edge_config) with 17 by reflexivity.
    replace (by_ edge_config edge_thread) with 4095 by reflexivity.
    replace (bx edge_config edge_thread) with 0 by reflexivity.
    replace (input_height edge_config) with 4112 by reflexivity.
    replace (input_width edge_config) with 4112 by reflexivity. lia. }
  split; [reflexivity|]. split; [|split; [exact Hsk|split]].
  - apply convolution_block_unrolled; [apply Nat.le_refl | reflexivity | reflexivity].
  - apply existsb_stages_cell. vm_compute. reflexivity.
  - intros H. apply (H 17 0 Hsk).
    apply existsb_reads_cell. vm_compute. reflexivity.
Qed.

(** C6, amended: with the bounds checks compiled in, every scratch cell
    that the accumulation phase reads for an accumulator whose output
    element lies inside the image (the accumulators the store phase
    writes) was reached and not skipped by the staging loops: once every
    thread of the block has staged, in any order, the log of the block
    holds a write of the cell and the cell holds the input element it
    stands for.  Cells that staging skipped are read only for accumulators
    that the store phase discards. *)
Theorem C6_stored_sums_read_staged_cells :
  forall (T : Type) (c : config) (input : Z -> T) (g : garbage T)
         (l : launch) (ts : list thread) (fuel : nat) (b : nat * nat)
         (s : state T) (t : thread) (yi xi i j : Z),
    0 < block_size_y c -> 0 < block_size_x c ->
    Z.of_nat (blockDim_y l) = block_size_y c ->
    Z.of_nat (blockDim_x l) = block_size_x c ->
    Permutation ts (block_threads l b) ->
    (fuel_needed c <= fuel)%nat ->
    In t (block_threads l b) ->
    0 <= yi < tile_size_y c -> 0 <= xi < tile_size_x c ->
    out_y c t yi < image_height c -> out_x c t xi < image_width c ->
    0 <= i < filter_height c -> 0 <= j < filter_width c ->
    exists s1,
      foldM (load_phase true c input fuel) ts (enter_block g b s) = Some s1
      /\ ~ skipped c t (sh_row c t yi i) (sh_col c t xi j)
      /\ (exists new, trace s1 = new ++ trace s
                      /\ In (WrShared (sh_row c t yi i) (sh_col c t xi j)) new)
      /\ filled c input t (sh_row c t yi i) (sh_col c t xi j) s1.
Proof.
  intros T c input g l ts fuel b s t yi xi i j HBy HBx Hdy Hdx Hp Hf Ht
         Hyi Hxi Hy Hx Hi Hj.
  pose proof Ht as Ht'. apply block_threads_In in Ht'.
  destruct (read_cell_reached c HBy HBx t yi xi i j
              ltac:(unfold ty; lia) ltac:(unfold tx; lia) Hyi Hxi Hy Hx Hi Hj)
    as (Hr & Hc & Hgr & Hgc).
  exists (each (load_all true c input) ts (enter_block g b s)).
  split; [|split; [|split]].
  - apply foldM_each. intros t' s' _. apply load_phase_unrolled; assumption.
  - intros (_ & _ & Hn). apply Hn. split; assumption.
  - apply (block_adds T true c input HBy HBx g l b ts t); auto; lia.
  - apply (block_staged T true c input HBy HBx l b ts t (enter_block g b s));
      auto; lia.
Qed.

(** * The [filter] argument of the tiled kernel *)

Section FilterArgument.

Variable T : Type.
Variable f_zero : T.
Variables f_add f_mul : T -> T -> T.
Variable checked : bool.
Variable c : config.
Variable input d_filter : Z -> T.
Implicit Types (s : state T) (t : thread).

Lemma compute_all_no_filter t s :
  grows not_filter_access s
        (compute_all f_zero f_add f_mul checked c d_filter t s).
Proof.
  unfold compute_all.
  eapply grows_trans; [eapply grows_trans|].
  - apply grows_same. apply init_all_trace.
  - eapply grows_weaken; [|apply accumulate_all_grows].
    intros [] He; simpl in *; auto.
  - eapply grows_weaken; [|apply store_all_grows].
    intros [] He; simpl in *; auto.
Qed.

Lemma kernel_all_no_filter g sc s :
  grows not_filter_access s
        (kernel_all f_zero f_add f_mul checked c input d_filter g sc s).
Proof.
  unfold kernel_all. apply each_grows. intros b s1 _. unfold block_all.
  apply grows_trans
    with (each (load_all checked c input) (staging_order sc b)
               (enter_block g b s1)).
  - apply grows_trans with (enter_block g b s1).
    + apply grows_same. reflexivity.
    + apply each_grows. intros t s2 _.
      eapply grows_weaken; [|apply load_all_grows].
      intros [] He; simpl in *; auto.
  - apply each_grows. intros t s2 _.
    exact (compute_all_no_filter t (enter_thread g t s2)).
Qed.

End FilterArgument.

(** C10: the tiled kernel never dereferences its [filter] argument: two
    launches that differ in that argument only return the same state, and
    no access of a launch is a read of [filter]; its coefficients are those
    of [d_filter].  The naive kernel reads its [filter] argument: on the
    3 x 3 image of [checked_config], the tiled kernel given the naive
    kernel's coefficients as its [filter] argument while [d_filter] holds
    others leaves an output that differs from the naive kernel's, and
    agrees with it once the naive kernel is given the coefficients of
    [d_filter]. *)
Theorem C10_filter_argument_unused :
  forall (T : Type) (f_zero : T) (f_add f_mul : T -> T -> T)
         (c : config) (input d_filter filter filter' : Z -> T)
         (g : garbage T) (sc : schedule) (fuel : nat) (s : state T),
    0 < block_size_y c -> 0 < block_size_x c ->
    (fuel_needed c <= fuel)%nat ->
    (exists st,
       convolution_kernel f_zero f_add f_mul c input d_filter filter g sc fuel s
       = Some st
       /\ convolution_kernel f_zero f_add f_mul c input d_filter filter' g sc
                             fuel s = Some st
       /\ grows not_filter_access s st)
    /\ (exists st sn sn',
       convolution_kernel 0 Z.add Z.mul checked_config ramp ones twos junk
                          (row_major grid_2x2) (fuel_needed checked_config)
                          start = Some st
       /\ convolution_naive 0 Z.add Z.mul checked_config ramp twos grid_2x2
                            junk (grid_threads grid_2x2)
                            (fuel_needed checked_config) start = Some sn
       /\ convolution_naive 0 Z.add Z.mul checked_config ramp ones grid_2x2
                            junk (grid_threads grid_2x2)
                            (fuel_needed checked_config) start = Some sn'
       /\ output st 0 <> output sn 0
       /\ output st 0 = output sn' 0
       /\ In (RdFilter 0) (trace sn)).
Proof.
  intros T f_zero f_add f_mul c input d_filter filter filter' g sc fuel s
         HBy HBx Hf.
  split.
  - exists (kernel_all f_zero f_add f_mul (bounds_checked c) c input d_filter
                       g sc s).
    split; [|split].
    + apply convolution_kernel_of_unrolled; assumption.
    + apply convolution_kernel_of_unrolled; assumption.
    + apply kernel_all_no_filter.
  - exists (kernel_all 0 Z.add Z.mul true checked_config ramp ones junk
                       (row_major grid_2x2) start),
           (naive_all 0 Z.add Z.mul checked_config ramp twos grid_2x2 junk
                      (grid_threads grid_2x2) start),
           (naive_all 0 Z.add Z.mul checked_config ramp ones grid_2x2 junk
                      (grid_threads grid_2x2) start).
    split; [|split; [|split; [|split; [|split]]]].
    + apply (convolution_kernel_of_unrolled Z 0 Z.add Z.mul checked_config);
        [apply Nat.le_refl | reflexivity | reflexivity].
    + apply convolution_naive_unrolled. apply Nat.le_refl.
    + apply convolution_naive_unrolled. apply Nat.le_refl.
    + vm_compute. discriminate.
    + vm_compute. reflexivity.
    + vm_compute. tauto.
Qed.

(** * The theorems at concrete launches *)

Lemma row_major_schedules l : schedules l (row_major l).
Proof.
  split; [apply Permutation_refl|].
  split; intros b; apply Permutation_refl.
Qed.

Lemma reversed_schedules l : schedules l (reversed l).
Proof.
  split; [apply Permutation_sym, Permutation_rev|].
  split; intros b; simpl.
  - apply Permutation_sym, Permutation_rev.
  - apply Permutation_refl.
Qed.

Lemma checked_launch_ok :
  tiled_launch (bounds_checked checked_config) checked_config grid_2x2.
Proof.
  split; [reflexivity|]. split; [reflexivity|].
  intros H. vm_compute in H. discriminate H.
Defined.

Lemma exact_launch_ok : tiled_launch false exact_config grid_2x2.
Proof.
  split; [reflexivity|]. split; [reflexivity|].
  intros _. simpl. lia.
Defined.

Lemma checked_in_int : tiled_in_int checked_config grid_2x2.
Proof. vm_compute. repeat split; discriminate. Defined.

Lemma exact_in_int : tiled_in_int exact_config grid_2x2.
Proof. vm_compute. repeat split; discriminate. Defined.

Lemma checked_naive_in_int : naive_in_int checked_config grid_2x2.
Proof. vm_compute. repeat split; discriminate. Defined.

Lemma exact_naive_in_int : naive_in_int exact_config grid_2x2.
Proof. vm_compute. repeat split; discriminate. Defined.

Lemma C1_witness :
  tiled_covers exact_config grid_2x2 /\ naive_covers exact_config grid_2x2
  /\ tiled_exact exact_config grid_2x2 /\ naive_exact grid_2x2
  /\ exists st sn',
      convolution_kernel 0 Z.add Z.mul exact_config ramp ones twos junk
                         (reversed grid_2x2) 4 start = Some st
      /\ convolution_naive 0 Z.add Z.mul exact_config ramp ones grid_2x2 junk'
                           (rev (grid_threads grid_2x2)) 4 start = Some sn'
      /\ forall y x, 0 <= y < image_height exact_config ->
                     0 <= x < image_width exact_config ->
           output st (y * image_width exact_config + x)
           = weighted_sum 0 Z.add Z.mul exact_config ramp ones y x
           /\ output sn' (y * image_width exact_config + x)
              = output st (y * image_width exact_config + x).
Proof.
  assert (Hc : tiled_covers exact_config grid_2x2) by (split; simpl; lia).
  assert (Hn : naive_covers exact_config grid_2x2) by (split; simpl; lia).
  split; [exact Hc|]. split; [exact Hn|].
  apply (C1_tiled_matches_naive Z 0 Z.add Z.mul exact_config ramp ones twos
           junk junk' grid_2x2 grid_2x2 (reversed grid_2x2)
           (rev (grid_threads grid_2x2)) 4 start start).
  - reflexivity.
  - reflexivity.
  - exact exact_launch_ok.
  - apply reversed_schedules.
  - exact Hc.
  - exact exact_in_int.
  - apply Permutation_sym, Permutation_rev.
  - exact Hn.
  - exact exact_naive_in_int.
  - vm_compute. lia.
Defined.

Lemma C2_witness :
  (naive_y_int grid_2x2 (mkThread 1 0 0 1) = naive_y grid_2x2 (mkThread 1 0 0 1)
   /\ naive_x_int grid_2x2 (mkThread 1 0 0 1)
      = naive_x grid_2x2 (mkThread 1 0 0 1))
  /\ exists s',
    naive_thread 0 Z.add Z.mul checked_config ramp ones grid_2x2 4
                 (mkThread 1 0 0 1) start = Some s'
    /\ (naive_y grid_2x2 (mkThread 1 0 0 1) < image_height checked_config
        /\ naive_x grid_2x2 (mkThread 1 0 0 1) < image_width checked_config ->
        acc s' = weighted_sum 0 Z.add Z.mul checked_config ramp ones
                   (naive_y grid_2x2 (mkThread 1 0 0 1))
                   (naive_x grid_2x2 (mkThread 1 0 0 1))
        /\ output s'
           = upd1 (output start)
                  (naive_y grid_2x2 (mkThread 1 0 0 1) * image_width checked_config
                   + naive_x grid_2x2 (mkThread 1 0 0 1)) (acc s')
        /\ exists new, trace s' = new ++ trace start
             /\ writes_of new
                = [(naive_y grid_2x2 (mkThread 1 0 0 1) * image_width checked_config
                    + naive_x grid_2x2 (mkThread 1 0 0 1), acc s')])
    /\ (~ (naive_y grid_2x2 (mkThread 1 0 0 1) < image_height checked_config
           /\ naive_x grid_2x2 (mkThread 1 0 0 1) < image_width checked_config) ->
        output s' = output start /\ trace s' = trace start).
Proof.
  apply (C2_naive_thread Z 0 Z.add Z.mul checked_config ramp ones grid_2x2 4
           (mkThread 1 0 0 1) start).
  - exact checked_naive_in_int.
  - vm_compute. tauto.
  - vm_compute. lia.
Defined.

Lemma C3_witness :
  bounds_checked checked_config = true
  /\ tiled_exact checked_config (mkLaunch 3 2 4 3)
  /\ (exists s',
        convolution_kernel 0 Z.add Z.mul checked_config ramp ones twos junk
                           (reversed (mkLaunch 3 2 4 3)) 4 start = Some s'
        /\ grows (writes_in_image checked_config) start s'
        /\ forall k, ~ in_image checked_config k
                     -> output s' k = output start k)
  /\ (forall t (s0 : state Z), In t (grid_threads (mkLaunch 3 2 4 3)) ->
        (forall yi xi, 0 <= yi < tile_size_y checked_config ->
                       0 <= xi < tile_size_x checked_config ->
           0 <= out_y checked_config t yi < 2 ^ 31
           /\ 0 <= out_x checked_config t xi < 2 ^ 31)
        /\ exists s1,
             store_phase true checked_config 4 t s0 = Some s1
             /\ grows (own_store checked_config t) s0 s1).
Proof.
  split; [reflexivity|].
  apply (C3_checked_store_in_image Z 0 Z.add Z.mul checked_config ramp ones
           twos junk (mkLaunch 3 2 4 3) (reversed (mkLaunch 3 2 4 3)) 4 start).
  - reflexivity.
  - reflexivity.
  - reflexivity.
  - vm_compute. repeat split; discriminate.
  - apply reversed_schedules.
  - vm_compute. lia.
Defined.

Lemma C4_witness :
  bounds_checked exact_config = false
  /\ exists su sc0,
      convolution_kernel_of 0 Z.add Z.mul false exact_config ramp ones twos
                            junk (row_major grid_2x2) 4 start = Some su
      /\ convolution_kernel_of 0 Z.add Z.mul true exact_config ramp ones twos
                               junk' (reversed grid_2x2) 4 start = Some sc0
      /\ forall k, output su k = output sc0 k.
Proof.
  split; [reflexivity|].
  apply (C4_modes_agree Z 0 Z.add Z.mul exact_config ramp ones twos junk junk'
           grid_2x2 (row_major grid_2x2) (reversed grid_2x2) 4 start).
  - reflexivity.
  - reflexivity.
  - reflexivity.
  - exact exact_launch_ok.
  - apply row_major_schedules.
  - apply reversed_schedules.
  - vm_compute. lia.
Defined.

Lemma C5_witness :
  naive_exact grid_2x2
  /\ exists s',
    convolution_naive 0 Z.add Z.mul checked_config ramp ones grid_2x2 junk
                      (grid_threads grid_2x2) 4 start = Some s'
    /\ grows (reads_in_input checked_config) start s'.
Proof.
  apply (C5_halo_sufficient Z 0 Z.add Z.mul checked_config ramp ones grid_2x2
           junk (grid_threads grid_2x2) 4 start).
  - exact checked_naive_in_int.
  - apply incl_refl.
  - vm_compute. lia.
Defined.

Lemma C6_witness :
  exists s1,
    foldM (load_phase true checked_config ramp 4)
          (rev (block_threads grid_2x2 (1%nat, 1%nat)))
          (enter_block junk (1%nat, 1%nat) start) = Some s1
    /\ ~ skipped checked_config (mkThread 1 1 0 0)
                 (sh_row checked_config (mkThread 1 1 0 0) 0 2)
                 (sh_col checked_config (mkThread 1 1 0 0) 0 2)
    /\ (exists new, trace s1 = new ++ trace start
          /\ In (WrShared (sh_row checked_config (mkThread 1 1 0 0) 0 2)
                          (sh_col checked_config (mkThread 1 1 0 0) 0 2)) new)
    /\ filled checked_config ramp (mkThread 1 1 0 0)
              (sh_row checked_config (mkThread 1 1 0 0) 0 2)
              (sh_col checked_config (mkThread 1 1 0 0) 0 2) s1.
Proof.
  apply (C6_stored_sums_read_staged_cells Z checked_config ramp junk grid_2x2
           (rev (block_threads grid_2x2 (1%nat, 1%nat)))
           4 (1%nat, 1%nat) start (mkThread 1 1 0 0) 0 0 2 2).
  - reflexivity.
  - reflexivity.
  - reflexivity.
  - reflexivity.
  - apply Permutation_sym, Permutation_rev.
  - vm_compute. lia.
  - simpl. tauto.
  - simpl. lia.
  - simpl. lia.
  - vm_compute. reflexivity.
  - vm_compute. reflexivity.
  - simpl. lia.
  - simpl. lia.
Defined.

Lemma C7_witness :
  (exists s1,
     load_phase true checked_config ramp 4 (mkThread 1 1 1 0) start = Some s1
     /\ output s1 = output start /\ sum s1 = sum start
     /\ grows staging_access start s1)
  /\ (exists s2,
     init_phase 0 checked_config 4 start = Some s2
     /\ output s2 = output start /\ sh_input s2 = sh_input start
     /\ trace s2 = trace start)
  /\ (exists s3,
     accumulate_phase Z.add Z.mul checked_config ones 4 (mkThread 1 1 1 0) start
     = Some s3
     /\ output s3 = output start /\ sh_input s3 = sh_input start
     /\ grows accumulation_access start s3)
  /\ (exists s4,
     store_phase true checked_config 4 (mkThread 1 1 1 0) start = Some s4
     /\ sh_input s4 = sh_input start /\ sum s4 = sum start
     /\ grows store_access start s4).
Proof.
  apply (C7_phase_effects Z 0 Z.add Z.mul true checked_config ramp ones 4
           (mkThread 1 1 1 0) start).
  - reflexivity.
  - reflexivity.
  - vm_compute. lia.
Defined.

Lemma C8_witness :
  tiled_exact checked_config grid_2x2 /\ naive_exact grid_2x2
  /\ (exists st st',
     convolution_kernel 0 Z.add Z.mul checked_config ramp ones twos junk
                        (row_major grid_2x2) 4 start = Some st
     /\ convolution_kernel 0 Z.add Z.mul checked_config ramp ones twos junk'
                           (reversed grid_2x2) 4 start = Some st'
     /\ forall k, output st k = output st' k)
  /\ (exists sn sn',
     convolution_naive 0 Z.add Z.mul checked_config ramp twos grid_2x2 junk
                       (grid_threads grid_2x2) 4 start = Some sn
     /\ convolution_naive 0 Z.add Z.mul checked_config ramp twos grid_2x2 junk'
                          (rev (grid_threads grid_2x2)) 4 start = Some sn'
     /\ forall k, output sn k = output sn' k).
Proof.
  apply (C8_deterministic Z 0 Z.add Z.mul checked_config ramp ones twos junk
           junk' grid_2x2 grid_2x2 (row_major grid_2x2) (reversed grid_2x2)
           (grid_threads grid_2x2) (rev (grid_threads grid_2x2)) 4 start start).
  - reflexivity.
  - reflexivity.
  - exact checked_launch_ok.
  - exact checked_in_int.
  - apply row_major_schedules.
  - apply reversed_schedules.
  - exact checked_naive_in_int.
  - apply Permutation_refl.
  - apply Permutation_sym, Permutation_rev.
  - vm_compute. lia.
  - reflexivity.
Defined.

Lemma C9_witness :
  exists st sn,
    forall fuel, (fuel_needed (file_config 16 16 4 4) <= fuel)%nat ->
      convolution_kernel 0 Z.add Z.mul (file_config 16 16 4 4) ramp ones twos
                         junk (row_major (mkLaunch 64 64 16 16)) fuel start
      = Some st
      /\ convolution_naive 0 Z.add Z.mul (file_config 16 16 4 4) ramp twos
                           (mkLaunch 256 256 16 16) junk
                           (grid_threads (mkLaunch 256 256 16 16)) fuel start
         = Some sn.
Proof.
  apply (C9_terminates Z 0 Z.add Z.mul (file_config 16 16 4 4) ramp ones twos
           junk (row_major (mkLaunch 64 64 16 16)) (mkLaunch 256 256 16 16)
           (grid_threads (mkLaunch 256 256 16 16)) start).
  - reflexivity.
  - reflexivity.
Defined.

Lemma C10_witness :
  (exists st,
     convolution_kernel 0 Z.add Z.mul exact_config ramp ones twos junk
                        (row_major grid_2x2) 4 start = Some st
     /\ convolution_kernel 0 Z.add Z.mul exact_config ramp ones ramp junk
                           (row_major grid_2x2) 4 start = Some st
     /\ grows not_filter_access start st)
  /\ (exists st sn sn',
     convolution_kernel 0 Z.add Z.mul checked_config ramp ones twos junk
                        (row_major grid_2x2) (fuel_needed checked_config)
                        start = Some st
     /\ convolution_naive 0 Z.add Z.mul checked_config ramp twos grid_2x2
                          junk (grid_threads grid_2x2)
                          (fuel_needed checked_config) start = Some sn
     /\ convolution_naive 0 Z.add Z.mul checked_config ramp ones grid_2x2
                          junk (grid_threads grid_2x2)
                          (fuel_needed checked_config) start = Some sn'
     /\ output st 0 <> output sn 0
     /\ output st 0 = output sn' 0
     /\ In (RdFilter 0) (trace sn)).
Proof.
  apply (C10_filter_argument_unused Z 0 Z.add Z.mul exact_config ramp ones
           twos ramp junk (row_major grid_2x2) 4 start).
  - reflexivity.
  - reflexivity.
  - vm_compute. lia.
Defined.

(** * Beyond the claims: every access of a launch *)

Section Accesses.

Variable T : Type.
Variable f_zero : T.
Variables f_add f_mul : T -> T -> T.
Variable checked : bool.
Variable c : config.
Variable input d_filter : Z -> T.
Variable P : event T -> Prop.
Implicit Types (s : state T) (t : thread).

(** The accesses of the staging loops of a thread. *)
Lemma load_all_accesses t s :
  (forall i j,
     In i (strided (ty t) (i_end c) (block_size_y c)) ->
     In j (strided (tx t) (j_end c) (block_size_x c)) ->
     (checked = true ->
      by_ c t + i < input_height c /\ bx c t + j < input_width c) ->
     P (WrShared i j)
     /\ P (RdInput ((by_ c t + i) * input_width c + (bx c t + j)))) ->
  grows P s (load_all checked c input t s).
Proof.
  intros HP. unfold load_all.
  apply each_grows. intros i s1 Hi. apply each_grows. intros j s2 Hj.
  unfold load_cell. destruct checked eqn:Hch.
  - destruct (Z.ltb_spec (by_ c t + i) (input_height c));
      destruct (Z.ltb_spec (bx c t + j) (input_width c)); simpl;
      try apply grows_refl.
    destruct (HP i j Hi Hj) as [Hw Hr]; [auto|].
    eapply grows_two; [reflexivity | exact Hw | exact Hr].
  - destruct (HP i j Hi Hj) as [Hw Hr]; [discriminate|].
    eapply grows_two; [reflexivity | exact Hw | exact Hr].
Qed.

(** The accesses of a thread after the barrier. *)
Lemma compute_all_accesses t s :
  (forall i j yi xi,
     0 <= i < filter_height c -> 0 <= j < filter_width c ->
     0 <= yi < tile_size_y c -> 0 <= xi < tile_size_x c ->
     P (RdConst (coef c i j))
     /\ P (RdShared (sh_row c t yi i) (sh_col c t xi j))) ->
  (forall yi xi v,
     0 <= yi < tile_size_y c -> 0 <= xi < tile_size_x c ->
     (checked = true ->
      out_y c t yi < image_height c /\ out_x c t xi < image_width c) ->
     P (WrOutput (out_y c t yi * image_width c + out_x c t xi) v)) ->
  grows P s (compute_all f_zero f_add f_mul checked c d_filter t s).
Proof.
  intros Hacc Hst. unfold compute_all.
  apply (grows_trans P s
           (accumulate_all f_add f_mul c d_filter t (init_all f_zero c s)));
    [apply (grows_trans P s (init_all f_zero c s))|].
  - apply grows_same. apply init_all_trace.
  - unfold accumulate_all, accumulate_tile.
    apply each_grows. intros i s1 Hi. apply each_grows. intros j s2 Hj.
    apply each_grows. intros yi s3 Hyi. apply each_grows. intros xi s4 Hxi.
    apply range_In in Hi, Hj, Hyi, Hxi.
    destruct (Hacc i j yi xi Hi Hj Hyi Hxi) as [Hc Hs].
    eapply grows_two; [reflexivity | exact Hc | exact Hs].
  - unfold store_all.
    apply each_grows. intros yi s1 Hyi. apply each_grows. intros xi s2 Hxi.
    apply range_In in Hyi, Hxi.
    unfold store_cell. destruct checked eqn:Hch.
    + destruct (Z.ltb_spec (out_y c t yi) (image_height c));
        destruct (Z.ltb_spec (out_x c t xi) (image_width c)); simpl;
        try apply grows_refl.
      eapply grows_one; [reflexivity | apply Hst; auto].
    + replace ((by_ c t + ty t + yi * block_size_y c) * image_width c
               + bx c t + tx t + xi * block_size_x c)
        with (out_y c t yi * image_width c + out_x c t xi)
        by (unfold out_y, out_x; ring).
      eapply grows_one; [reflexivity | apply Hst; auto; discriminate].
Qed.

(** The accesses of a launch are those of its threads. *)
Lemma kernel_all_accesses g sc s :
  (forall b t s', In b (block_order sc) -> In t (staging_order sc b) ->
     grows P s' (load_all checked c input t s')) ->
  (forall b t s', In b (block_order sc) -> In t (compute_order sc b) ->
     grows P s' (compute_all f_zero f_add f_mul checked c d_filter t s')) ->
  grows P s (kernel_all f_zero f_add f_mul checked c input d_filter g sc s).
Proof.
  intros Hload Hcomp. unfold kernel_all.
  apply each_grows. intros b s1 Hb. unfold block_all.
  apply grows_trans
    with (each (load_all checked c input) (staging_order sc b)
               (enter_block g b s1)).
  - apply grows_trans with (enter_block g b s1).
    + apply grows_same. reflexivity.
    + apply each_grows. intros t s2 Ht. apply (Hload b); assumption.
  - apply each_grows. intros t s2 Ht.
    exact (Hcomp b t (enter_thread g t s2) Hb Ht).
Qed.

End Accesses.

(** The accesses of an active naive thread. *)
Lemma naive_thread_all_accesses (T : Type) (f_zero : T)
    (f_add f_mul : T -> T -> T) (c : config) (input filter : Z -> T)
    (l : launch) (P : event T -> Prop) (t : thread) (s : state T) :
  (forall j i,
     naive_y l t < image_height c -> naive_x l t < image_width c ->
     0 <= j < filter_height c -> 0 <= i < filter_width c ->
     P (RdFilter (j * filter_width c + i))
     /\ P (RdInput ((naive_y l t + j) * input_width c + (naive_x l t + i)))) ->
  (forall v,
     naive_y l t < image_height c -> naive_x l t < image_width c ->
     P (WrOutput (naive_y l t * image_width c + naive_x l t) v)) ->
  grows P s (naive_thread_all f_zero f_add f_mul c input filter l t s).
Proof.
  intros Hacc Hst. unfold naive_thread_all.
  destruct (Z.ltb_spec (naive_y l t) (image_height c)) as [Hy|Hy];
    destruct (Z.ltb_spec (naive_x l t) (image_width c)) as [Hx|Hx]; simpl;
    try (apply grows_same; reflexivity).
  apply (grows_trans P s
           (naive_sum f_add f_mul c input filter l t (set_acc f_zero s))).
  - apply (grows_trans P s (set_acc f_zero s)); [apply grows_same; reflexivity|].
    unfold naive_sum.
    apply each_grows. intros j s1 Hj. apply each_grows. intros i s2 Hi.
    apply range_In in Hj, Hi.
    destruct (Hacc j i Hy Hx Hj Hi) as [Hf Hr].
    eapply grows_two; [reflexivity | exact Hf | exact Hr].
  - eapply grows_one; [reflexivity | apply Hst; assumption].
Qed.

(** The threads a schedule of a launch runs are threads of its grid. *)
Lemma staging_thread_in_grid l sc b t :
  schedules l sc -> In b (block_order sc) -> In t (staging_order sc b) ->
  In t (grid_threads l).
Proof.
  intros (Hb & Hs & _) Hin Ht. unfold grid_threads. apply in_flat_map.
  exists b. split.
  - apply (Permutation_in _ Hb). exact Hin.
  - apply (Permutation_in _ (Hs b)). exact Ht.
Qed.

Lemma compute_thread_in_grid l sc b t :
  schedules l sc -> In b (block_order sc) -> In t (compute_order sc b) ->
  In t (grid_threads l).
Proof.
  intros (Hb & _ & Hc) Hin Ht. unfold grid_threads. apply in_flat_map.
  exists b. split.
  - apply (Permutation_in _ Hb). exact Hin.
  - apply (Permutation_in _ (Hc b)). exact Ht.
Qed.

(** X1: in a launch that matches the configuration and whose coordinates
    are values of [int] ([tiled_in_int]), the tiled kernel reads the input
    buffer inside its [input_height * input_width] cells, in both
    compilation modes and for every order of blocks and threads. *)
Theorem X1_tiled_reads_in_input :
  forall (T : Type) (f_zero : T) (f_add f_mul : T -> T -> T)
         (c : config) (input d_filter filter : Z -> T) (g : garbage T)
         (l : launch) (sc : schedule) (fuel : nat) (s : state T),
    0 < block_size_y c -> 0 < block_size_x c ->
    tiled_launch (bounds_checked c) c l -> tiled_in_int c l ->
    schedules l sc ->
    (fuel_needed c <= fuel)%nat ->
    exists s',
      convolution_kernel f_zero f_add f_mul c input d_filter filter g sc fuel s
      = Some s'
      /\ grows (reads_in_input c) s s'.
Proof.
  intros T f_zero f_add f_mul c input d_filter filter g l sc fuel s
         HBy HBx Hl Hint Hsc Hf.
  assert (HTy : 0 <= tile_size_y c) by (destruct Hint as (? & ? & _); lia).
  assert (HTx : 0 <= tile_size_x c) by (destruct Hint as (? & ? & _); lia).
  exists (kernel_all f_zero f_add f_mul (bounds_checked c) c input d_filter
                     g sc s).
  split; [apply convolution_kernel_of_unrolled; assumption|].
  apply kernel_all_accesses.
  - intros b t s' Hb Ht.
    apply (load_all_reads_in_input T (bounds_checked c) c input HBy HBx l t s');
      try assumption.
    apply (staging_thread_in_grid l sc b t); assumption.
  - intros b t s' _ _. apply compute_all_accesses.
    + intros; split; exact I.
    + intros; exact I.
Qed.

(** X2: every access to the scratch tile, the writes of the staging loops
    and the reads of the accumulation loops, is inside the extents
    [block_size_y*tile_size_y+border_height] by
    [block_size_x*tile_size_x+border_width] of its declaration, when a
    block has [block_size_y] by [block_size_x] threads. *)
Theorem X2_scratch_in_bounds :
  forall (T : Type) (f_zero : T) (f_add f_mul : T -> T -> T)
         (checked : bool) (c : config) (input d_filter filter : Z -> T)
         (g : garbage T) (l : launch) (sc : schedule) (fuel : nat)
         (s : state T),
    0 < block_size_y c -> 0 < block_size_x c ->
    Z.of_nat (blockDim_y l) = block_size_y c ->
    Z.of_nat (blockDim_x l) = block_size_x c ->
    schedules l sc ->
    (fuel_needed c <= fuel)%nat ->
    exists s',
      convolution_kernel_of f_zero f_add f_mul checked c input d_filter filter
                            g sc fuel s = Some s'
      /\ grows (scratch_in_bounds c) s s'.
Proof.
  intros T f_zero f_add f_mul checked c input d_filter filter g l sc fuel s
         HBy HBx Hdy Hdx Hsc Hf.
  exists (kernel_all f_zero f_add f_mul checked c input d_filter g sc s).
  split; [apply convolution_kernel_of_unrolled; assumption|].
  apply kernel_all_accesses.
  - intros b t s' _ _. apply load_all_accesses. intros i j Hi Hj _.
    apply strided_In in Hi, Hj; try assumption.
    destruct Hi as [Hi _]. destruct Hj as [Hj _].
    split; [|exact I]. simpl. unfold i_end, j_end, ty, tx in *. lia.
  - intros b t s' Hb Ht.
    pose proof (compute_thread_in_grid l sc b t Hsc Hb Ht) as Hg.
    apply grid_threads_In in Hg.
    apply compute_all_accesses; [|intros; exact I].
    intros i j yi xi Hi Hj Hyi Hxi. split; [exact I|]. simpl.
    pose proof (border_enough (filter_height c) ltac:(lia)).
    pose proof (border_enough (filter_width c) ltac:(lia)).
    assert (0 <= yi * block_size_y c
            /\ yi * block_size_y c + block_size_y c
               <= block_size_y c * tile_size_y c) by nia.
    assert (0 <= xi * block_size_x c
            /\ xi * block_size_x c + block_size_x c
               <= block_size_x c * tile_size_x c) by nia.
    unfold sh_row, sh_col, ty, tx, border_height, border_width. lia.
Qed.

Lemma coef_in_bounds c i j :
  0 <= i < filter_height c -> 0 <= j < filter_width c ->
  0 <= i * filter_width c + j < filter_height c * filter_width c.
Proof. intros Hi Hj. nia. Qed.

(** X3: every read of a filter coefficient, of [d_filter] by the tiled
    kernel and of [filter] by the naive kernel, is at an index in
    [0, filter_height * filter_width), whatever the launch. *)
Theorem X3_coefficient_reads_in_bounds :
  forall (T : Type) (f_zero : T) (f_add f_mul : T -> T -> T)
         (c : config) (input d_filter filter : Z -> T) (g : garbage T)
         (sc : schedule) (ln : launch) (order : list thread) (fuel : nat)
         (s : state T),
    0 < block_size_y c -> 0 < block_size_x c ->
    (fuel_needed c <= fuel)%nat ->
    (exists st,
       convolution_kernel f_zero f_add f_mul c input d_filter filter g sc fuel s
       = Some st
       /\ grows (coefficient_in_bounds c) s st)
    /\ (exists sn,
       convolution_naive f_zero f_add f_mul c input filter ln g order fuel s
       = Some sn
       /\ grows (coefficient_in_bounds c) s sn).
Proof.
  intros T f_zero f_add f_mul c input d_filter filter g sc ln order fuel s
         HBy HBx Hf.
  split.
  - exists (kernel_all f_zero f_add f_mul (bounds_checked c) c input d_filter
                       g sc s).
    split; [apply convolution_kernel_of_unrolled; assumption|].
    apply kernel_all_accesses.
    + intros b t s' _ _. apply load_all_accesses. intros; split; exact I.
    + intros b t s' _ _. apply compute_all_accesses; [|intros; exact I].
      intros i j yi xi Hi Hj _ _. split; [|exact I].
      simpl. unfold coef. apply coef_in_bounds; assumption.
  - exists (naive_all f_zero f_add f_mul c input filter ln g order s).
    split; [apply convolution_naive_unrolled; assumption|].
    unfold naive_all. apply each_grows. intros t s1 _.
    apply (grows_trans _ s1 (enter_thread g t s1));
      [apply grows_same; reflexivity|].
    apply naive_thread_all_accesses; [|intros; exact I].
    intros j i _ _ Hj Hi. split; [|exact I].
    simpl. apply coef_in_bounds; assumption.
Qed.

(** X6: compiled without the bounds checks, the tiled kernel writes the
    output buffer inside the image only, provided the grid does not reach
    beyond the image; the cells outside the image are as they were. *)
Theorem X6_unchecked_store_in_image :
  forall (T : Type) (f_zero : T) (f_add f_mul : T -> T -> T)
         (c : config) (input d_filter filter : Z -> T) (g : garbage T)
         (l : launch) (sc : schedule) (fuel : nat) (s : state T),
    0 < block_size_y c -> 0 < block_size_x c ->
    tiled_launch false c l -> schedules l sc ->
    (fuel_needed c <= fuel)%nat ->
    exists s',
      convolution_kernel_of f_zero f_add f_mul false c input d_filter filter
                            g sc fuel s = Some s'
      /\ grows (writes_in_image c) s s'
      /\ forall k, ~ in_image c k -> output s' k = output s k.
Proof.
  intros T f_zero f_add f_mul c input d_filter filter g l sc fuel s
         HBy HBx Hl Hsc Hf.
  exists (kernel_all f_zero f_add f_mul false c input d_filter g sc s).
  split; [apply convolution_kernel_of_unrolled; assumption|]. split.
  - apply kernel_all_accesses.
    + intros b t s' _ _. apply load_all_accesses. intros; split; exact I.
    + intros b t s' Hb Ht.
      pose proof (compute_thread_in_grid l sc b t Hsc Hb Ht) as Hg.
      apply compute_all_accesses; [intros; split; exact I|].
      intros yi xi v Hyi Hxi _. simpl.
      destruct (launch_all_inside false c HBy HBx l t Hl Hg eq_refl yi xi
                  Hyi Hxi) as [Hy Hx].
      pose proof (out_y_nonneg c HBy t yi Hyi).
      pose proof (out_x_nonneg c HBx t xi Hxi).
      exists (out_y c t yi), (out_x c t xi). repeat split; lia.
  - intros k Hk.
    rewrite (kernel_all_output T f_zero f_add f_mul false c input d_filter
               HBy HBx g l sc s) by assumption.
    apply apply_writes_untouched. intros v Hin.
    apply in_flat_map in Hin. destruct Hin as [t [Ht Hin]].
    apply (scheduled_threads_In l sc t Hsc) in Ht.
    destruct (tiled_write_sound T f_zero f_add f_mul c input d_filter false
                l t k v HBy HBx Hl Ht Hin) as (y & x & Hy & Hx & E & _).
    apply Hk. exists y, x. auto.
Qed.

(** * Beyond the claims: the staging phase *)

(** X4: a thread stages only the scratch cells whose row and column are
    its own coordinates modulo the block size, so that two threads of a
    block that write the same scratch cell are the same thread: the staging
    phase has no write-write race. *)
Theorem X4_staging_cells_disjoint :
  forall (T : Type) (checked : bool) (c : config) (input : Z -> T)
         (fuel : nat) (t t' : thread) (s s' : state T),
    0 < block_size_y c -> 0 < block_size_x c ->
    ty t < block_size_y c -> tx t < block_size_x c ->
    ty t' < block_size_y c -> tx t' < block_size_x c ->
    (fuel_needed c <= fuel)%nat ->
    exists s1 s1',
      load_phase checked c input fuel t s = Some s1
      /\ load_phase checked c input fuel t' s' = Some s1'
      /\ forall new new' r col,
           trace s1 = new ++ trace s -> trace s1' = new' ++ trace s' ->
           In (WrShared r col) new -> In (WrShared r col) new' ->
           threadIdx_y t = threadIdx_y t' /\ threadIdx_x t = threadIdx_x t'.
Proof.
  intros T checked c input fuel t t' s s' HBy HBx Hty Htx Hty' Htx' Hf.
  exists (load_all checked c input t s), (load_all checked c input t' s').
  split; [apply load_phase_unrolled; assumption|].
  split; [apply load_phase_unrolled; assumption|].
  intros new new' r col E E' Hin Hin'.
  destruct (load_all_own_cells T checked c input HBy HBx t s Hty Htx)
    as [n [En Fn]].
  destruct (load_all_own_cells T checked c input HBy HBx t' s' Hty' Htx')
    as [n' [En' Fn']].
  rewrite E in En. apply app_inv_tail in En. subst n.
  rewrite E' in En'. apply app_inv_tail in En'. subst n'.
  rewrite Forall_forall in Fn, Fn'.
  apply (own_cell_one_thread T c t t' r col); [apply Fn | apply Fn']; assumption.
Qed.

(** X5: in a launch that matches the configuration and whose coordinates
    are values of [int] ([tiled_in_int]), once every thread of a block of
    the grid has run the staging loops, in any order, each scratch cell
    [(r,col)] that the loops reach (and, with the bounds checks, do not
    skip) holds [input[(by+r)*input_width + (bx+col)]], an element inside
    the input buffer, whatever the tile held before; the output buffer is
    untouched. *)
Theorem X5_scratch_holds_input_window :
  forall (T : Type) (checked : bool) (c : config) (input : Z -> T)
         (g : garbage T) (l : launch) (ts : list thread) (fuel : nat)
         (b : nat * nat) (s : state T) (t : thread),
    0 < block_size_y c -> 0 < block_size_x c ->
    tiled_launch checked c l -> tiled_in_int c l ->
    In b (grid_blocks l) ->
    Permutation ts (block_threads l b) ->
    blockIdx_y t = fst b -> blockIdx_x t = snd b ->
    (fuel_needed c <= fuel)%nat ->
    exists s1,
      foldM (load_phase checked c input fuel) ts (enter_block g b s) = Some s1
      /\ output s1 = output s
      /\ forall r col,
           0 <= r < i_end c -> 0 <= col < j_end c ->
           (checked = true ->
            by_ c t + r < input_height c /\ bx c t + col < input_width c) ->
           0 <= (by_ c t + r) * input_width c + (bx c t + col)
             < input_height c * input_width c
           /\ sh_input s1 r col
              = input ((by_ c t + r) * input_width c + (bx c t + col)).
Proof.
  intros T checked c input g l ts fuel b s t HBy HBx (Hdy & Hdx & Hfit)
         (HTy & HTx & _) Hb Hp Hby Hbx Hf.
  exists (each (load_all checked c input) ts (enter_block g b s)).
  split; [|split].
  - apply foldM_each. intros t' s' _. apply load_phase_unrolled; assumption.
  - rewrite (each_keep _ (@output T)); [reflexivity|].
    intros t' s' _. apply load_all_output.
  - intros r col Hr Hcol Hg. split.
    + apply grid_blocks_In in Hb.
      assert (H0y : 0 <= by_ c t).
      { unfold by_. repeat apply Z.mul_nonneg_nonneg; lia. }
      assert (H0x : 0 <= bx c t).
      { unfold bx. repeat apply Z.mul_nonneg_nonneg; lia. }
      assert (Hin : by_ c t + r < input_height c
                    /\ bx c t + col < input_width c).
      { destruct checked; [apply Hg; reflexivity|].
        destruct (Hfit eq_refl) as [Hfy Hfx].
        assert ((Z.of_nat (blockIdx_y t) + 1)
                * (block_size_y c * tile_size_y c)
                <= Z.of_nat (gridDim_y l) * (block_size_y c * tile_size_y c))
          by (apply Z.mul_le_mono_nonneg_r;
              [apply Z.mul_nonneg_nonneg|]; lia).
        assert ((Z.of_nat (blockIdx_x t) + 1)
                * (block_size_x c * tile_size_x c)
                <= Z.of_nat (gridDim_x l) * (block_size_x c * tile_size_x c))
          by (apply Z.mul_le_mono_nonneg_r;
              [apply Z.mul_nonneg_nonneg|]; lia).
        unfold by_, bx, i_end, j_end, input_height, input_width in *.
        rewrite <- !Z.mul_assoc. lia. }
      destruct Hin as [Hiy Hix].
      split; [apply Z.add_nonneg_nonneg; [apply Z.mul_nonneg_nonneg|]; lia|].
      assert ((by_ c t + r + 1) * input_width c
              <= input_height c * input_width c)
        by (apply Z.mul_le_mono_nonneg_r; lia).
      lia.
    + exact (block_staged T checked c input HBy HBx l b ts t
               (enter_block g b s) Hdy Hdx Hp Hby Hbx r col Hr Hcol Hg).
Qed.

(** * Beyond the claims: the accumulation phase *)

(** X13: after the accumulators are cleared and the filter is swept, each
    accumulator [(yi,xi)] of a thread holds the sum, over the filter in
    row-major order from zero, of
    [sh_input[ty+yi*block_size_y+i][tx+xi*block_size_x+j] * d_filter[i*filter_width+j]],
    whatever the registers held before: the accumulators do not disturb
    each other. *)
Theorem X13_accumulators_hold_tile_sums :
  forall (T : Type) (f_zero : T) (f_add f_mul : T -> T -> T)
         (c : config) (d_filter : Z -> T) (fuel : nat) (t : thread)
         (s : state T),
    (fuel_needed c <= fuel)%nat ->
    exists s1 s2,
      init_phase f_zero c fuel s = Some s1
      /\ accumulate_phase f_add f_mul c d_filter fuel t s1 = Some s2
      /\ forall yi xi, 0 <= yi < tile_size_y c -> 0 <= xi < tile_size_x c ->
           sum s2 yi xi
           = tile_sum f_zero f_add f_mul c d_filter (sh_input s) t yi xi.
Proof.
  intros T f_zero f_add f_mul c d_filter fuel t s Hf.
  exists (init_all f_zero c s),
         (accumulate_all f_add f_mul c d_filter t (init_all f_zero c s)).
  split; [apply init_phase_unrolled; assumption|].
  split; [apply accumulate_phase_unrolled; assumption|].
  intros yi xi Hyi Hxi. apply computed_sum; assumption.
Qed.

(** * Beyond the claims: who writes which output element *)

(** The block, the thread and the register offset of a coordinate are
    unique. *)
Lemma tile_unique B Tl q q' t t' i i' :
  0 < B -> 0 <= t < B -> 0 <= t' < B -> 0 <= i < Tl -> 0 <= i' < Tl ->
  q * B * Tl + t + i * B = q' * B * Tl + t' + i' * B ->
  q = q' /\ t = t' /\ i = i'.
Proof.
  intros HB Ht Ht' Hi Hi' E.
  assert (Hr : 0 <= B * i + t < B * Tl) by nia.
  assert (Hr' : 0 <= B * i' + t' < B * Tl) by nia.
  destruct (Z.div_mod_unique (B * Tl) q q' (B * i + t) (B * i' + t'))
    as [Hq Hrr]; [left; lia | left; lia | lia |].
  destruct (Z.div_mod_unique B i i' t t') as [Hi0 Ht0];
    [left; lia | left; lia | lia |].
  auto.
Qed.

(** X7: in a launch whose coordinates are values of [int]
    ([tiled_in_int]: the block origins are those of lines 19-20), inside
    the image no output element has two writers: two threads of the grid
    and two register offsets that target the same cell of the image are
    the same thread and the same offset; and when the grid reaches the
    whole image every element of the image has a writer. *)
Theorem X7_one_writer_per_element :
  forall (c : config) (l : launch),
    0 < block_size_y c -> 0 < block_size_x c ->
    Z.of_nat (blockDim_y l) = block_size_y c ->
    Z.of_nat (blockDim_x l) = block_size_x c ->
    tiled_in_int c l ->
    tiled_exact c l
    /\ (forall t t' yi xi yi' xi',
       In t (grid_threads l) -> In t' (grid_threads l) ->
       0 <= yi < tile_size_y c -> 0 <= xi < tile_size_x c ->
       0 <= yi' < tile_size_y c -> 0 <= xi' < tile_size_x c ->
       out_x c t xi < image_width c -> out_x c t' xi' < image_width c ->
       out_y c t yi * image_width c + out_x c t xi
       = out_y c t' yi' * image_width c + out_x c t' xi' ->
       t = t' /\ yi = yi' /\ xi = xi')
    /\ (tiled_covers c l ->
        forall y x, 0 <= y < image_height c -> 0 <= x < image_width c ->
          exists t yi xi,
            In t (grid_threads l)
            /\ 0 <= yi < tile_size_y c /\ 0 <= xi < tile_size_x c
            /\ out_y c t yi = y /\ out_x c t xi = x).
Proof.
  intros c l HBy HBx Hdy Hdx Hint.
  split; [exact (tiled_coordinates_exact c l HBy HBx Hint)|]. split.
  - intros t t' yi xi yi' xi' Ht Ht' Hyi Hxi Hyi' Hxi' Hx Hx' E.
    apply grid_threads_In in Ht, Ht'.
    pose proof (out_x_nonneg c HBx t xi Hxi).
    pose proof (out_x_nonneg c HBx t' xi' Hxi').
    destruct (image_index_inj (image_width c) (out_y c t yi) (out_x c t xi)
                (out_y c t' yi') (out_x c t' xi') ltac:(lia) ltac:(lia) E)
      as [Ey Ex].
    unfold out_y, by_, ty in Ey. unfold out_x, bx, tx in Ex.
    destruct (tile_unique (block_size_y c) (tile_size_y c)
                (Z.of_nat (blockIdx_y t)) (Z.of_nat (blockIdx_y t'))
                (Z.of_nat (threadIdx_y t)) (Z.of_nat (threadIdx_y t')) yi yi')
      as (Hqy & Hty & Hiy); try lia.
    destruct (tile_unique (block_size_x c) (tile_size_x c)
                (Z.of_nat (blockIdx_x t)) (Z.of_nat (blockIdx_x t'))
                (Z.of_nat (threadIdx_x t)) (Z.of_nat (threadIdx_x t')) xi xi')
      as (Hqx & Htx & Hix); try lia.
    split; [|split; assumption].
    destruct t, t'; simpl in *. f_equal; lia.
  - intros [Hcy Hcx] y x Hy Hx.
    destruct (tile_decompose (block_size_y c) (tile_size_y c)
                (Z.of_nat (gridDim_y l)) y HBy ltac:(lia) ltac:(lia))
      as (qy & ty0 & yi & Hqy & Hty & Hyi & Ey).
    destruct (tile_decompose (block_size_x c) (tile_size_x c)
                (Z.of_nat (gridDim_x l)) x HBx ltac:(lia) ltac:(lia))
      as (qx & tx0 & xi & Hqx & Htx & Hxi & Ex).
    exists (mkThread (Z.to_nat qy) (Z.to_nat qx) (Z.to_nat ty0) (Z.to_nat tx0)),
           yi, xi.
    split; [apply grid_threads_In; simpl; lia|].
    split; [exact Hyi|]. split; [exact Hxi|].
    unfold out_y, out_x, by_, bx, ty, tx. simpl.
    rewrite !Z2Nat.id by lia. lia.
Qed.

(** X8: in a launch whose coordinates are values of [int]
    ([naive_in_int]: the coordinates are those of lines 95-96), an element
    of the image is written by exactly one thread of the naive kernel's
    grid: two threads of the grid with the same coordinates are the same
    thread, and when the grid reaches the whole image every element of the
    image is the coordinate of a thread. *)
Theorem X8_naive_one_thread_per_element :
  forall (c : config) (l : launch),
    naive_in_int c l ->
    naive_exact l
    /\ (forall t t',
       In t (grid_threads l) -> In t' (grid_threads l) ->
       naive_x l t < image_width c -> naive_x l t' < image_width c ->
       naive_y l t * image_width c + naive_x l t
       = naive_y l t' * image_width c + naive_x l t' ->
       t = t')
    /\ (naive_covers c l ->
        forall y x, 0 <= y < image_height c -> 0 <= x < image_width c ->
          exists t, In t (grid_threads l)
                    /\ naive_y l t = y /\ naive_x l t = x).
Proof.
  intros c l Hint.
  split; [exact (naive_coordinates_exact c l Hint)|]. split.
  - intros t t' Ht Ht' Hx Hx' E.
    apply grid_threads_In in Ht, Ht'.
    pose proof (naive_x_nonneg l t). pose proof (naive_x_nonneg l t').
    destruct (image_index_inj (image_width c) (naive_y l t) (naive_x l t)
                (naive_y l t') (naive_x l t') ltac:(lia) ltac:(lia) E)
      as [Ey Ex].
    unfold naive_y in Ey. unfold naive_x in Ex.
    apply Nat2Z.inj in Ey, Ex.
    destruct (Nat.div_mod_unique (blockDim_y l) (blockIdx_y t) (blockIdx_y t')
                (threadIdx_y t) (threadIdx_y t')) as [Hqy Hry]; try lia.
    destruct (Nat.div_mod_unique (blockDim_x l) (blockIdx_x t) (blockIdx_x t')
                (threadIdx_x t) (threadIdx_x t')) as [Hqx Hrx]; try lia.
    destruct t, t'; simpl in *. f_equal; lia.
  - intros Hc y x Hy Hx. apply (naive_write_complete c l y x); assumption.
Qed.

(** * Beyond the claims: what an output element depends on *)

Lemma weighted_sum_window (T : Type) (f_zero : T) (f_add f_mul : T -> T -> T)
    (c : config) (input input' filt : Z -> T) (y x : Z) :
  (forall j i, 0 <= j < filter_height c -> 0 <= i < filter_width c ->
     input ((y + j) * input_width c + (x + i))
     = input' ((y + j) * input_width c + (x + i))) ->
  weighted_sum f_zero f_add f_mul c input filt y x
  = weighted_sum f_zero f_add f_mul c input' filt y x.
Proof.
  intros Hw. unfold weighted_sum.
  apply fold_left_ext_in. intros a j Hj.
  apply fold_left_ext_in. intros a' i Hi.
  apply range_In in Hj, Hi. rewrite Hw by assumption. reflexivity.
Qed.

(** X10: in a launch that reaches the whole image and whose coordinates
    are values of [int] ([tiled_in_int]), the value the tiled kernel
    leaves at output element [(y,x)] depends on the input buffer through
    the window of rows [y] to [y + filter_height - 1] and columns [x] to
    [x + filter_width - 1] only (the filter is anchored at its top left
    corner, the halo trails the image): two input buffers that agree on
    the window give the same value. *)
Theorem X10_output_depends_on_window :
  forall (T : Type) (f_zero : T) (f_add f_mul : T -> T -> T)
         (c : config) (input input' d_filter filter : Z -> T)
         (g g' : garbage T) (l : launch) (sc sc' : schedule) (fuel : nat)
         (s s' : state T) (y x : Z),
    0 < block_size_y c -> 0 < block_size_x c ->
    tiled_launch (bounds_checked c) c l -> tiled_in_int c l ->
    schedules l sc -> schedules l sc' -> tiled_covers c l ->
    (fuel_needed c <= fuel)%nat ->
    0 <= y < image_height c -> 0 <= x < image_width c ->
    (forall j i, 0 <= j < filter_height c -> 0 <= i < filter_width c ->
       input ((y + j) * input_width c + (x + i))
       = input' ((y + j) * input_width c + (x + i))) ->
    exists st st',
      convolution_kernel f_zero f_add f_mul c input d_filter filter g sc fuel s
      = Some st
      /\ convolution_kernel f_zero f_add f_mul c input' d_filter filter g' sc'
                            fuel s' = Some st'
      /\ output st (y * image_width c + x) = output st' (y * image_width c + x).
Proof.
  intros T f_zero f_add f_mul c input input' d_filter filter g g' l sc sc'
         fuel s s' y x HBy HBx Hl Hint Hsc Hsc' Hc Hf Hy Hx Hw.
  exists (kernel_all f_zero f_add f_mul (bounds_checked c) c input d_filter
                     g sc s),
         (kernel_all f_zero f_add f_mul (bounds_checked c) c input' d_filter
                     g' sc' s').
  split; [apply convolution_kernel_of_unrolled; assumption|].
  split; [apply convolution_kernel_of_unrolled; assumption|].
  rewrite (tiled_output_value T f_zero f_add f_mul c input d_filter
             (bounds_checked c) g l sc s y x) by assumption.
  rewrite (tiled_output_value T f_zero f_add f_mul c input' d_filter
             (bounds_checked c) g' l sc' s' y x) by assumption.
  apply weighted_sum_window. exact Hw.
Qed.




Lemma even_border f : 0 <= f -> Z.even f = true -> (f ÷ 2) * 2 = f.
Proof.
  intros Hf He. apply Z.even_spec in He. destruct He as [m ->].
  rewrite (Z.mul_comm 2 m). rewrite Z.quot_mul by lia. reflexivity.
Qed.

(** X12: the halo has [(filter_height / 2) * 2] rows, one more than the
    [filter_height - 1] that are needed when [filter_height] is even: in a
    launch whose coordinates are values of [int] ([naive_in_int]) the
    threads of the naive kernel's grid then never read the last row of the
    input buffer. *)
Theorem X12_even_filter_last_row_unread :
  forall (T : Type) (f_zero : T) (f_add f_mul : T -> T -> T)
         (c : config) (input filter : Z -> T) (l : launch) (g : garbage T)
         (order : list thread) (fuel : nat) (s : state T),
    Z.even (filter_height c) = true ->
    naive_in_int c l ->
    incl order (grid_threads l) ->
    (fuel_needed c <= fuel)%nat ->
    exists s',
      convolution_naive f_zero f_add f_mul c input filter l g order fuel s
      = Some s'
      /\ grows (reads_above_last_row c) s s'.
Proof.
  intros T f_zero f_add f_mul c input filter l g order fuel s He Hint Hord Hf.
  exists (naive_all f_zero f_add f_mul c input filter l g order s).
  split; [apply convolution_naive_unrolled; assumption|].
  unfold naive_all. apply each_grows. intros t s1 _.
  apply (grows_trans _ s1 (enter_thread g t s1));
    [apply grows_same; reflexivity|].
  apply naive_thread_all_accesses; [|intros; exact I].
  intros j i Hy Hx Hj Hi. split; [exact I|]. simpl.
  pose proof (naive_y_nonneg l t). pose proof (naive_x_nonneg l t).
  pose proof (even_border (filter_height c) ltac:(lia) He) as Eb.
  pose proof (border_enough (filter_width c) ltac:(lia)) as Hbw.
  unfold input_height, input_width, border_height, border_width.
  rewrite Eb. nia.
Qed.

(** * Beyond the claims: the cost of the naive kernel *)

Lemma loop_indices_unit_length bound : forall fuel i,
  (Z.to_nat (bound - i) <= fuel)%nat ->
  length (loop_indices fuel i bound 1) = Z.to_nat (bound - i).
Proof.
  induction fuel as [|fuel IH]; intros i Hf; simpl;
    destruct (Z.ltb_spec i bound); simpl; try lia.
  rewrite IH by lia. lia.
Qed.

Lemma range_length n : length (range n) = Z.to_nat n.
Proof.
  unfold range, strided. rewrite loop_indices_unit_length by lia.
  f_equal. lia.
Qed.

(** A loop whose steps each log [k] accesses of a kind logs [k] of them
    per iteration. *)
Lemma each_counts {T A : Type} (f : A -> state T -> state T)
    (q : event T -> bool) (k : nat) l :
  (forall a s, In a l ->
     exists new, trace (f a s) = new ++ trace s /\ count_accesses q new = k) ->
  forall s, exists new,
    trace (each f l s) = new ++ trace s
    /\ count_accesses q new = (length l * k)%nat.
Proof.
  induction l as [|a l IH]; intros Hstep s.
  - exists []. split; reflexivity.
  - rewrite each_cons.
    destruct (Hstep a s (or_introl eq_refl)) as [n1 [E1 C1]].
    destruct (IH (fun a s Hin => Hstep a s (or_intror Hin)) (f a s))
      as [n2 [E2 C2]].
    exists (n2 ++ n1). split.
    + rewrite E2, E1. apply app_assoc.
    + unfold count_accesses in *. rewrite filter_app, length_app.
      rewrite C1, C2. simpl. lia.
Qed.

(** X14: an active thread of the naive kernel reads the input buffer
    [filter_height * filter_width] times and the coefficients as many
    times: nothing is reused between the output elements. *)
Theorem X14_naive_reads_per_element :
  forall (T : Type) (f_zero : T) (f_add f_mul : T -> T -> T)
         (c : config) (input filter : Z -> T) (l : launch)
         (fuel : nat) (t : thread) (s : state T),
    naive_y l t < image_height c -> naive_x l t < image_width c ->
    (fuel_needed c <= fuel)%nat ->
    exists s' new,
      naive_thread f_zero f_add f_mul c input filter l fuel t s = Some s'
      /\ trace s' = new ++ trace s
      /\ count_accesses is_input_read new
         = (Z.to_nat (filter_height c) * Z.to_nat (filter_width c))%nat
      /\ count_accesses is_filter_read new
         = (Z.to_nat (filter_height c) * Z.to_nat (filter_width c))%nat.
Proof.
  intros T f_zero f_add f_mul c input filter l fuel t s Hy Hx Hf.
  assert (Hin : forall s0, exists new,
            trace (naive_sum f_add f_mul c input filter l t s0)
            = new ++ trace s0
            /\ count_accesses is_input_read new
               = (length (range (filter_height c))
                  * (length (range (filter_width c)) * 1))%nat).
  { intros s0. unfold naive_sum.
    apply each_counts. intros j s1 _. apply each_counts. intros i s2 _.
    exists [RdFilter (j * filter_width c + i);
            RdInput ((naive_y l t + j) * input_width c + (naive_x l t + i))].
    split; reflexivity. }
  assert (Hfi : forall s0, exists new,
            trace (naive_sum f_add f_mul c input filter l t s0)
            = new ++ trace s0
            /\ count_accesses is_filter_read new
               = (length (range (filter_height c))
                  * (length (range (filter_width c)) * 1))%nat).
  { intros s0. unfold naive_sum.
    apply each_counts. intros j s1 _. apply each_counts. intros i s2 _.
    exists [RdFilter (j * filter_width c + i);
            RdInput ((naive_y l t + j) * input_width c + (naive_x l t + i))].
    split; reflexivity. }
  destruct (Hin (set_acc f_zero s)) as [n1 [E1 C1]].
  destruct (Hfi (set_acc f_zero s)) as [n2 [E2 C2]].
  assert (n2 = n1) by (rewrite E1 in E2; apply app_inv_tail in E2; auto).
  subst n2. rewrite !range_length in C1, C2.
  exists (naive_thread_all f_zero f_add f_mul c input filter l t s),
         (WrOutput (naive_y l t * image_width c + naive_x l t)
                   (acc (naive_sum f_add f_mul c input filter l t
                                   (set_acc f_zero s))) :: n1).
  split; [apply naive_thread_unrolled; assumption|].
  unfold naive_thread_all.
  apply Z.ltb_lt in Hy, Hx. rewrite Hy, Hx. simpl.
  split; [rewrite E1; reflexivity|].
  unfold count_accesses in *. simpl. split; lia.
Qed.

(** * The further theorems at concrete launches *)

Lemma X1_witness :
  exists s',
    convolution_kernel 0 Z.add Z.mul exact_config ramp ones twos junk
                       (reversed grid_2x2) 4 start = Some s'
    /\ grows (reads_in_input exact_config) start s'.
Proof.
  apply (X1_tiled_reads_in_input Z 0 Z.add Z.mul exact_config ramp ones twos
           junk grid_2x2 (reversed grid_2x2) 4 start).
  - reflexivity.
  - reflexivity.
  - exact exact_launch_ok.
  - exact exact_in_int.
  - apply reversed_schedules.
  - vm_compute. lia.
Defined.

Lemma X2_witness :
  exists s',
    convolution_kernel_of 0 Z.add Z.mul true checked_config ramp ones twos
                          junk (row_major grid_2x2) 4 start = Some s'
    /\ grows (scratch_in_bounds checked_config) start s'.
Proof.
  apply (X2_scratch_in_bounds Z 0 Z.add Z.mul true checked_config ramp ones
           twos junk grid_2x2 (row_major grid_2x2) 4 start).
  - reflexivity.
  - reflexivity.
  - reflexivity.
  - reflexivity.
  - apply row_major_schedules.
  - vm_compute. lia.
Defined.

Lemma X3_witness :
  (exists st,
     convolution_kernel 0 Z.add Z.mul checked_config ramp ones twos junk
                        (row_major grid_2x2) 4 start = Some st
     /\ grows (coefficient_in_bounds checked_config) start st)
  /\ (exists sn,
     convolution_naive 0 Z.add Z.mul checked_config ramp twos grid_2x2 junk
                       (grid_threads grid_2x2) 4 start = Some sn
     /\ grows (coefficient_in_bounds checked_config) start sn).
Proof.
  apply (X3_coefficient_reads_in_bounds Z 0 Z.add Z.mul checked_config ramp
           ones twos junk (row_major grid_2x2) grid_2x2
           (grid_threads grid_2x2) 4 start).
  - reflexivity.
  - reflexivity.
  - vm_compute. lia.
Defined.

Lemma X4_witness :
  exists s1 s1',
    load_phase true checked_config ramp 4 (mkThread 0 0 0 1) start = Some s1
    /\ load_phase true checked_config ramp 4 (mkThread 0 0 1 0) start = Some s1'
    /\ forall new new' r col,
         trace s1 = new ++ trace start -> trace s1' = new' ++ trace start ->
         In (WrShared r col) new -> In (WrShared r col) new' ->
         threadIdx_y (mkThread 0 0 0 1) = threadIdx_y (mkThread 0 0 1 0)
         /\ threadIdx_x (mkThread 0 0 0 1) = threadIdx_x (mkThread 0 0 1 0).
Proof.
  apply (X4_staging_cells_disjoint Z true checked_config ramp 4
           (mkThread 0 0 0 1) (mkThread 0 0 1 0) start start).
  - reflexivity.
  - reflexivity.
  - reflexivity.
  - reflexivity.
  - reflexivity.
  - reflexivity.
  - vm_compute. lia.
Defined.

Lemma X5_witness :
  exists s1,
    foldM (load_phase true checked_config ramp 4)
          (rev (block_threads grid_2x2 (1%nat, 1%nat)))
          (enter_block junk (1%nat, 1%nat) start) = Some s1
    /\ output s1 = output start
    /\ forall r col,
         0 <= r < i_end checked_config -> 0 <= col < j_end checked_config ->
         (true = true ->
          by_ checked_config (mkThread 1 1 0 0) + r < input_height checked_config
          /\ bx checked_config (mkThread 1 1 0 0) + col
             < input_width checked_config) ->
         0 <= (by_ checked_config (mkThread 1 1 0 0) + r)
              * input_width checked_config
              + (bx checked_config (mkThread 1 1 0 0) + col)
           < input_height checked_config * input_width checked_config
         /\ sh_input s1 r col
            = ramp ((by_ checked_config (mkThread 1 1 0 0) + r)
                    * input_width checked_config
                    + (bx checked_config (mkThread 1 1 0 0) + col)).
Proof.
  apply (X5_scratch_holds_input_window Z true checked_config ramp junk
           grid_2x2 (rev (block_threads grid_2x2 (1%nat, 1%nat))) 4
           (1%nat, 1%nat) start (mkThread 1 1 0 0)).
  - reflexivity.
  - reflexivity.
  - exact checked_launch_ok.
  - exact checked_in_int.
  - vm_compute. tauto.
  - apply Permutation_sym, Permutation_rev.
  - reflexivity.
  - reflexivity.
  - vm_compute. lia.
Defined.

Lemma X6_witness :
  exists s',
    convolution_kernel_of 0 Z.add Z.mul false exact_config ramp ones twos
                          junk (row_major grid_2x2) 4 start = Some s'
    /\ grows (writes_in_image exact_config) start s'
    /\ forall k, ~ in_image exact_config k -> output s' k = output start k.
Proof.
  apply (X6_unchecked_store_in_image Z 0 Z.add Z.mul exact_config ramp ones
           twos junk grid_2x2 (row_major grid_2x2) 4 start).
  - reflexivity.
  - reflexivity.
  - exact exact_launch_ok.
  - apply row_major_schedules.
  - vm_compute. lia.
Defined.

Lemma X7_witness :
  tiled_exact checked_config grid_2x2
  /\ (forall t t' yi xi yi' xi',
     In t (grid_threads grid_2x2) -> In t' (grid_threads grid_2x2) ->
     0 <= yi < tile_size_y checked_config ->
     0 <= xi < tile_size_x checked_config ->
     0 <= yi' < tile_size_y checked_config ->
     0 <= xi' < tile_size_x checked_config ->
     out_x checked_config t xi < image_width checked_config ->
     out_x checked_config t' xi' < image_width checked_config ->
     out_y checked_config t yi * image_width checked_config
     + out_x checked_config t xi
     = out_y checked_config t' yi' * image_width checked_config
       + out_x checked_config t' xi' ->
     t = t' /\ yi = yi' /\ xi = xi')
  /\ (tiled_covers checked_config grid_2x2 ->
      forall y x, 0 <= y < image_height checked_config ->
                  0 <= x < image_width checked_config ->
        exists t yi xi,
          In t (grid_threads grid_2x2)
          /\ 0 <= yi < tile_size_y checked_config
          /\ 0 <= xi < tile_size_x checked_config
          /\ out_y checked_config t yi = y /\ out_x checked_config t xi = x).
Proof.
  apply (X7_one_writer_per_element checked_config grid_2x2).
  - reflexivity.
  - reflexivity.
  - reflexivity.
  - reflexivity.
  - exact checked_in_int.
Defined.

Lemma X8_witness :
  naive_exact grid_2x2
  /\ (forall t t',
     In t (grid_threads grid_2x2) -> In t' (grid_threads grid_2x2) ->
     naive_x grid_2x2 t < image_width checked_config ->
     naive_x grid_2x2 t' < image_width checked_config ->
     naive_y grid_2x2 t * image_width checked_config + naive_x grid_2x2 t
     = naive_y grid_2x2 t' * image_width checked_config + naive_x grid_2x2 t' ->
     t = t')
  /\ (naive_covers checked_config grid_2x2 ->
      forall y x, 0 <= y < image_height checked_config ->
                  0 <= x < image_width checked_config ->
        exists t, In t (grid_threads grid_2x2)
                  /\ naive_y grid_2x2 t = y /\ naive_x grid_2x2 t = x).
Proof.
  apply (X8_naive_one_thread_per_element checked_config grid_2x2).
  exact checked_naive_in_int.
Defined.

Lemma X10_witness :
  exists st st',
    convolution_kernel 0 Z.add Z.mul checked_config ramp ones twos junk
                       (row_major grid_2x2) 4 start = Some st
    /\ convolution_kernel 0 Z.add Z.mul checked_config ramp' ones twos junk'
                          (reversed grid_2x2) 4 start = Some st'
    /\ output st (0 * image_width checked_config + 0)
       = output st' (0 * image_width checked_config + 0).
Proof.
  apply (X10_output_depends_on_window Z 0 Z.add Z.mul checked_config ramp
           ramp' ones twos junk junk' grid_2x2 (row_major grid_2x2)
           (reversed grid_2x2) 4 start start 0 0).
  - reflexivity.
  - reflexivity.
  - exact checked_launch_ok.
  - exact checked_in_int.
  - apply row_major_schedules.
  - apply reversed_schedules.
  - split; simpl; lia.
  - vm_compute. lia.
  - simpl. lia.
  - simpl. lia.
  - simpl. intros j i Hj Hi.
    assert (Ej : j = 0 \/ j = 1 \/ j = 2) by lia.
    assert (Ei : i = 0 \/ i = 1 \/ i = 2) by lia.
    destruct Ej as [ -> | [ -> | -> ] ]; destruct Ei as [ -> | [ -> | -> ] ];
      reflexivity.
Defined.


Lemma X12_witness :
  exists s',
    convolution_naive 0 Z.add Z.mul even_config ramp ones grid_2x2 junk
                      (grid_threads grid_2x2) 4 start = Some s'
    /\ grows (reads_above_last_row even_config) start s'.
Proof.
  apply (X12_even_filter_last_row_unread Z 0 Z.add Z.mul even_config ramp ones
           grid_2x2 junk (grid_threads grid_2x2) 4 start).
  - reflexivity.
  - vm_compute. repeat split; discriminate.
  - apply incl_refl.
  - vm_compute. lia.
Defined.

Lemma X13_witness :
  exists s1 s2,
    init_phase 0 checked_config 4 start = Some s1
    /\ accumulate_phase Z.add Z.mul checked_config ones 4 (mkThread 0 0 1 1) s1
       = Some s2
    /\ forall yi xi, 0 <= yi < tile_size_y checked_config ->
                     0 <= xi < tile_size_x checked_config ->
         sum s2 yi xi
         = tile_sum 0 Z.add Z.mul checked_config ones (sh_input start)
                    (mkThread 0 0 1 1) yi xi.
Proof.
  apply (X13_accumulators_hold_tile_sums Z 0 Z.add Z.mul checked_config ones 4
           (mkThread 0 0 1 1) start).
  vm_compute. lia.
Defined.

Lemma X14_witness :
  exists s' new,
    naive_thread 0 Z.add Z.mul checked_config ramp ones grid_2x2 4
                 (mkThread 0 0 1 1) start = Some s'
    /\ trace s' = new ++ trace start
    /\ count_accesses is_input_read new
       = (Z.to_nat (filter_height checked_config)
          * Z.to_nat (filter_width checked_config))%nat
    /\ count_accesses is_filter_read new
       = (Z.to_nat (filter_height checked_config)
          * Z.to_nat (filter_width checked_config))%nat.
Proof.
  apply (X14_naive_reads_per_element Z 0 Z.add Z.mul checked_config ramp ones
           grid_2x2 4 (mkThread 0 0 1 1) start).
  - reflexivity.
  - reflexivity.
  - vm_compute. lia.
Defined.
